(* ===================================================================== *)
(* MySSH terminal pane: the session interaction controller               *)
(*                                                                       *)
(* A shallow embedding of the <script setup> block of the terminal pane  *)
(* component and of the command API in src/api/ssh.js, with the          *)
(* properties of the controller stated and proved over it.               *)
(* ===================================================================== *)

From Stdlib Require Import ZArith NArith List String Ascii Bool Lia DecimalString
  Sorted.
From stdpp Require Import base option list gmap strings.
Import ListNotations.

Local Open Scope N_scope.

(* --------------------------------------------------------------------- *)
(* JavaScript strings                                                    *)
(* --------------------------------------------------------------------- *)
(* A JavaScript string is a sequence of 16-bit code units; it is
   modelled as a list of code units (N).  Every operation the component
   uses on strings is defined on that representation. *)

Abbreviation jsstring := (list N).

Module Js.

(* Code units from the UTF-8 bytes of a literal of the development, so
   that literals read as they do in the source. *)
Fixpoint utf16_of_utf8 (bs : list N) : jsstring :=
  match bs with
  | [] => []
  | b0 :: t =>
      if b0 <? 0x80 then b0 :: utf16_of_utf8 t
      else if b0 <? 0xE0 then
        match t with
        | b1 :: t' =>
            N.lor (N.shiftl (N.land b0 0x1F) 6) (N.land b1 0x3F)
              :: utf16_of_utf8 t'
        | _ => []
        end
      else if b0 <? 0xF0 then
        match t with
        | b1 :: b2 :: t' =>
            N.lor (N.shiftl (N.land b0 0x0F) 12)
              (N.lor (N.shiftl (N.land b1 0x3F) 6) (N.land b2 0x3F))
              :: utf16_of_utf8 t'
        | _ => []
        end
      else
        match t with
        | b1 :: b2 :: b3 :: t' =>
            let cp :=
              N.lor (N.shiftl (N.land b0 0x07) 18)
                (N.lor (N.shiftl (N.land b1 0x3F) 12)
                   (N.lor (N.shiftl (N.land b2 0x3F) 6) (N.land b3 0x3F))) in
            let v := cp - 0x10000 in
            (0xD800 + N.shiftr v 10) :: (0xDC00 + N.land v 0x3FF)
              :: utf16_of_utf8 t'
        | _ => []
        end
  end.

Definition lit (s : string) : jsstring :=
  utf16_of_utf8 (map (fun a => N_of_ascii a) (list_ascii_of_string s)).

(* `a || b` on strings: the empty string is the only falsy string. *)
Definition or (a b : jsstring) : jsstring :=
  match a with
  | [] => b
  | _ :: _ => a
  end.

Definition truthy (a : jsstring) : bool :=
  match a with
  | [] => false
  | _ :: _ => true
  end.

(* `a || b` where `a` is an optional property (undefined when absent). *)
Definition or_opt (a : option jsstring) (b : jsstring) : jsstring :=
  match a with
  | Some s => or s b
  | None => b
  end.

Definition truthy_opt (a : option jsstring) : bool :=
  match a with
  | Some s => truthy s
  | None => false
  end.

Fixpoint eqb (a b : jsstring) : bool :=
  match a, b with
  | [], [] => true
  | x :: a', y :: b' => (x =? y) && eqb a' b'
  | _, _ => false
  end.

(* WhiteSpace and LineTerminator code units, the set String.prototype.trim
   strips. *)
Definition isWhiteSpace (c : N) : bool :=
  ((0x09 <=? c) && (c <=? 0x0D))
  || (c =? 0x20) || (c =? 0xA0) || (c =? 0x1680)
  || ((0x2000 <=? c) && (c <=? 0x200A))
  || (c =? 0x2028) || (c =? 0x2029) || (c =? 0x202F) || (c =? 0x205F)
  || (c =? 0x3000) || (c =? 0xFEFF).

Fixpoint trimStart (s : jsstring) : jsstring :=
  match s with
  | [] => []
  | c :: s' => if isWhiteSpace c then trimStart s' else s
  end.

(* No white space in front. *)
Definition noLead (s : jsstring) : Prop :=
  match s with
  | [] => True
  | c :: _ => isWhiteSpace c = false
  end.

(* Empty or white space only. *)
Definition blank (s : jsstring) : bool := forallb isWhiteSpace s.

Definition trimEnd (s : jsstring) : jsstring := rev (trimStart (rev s)).

Definition trim (s : jsstring) : jsstring := trimEnd (trimStart s).

Fixpoint startsWith (s p : jsstring) {struct p} : bool :=
  match p, s with
  | [], _ => true
  | x :: p', y :: s' => (x =? y) && startsWith s' p'
  | _ :: _, [] => false
  end.

(* `s.replace(pat, rep)` with a string pattern: the first occurrence of
   `pat` is replaced.  `rep` is inserted as it is, which is what
   JavaScript does for a replacement without `$` (the source passes
   '~'). *)
Fixpoint replace (s pat rep : jsstring) : jsstring :=
  if startsWith s pat then rep ++ drop (length pat) s
  else match s with
       | [] => []
       | c :: s' => c :: replace s' pat rep
       end.

(* `s.split(sep)` for a separator of one code unit (the source splits
   on '\n'). *)
Fixpoint split (s : jsstring) (sep : N) : list jsstring :=
  match s with
  | [] => [[]]
  | c :: s' =>
      if c =? sep then [] :: split s' sep
      else match split s' sep with
           | seg :: segs => (c :: seg) :: segs
           | [] => [[c]]
           end
  end.

(* `arr.join(sep)` *)
Fixpoint join (arr : list jsstring) (sep : jsstring) : jsstring :=
  match arr with
  | [] => []
  | [x] => x
  | x :: rest => x ++ sep ++ join rest sep
  end.

(* `s.toLowerCase()`.  Only A-Z are folded; code units outside ASCII are
   kept.  The source compares the result with 'root' only, and no
   character outside A-Z has r, o or t as its lower case, so the
   comparison is decided as in JavaScript. *)
Definition lowerUnit (c : N) : N :=
  if (0x41 <=? c) && (c <=? 0x5A) then c + 0x20 else c.

Definition toLowerCase (s : jsstring) : jsstring := map lowerUnit s.

(* String conversion of a non-negative integer number, as a template
   literal does for `${props.server.port}`. *)
Definition numberToString (n : N) : jsstring :=
  lit (NilZero.string_of_uint (N.to_uint n)).

(* `parseInt(s)` without a radix: leading white space is skipped, then
   an optional sign, an optional 0x/0X prefix (radix 16), then the
   longest run of digits; no digit gives NaN (None).  The value is kept
   exact: rounding to a double maps no non-zero integer to zero, and the
   source only tests the result for truthiness and for `=== 0`. *)
Definition digitValue (radix c : N) : option N :=
  let v :=
    if (0x30 <=? c) && (c <=? 0x39) then Some (c - 0x30)
    else if (0x61 <=? c) && (c <=? 0x7A) then Some (c - 0x61 + 10)
    else if (0x41 <=? c) && (c <=? 0x5A) then Some (c - 0x41 + 10)
    else None in
  match v with
  | Some d => if d <? radix then Some d else None
  | None => None
  end.

Fixpoint digits (radix : N) (s : jsstring) (acc : option N) : option N :=
  match s with
  | [] => acc
  | c :: s' =>
      match digitValue radix c with
      | Some d => digits radix s' (Some (radix * default 0 acc + d))
      | None => acc
      end
  end.

Definition parseInt (s : jsstring) : option Z :=
  let s0 := trimStart s in
  let '(sign, s1) :=
    match s0 with
    | 0x2D :: r => ((-1)%Z, r)
    | 0x2B :: r => (1%Z, r)
    | _ => (1%Z, s0)
    end in
  let '(radix, s2) :=
    match s1 with
    | 0x30 :: 0x78 :: r => (16, r)
    | 0x30 :: 0x58 :: r => (16, r)
    | _ => (10, s1)
    end in
  match digits radix s2 None with
  | Some n => Some (sign * Z.of_N n)%Z
  | None => None
  end.

(* `x || d` on the number parseInt returns: NaN and 0 are falsy. *)
Definition or_number (x : option Z) (d : Z) : Z :=
  match x with
  | Some z => if (z =? 0)%Z then d else z
  | None => d
  end.

End Js.

(* --------------------------------------------------------------------- *)
(* Data model                                                            *)
(* --------------------------------------------------------------------- *)

(* The values a property of a backend result can hold. *)
Inductive jsval :=
| JUndefined
| JBool (b : bool)
| JNumber (z : Z)
| JString (s : jsstring)
| JStrings (l : list jsstring).

(* `o.k`: a property that is not there reads as undefined. *)
Definition prop (o : gmap string jsval) (k : string) : jsval :=
  default JUndefined (o !! k).

(* `v === 0` *)
Definition strict_eq_zero (v : jsval) : bool :=
  match v with
  | JNumber z => (z =? 0)%Z
  | _ => false
  end.

(* An entry of `outputLines`: { type, content, prompt }. *)
Module Line.
Inductive kind := Input | Output | Error.
Record t := mk { type : kind; content : jsstring; prompt : jsstring }.
End Line.

(* `promptInfo`: { username, hostname, isRoot, currentDir }. *)
Module PromptInfo.
Record t := mk {
  username : jsstring;
  hostname : jsstring;
  isRoot : bool;
  currentDir : jsstring }.
End PromptInfo.

(* `props.server`.  `name` is the optional display name. *)
Module Server.
Record t := mk {
  id : jsstring;
  name : option jsstring;
  host : jsstring;
  port : N;
  username : jsstring;
  connected : bool }.
End Server.

Module Props.
Record t := mk { server : Server.t; isRecording : bool }.
End Props.

(* The result of executeSshCommand, as its JSDoc in src/api/ssh.js
   declares it:
   {output: string, exitCode: number, isInteractive: boolean,
    interactiveMessage?: string, newDir?: string, outputLines: string[]} *)
Module ExecResult.
Record t := mk {
  output : jsstring;
  exitCode : Z;
  isInteractive : bool;
  interactiveMessage : option jsstring;
  newDir : option jsstring;
  outputLines : list jsstring }.

Definition optional (k : string) (v : option jsstring)
    (o : gmap string jsval) : gmap string jsval :=
  match v with
  | Some s => <[k := JString s]> o
  | None => o
  end.

(* The object a result of the declared shape is: its property table. *)
Definition properties (r : t) : gmap string jsval :=
  optional "interactiveMessage" (interactiveMessage r)
    (optional "newDir" (newDir r)
       (<["output" := JString (output r)]>
          (<["exitCode" := JNumber (exitCode r)]>
             (<["isInteractive" := JBool (isInteractive r)]>
                (<["outputLines" := JStrings (outputLines r)]> ∅))))).
End ExecResult.

(* The result of completeCommand:
   {completedInput?: string, matches: string[], shouldShowMatches: boolean} *)
Module Completion.
Record t := mk {
  completedInput : option jsstring;
  matches : list jsstring;
  shouldShowMatches : bool }.
End Completion.

(* A thrown value, by what the handlers observe of it: it is a string, or
   any other value with the outcome of `instanceof Error`, its `message`
   (None when undefined; string-valued otherwise) and the string
   `toString()` gives (None when there is no such method, as for null
   and undefined). *)
Inductive thrown :=
| ThrownString (s : jsstring)
| ThrownValue (instanceofError : bool) (message : option jsstring)
    (toStr : option jsstring).

(* `new Error(message)` *)
Definition newError (message : jsstring) : thrown :=
  ThrownValue true (Some message)
    (Some (match message with
           | [] => Js.lit "Error"
           | _ :: _ => Js.lit "Error: " ++ message
           end)).

Inductive outcome (A : Type) :=
| Ok (a : A)
| Throw (e : thrown).
Arguments Ok {A} a.
Arguments Throw {A} e.

(* Parameters of the two API calls the component makes. *)
Module ExecParams.
Record t := mk {
  serverId : jsstring;
  command : jsstring;
  currentDir : option jsstring }.
End ExecParams.

Module CompleteParams.
Record t := mk {
  serverId : jsstring;
  input : jsstring;
  currentDir : jsstring }.
End CompleteParams.

(* The module '@/api/ssh' as the component imports it. *)
Record Api := mkApi {
  executeSshCommand : ExecParams.t -> outcome ExecResult.t;
  completeCommand : CompleteParams.t -> outcome Completion.t }.

(* What a handler does to the outside: events emitted to the parent
   (`emit('record', {type, content})`) and calls of the API. *)
Inductive recordType := RecInput | RecOutput.

Inductive effect :=
| Emit (type : recordType) (content : jsstring)
| CallExecute (params : ExecParams.t)
| CallComplete (params : CompleteParams.t).

(* The refs of the component, and the log of its effects. *)
Record State := mkState {
  outputLines : list Line.t;
  currentInput : jsstring;
  currentPrompt : jsstring;
  commandHistory : list jsstring;
  historyIndex : Z;
  promptInfo : PromptInfo.t;
  currentWorkingDir : jsstring;
  effects : list effect }.

Definition set_outputLines (v : list Line.t) (st : State) : State :=
  mkState v (currentInput st) (currentPrompt st) (commandHistory st)
    (historyIndex st) (promptInfo st) (currentWorkingDir st) (effects st).
Definition set_currentInput (v : jsstring) (st : State) : State :=
  mkState (outputLines st) v (currentPrompt st) (commandHistory st)
    (historyIndex st) (promptInfo st) (currentWorkingDir st) (effects st).
Definition set_currentPrompt (v : jsstring) (st : State) : State :=
  mkState (outputLines st) (currentInput st) v (commandHistory st)
    (historyIndex st) (promptInfo st) (currentWorkingDir st) (effects st).
Definition set_commandHistory (v : list jsstring) (st : State) : State :=
  mkState (outputLines st) (currentInput st) (currentPrompt st) v
    (historyIndex st) (promptInfo st) (currentWorkingDir st) (effects st).
Definition set_historyIndex (v : Z) (st : State) : State :=
  mkState (outputLines st) (currentInput st) (currentPrompt st)
    (commandHistory st) v (promptInfo st) (currentWorkingDir st) (effects st).
Definition set_promptInfo (v : PromptInfo.t) (st : State) : State :=
  mkState (outputLines st) (currentInput st) (currentPrompt st)
    (commandHistory st) (historyIndex st) v (currentWorkingDir st) (effects st).
Definition set_currentWorkingDir (v : jsstring) (st : State) : State :=
  mkState (outputLines st) (currentInput st) (currentPrompt st)
    (commandHistory st) (historyIndex st) (promptInfo st) v (effects st).
Definition set_effects (v : list effect) (st : State) : State :=
  mkState (outputLines st) (currentInput st) (currentPrompt st)
    (commandHistory st) (historyIndex st) (promptInfo st)
    (currentWorkingDir st) v.

(* The values of the refs when the component is set up. *)
Definition initial : State :=
  {| outputLines :=
       [Line.mk Line.Output (Js.lit "欢迎使用 MySSH 终端") []];
     currentInput := [];
     currentPrompt := Js.lit "$ ";
     commandHistory := [];
     historyIndex := (-1)%Z;
     promptInfo := PromptInfo.mk [] [] false (Js.lit "~");
     currentWorkingDir := Js.lit "~";
     effects := [] |}.

(* --------------------------------------------------------------------- *)
(* Handlers as computations: state and exceptions                        *)
(* --------------------------------------------------------------------- *)
(* A handler reads and writes the refs and may throw; what it wrote
   before a throw stays written. *)

Definition M (A : Type) : Type := State -> outcome A * State.

Definition ret {A} (a : A) : M A := fun st => (Ok a, st).

Definition bind {A B} (c : M A) (k : A -> M B) : M B :=
  fun st =>
    match c st with
    | (Ok a, st') => k a st'
    | (Throw e, st') => (Throw e, st')
    end.

Declare Scope js_scope.
Delimit Scope js_scope with js.
Notation "x <- c ;; k" := (bind c (fun x => k))
  (at level 100, c at next level, right associativity) : js_scope.
Notation "c ;; k" := (bind c (fun _ => k))
  (at level 100, right associativity) : js_scope.
Local Open Scope js_scope.

Definition get : M State := fun st => (Ok st, st).
Definition modify (f : State -> State) : M unit := fun st => (Ok tt, f st).
Definition raise {A} (e : thrown) : M A := fun st => (Throw e, st).

(* try { body } catch (error) { handler error } *)
Definition try_catch {A} (body : M A) (handler : thrown -> M A) : M A :=
  fun st =>
    match body st with
    | (Ok a, st') => (Ok a, st')
    | (Throw e, st') => handler e st'
    end.

(* arr.forEach(f) *)
Fixpoint forEach {A} (arr : list A) (f : A -> M unit) : M unit :=
  match arr with
  | [] => ret tt
  | x :: rest => f x ;; forEach rest f
  end.

Definition when (b : bool) (c : M unit) : M unit :=
  if b then c else ret tt.

(* outputLines.value.push(line) *)
Definition push_line (l : Line.t) : M unit :=
  modify (fun st => set_outputLines (outputLines st ++ [l]) st).

Definition perform (e : effect) : M unit :=
  modify (fun st => set_effects (effects st ++ [e]) st).

(* emit('record', { type, content }) *)
Definition emit_record (type : recordType) (content : jsstring) : M unit :=
  perform (Emit type content).

(* await of a settled promise: its value, or its rejection thrown. *)
Definition await {A} (o : outcome A) : M A :=
  match o with
  | Ok a => ret a
  | Throw e => raise e
  end.

(* --------------------------------------------------------------------- *)
(* src/api/ssh.js                                                        *)
(* --------------------------------------------------------------------- *)

(* The `params` objects passed to `invoke`. *)
Module InvokeExec.
Record t := mk {
  server_id : jsstring;
  command : jsstring;
  current_dir : option jsstring }.
End InvokeExec.

Module InvokeComplete.
Record t := mk {
  server_id : jsstring;
  input : jsstring;
  current_dir : jsstring }.
End InvokeComplete.

(* The backend behind `invoke`: what each command settles to. *)
Record Backend := mkBackend {
  execute_ssh_command : InvokeExec.t -> outcome ExecResult.t;
  complete_command : InvokeComplete.t -> outcome Completion.t }.

Module SshApi.

(* The catch blocks of ssh.js:
     let errorMessage = <fallback>
     if (typeof error === 'string') errorMessage = error
     else if (error?.message) errorMessage = error.message
     else if (error?.toString) errorMessage = error.toString() *)
Definition errorMessage (fallback : jsstring) (error : thrown) : jsstring :=
  match error with
  | ThrownString s => s
  | ThrownValue _ message toStr =>
      if Js.truthy_opt message then default [] message
      else match toStr with
           | Some s => s
           | None => fallback
           end
  end.

(* `params.currentDir || null` *)
Definition or_null (v : option jsstring) : option jsstring :=
  match v with
  | Some (c :: s) => Some (c :: s)
  | _ => None
  end.

Definition executeSshCommand (b : Backend) (params : ExecParams.t)
    : outcome ExecResult.t :=
  match execute_ssh_command b
          (InvokeExec.mk (ExecParams.serverId params)
             (ExecParams.command params)
             (or_null (ExecParams.currentDir params))) with
  | Ok result => Ok result
  | Throw error =>
      Throw (newError (errorMessage (Js.lit "执行命令失败") error))
  end.

Definition completeCommand (b : Backend) (params : CompleteParams.t)
    : outcome Completion.t :=
  match complete_command b
          (InvokeComplete.mk (CompleteParams.serverId params)
             (CompleteParams.input params)
             (CompleteParams.currentDir params)) with
  | Ok result => Ok result
  | Throw error =>
      Throw (newError (errorMessage (Js.lit "补全失败") error))
  end.

Definition api (b : Backend) : Api :=
  mkApi (executeSshCommand b) (completeCommand b).

End SshApi.

(* --------------------------------------------------------------------- *)
(* The terminal pane component                                           *)
(* --------------------------------------------------------------------- *)

(* Lines 547-571 of updateCurrentDirFromPath: the local `currentDir`, the
   directory as the prompt displays it (the specification's
   DirectoryNormalizer). *)
Definition normalize (fullPath username : jsstring) (isRoot : bool)
    : jsstring :=
  let currentDir := Js.or (Js.trim fullPath) (Js.lit "~") in
  if isRoot then
    if Js.eqb currentDir (Js.lit "/root") then Js.lit "/root"
    else if Js.startsWith currentDir (Js.lit "/root/") then currentDir
    else currentDir
  else
    if Js.eqb currentDir (Js.lit "/home/" ++ username) then Js.lit "~"
    else if Js.startsWith currentDir (Js.lit "/home/" ++ username ++ Js.lit "/")
    then Js.replace currentDir (Js.lit "/home/" ++ username) (Js.lit "~")
    else currentDir.

(* The template literal of updatePrompt. *)
Definition renderPrompt (info : PromptInfo.t) : jsstring :=
  let promptSymbol :=
    if PromptInfo.isRoot info then Js.lit "#" else Js.lit "$" in
  PromptInfo.username info ++ Js.lit "@" ++ PromptInfo.hostname info
    ++ Js.lit ":" ++ PromptInfo.currentDir info ++ promptSymbol ++ Js.lit " ".

(* `props.server ? (props.server.name || `${host}:${port}`) : '未知服务器'` *)
Definition serverName (server : option Server.t) : jsstring :=
  match server with
  | Some s =>
      Js.or_opt (Server.name s)
        (Server.host s ++ Js.lit ":" ++ Js.numberToString (Server.port s))
  | None => Js.lit "未知服务器"
  end.

(* The message the catch block of executeCommand displays. *)
Definition dispatchErrorMessage (error : thrown) : jsstring :=
  let errorMessage := Js.lit "执行命令失败" in
  match error with
  | ThrownValue true message _ => Js.or_opt message errorMessage
  | ThrownString s => s
  | ThrownValue false message _ =>
      if Js.truthy_opt message then default [] message else errorMessage
  end.

(* The result shapes executeCommand branches on:
     if (result.isInteractive && result.interactiveMessage) ...
     if (result.newDir) ... *)
Definition interactiveSignal (result : ExecResult.t) : bool :=
  ExecResult.isInteractive result
  && Js.truthy_opt (ExecResult.interactiveMessage result).

Definition directoryChangeSignal (result : ExecResult.t) : bool :=
  Js.truthy_opt (ExecResult.newDir result).

(* The argument of executeSshCommand in executeCommand:
     { serverId: props.server.id, command: command,
       currentDir: currentWorkingDir.value || '~' } *)
Definition dispatchParams (props : Props.t) (st : State)
    (command : jsstring) : ExecParams.t :=
  ExecParams.mk (Server.id (Props.server props)) command
    (Some (Js.or (currentWorkingDir st) (Js.lit "~"))).

(* The argument of completeCommand in handleTabComplete. *)
Definition completionParams (props : Props.t) (st : State)
    (input : jsstring) : CompleteParams.t :=
  CompleteParams.mk (Server.id (Props.server props)) input
    (Js.or (currentWorkingDir st) (Js.lit "~")).

Section Component.

(* The imported API and the props; the component dereferences
   `props.server` unguarded on every path, so it is an object. *)
Context (api : Api) (props : Props.t).

Definition callExecute (params : ExecParams.t) : M ExecResult.t :=
  perform (CallExecute params) ;; await (executeSshCommand api params).

Definition callComplete (params : CompleteParams.t) : M Completion.t :=
  perform (CallComplete params) ;; await (completeCommand api params).

Definition updatePrompt : M unit :=
  modify (fun st => set_currentPrompt (renderPrompt (promptInfo st)) st).

Definition updateCurrentDirFromPath (fullPath : jsstring) : M unit :=
  st <- get ;;
  let currentDir :=
    normalize fullPath (PromptInfo.username (promptInfo st))
      (PromptInfo.isRoot (promptInfo st)) in
  modify (fun st =>
    set_promptInfo
      (PromptInfo.mk (PromptInfo.username (promptInfo st))
         (PromptInfo.hostname (promptInfo st))
         (PromptInfo.isRoot (promptInfo st)) currentDir) st) ;;
  modify (set_currentWorkingDir (Js.trim fullPath)) ;;
  updatePrompt.

Definition probe (command : string) : ExecParams.t :=
  ExecParams.mk (Server.id (Props.server props)) (Js.lit command) None.

Definition fetchPromptInfo : M unit :=
  try_catch
    (userResult <- callExecute (probe "whoami") ;;
     let username :=
       Js.or (Js.or (Js.trim (ExecResult.output userResult))
                (Server.username (Props.server props)))
         (Js.lit "user") in
     hostnameResult <- callExecute (probe "hostname") ;;
     let hostname :=
       Js.or (Js.or (Js.trim (ExecResult.output hostnameResult))
                (Server.host (Props.server props)))
         (Js.lit "localhost") in
     idResult <- callExecute (probe "id -u") ;;
     let userId :=
       Js.or_number (Js.parseInt (Js.trim (ExecResult.output idResult)))
         1000 in
     let isRoot :=
       (userId =? 0)%Z
       || Js.eqb (Js.toLowerCase username) (Js.lit "root") in
     pwdResult <- callExecute (probe "pwd") ;;
     let fullPath :=
       Js.or (Js.trim (ExecResult.output pwdResult)) (Js.lit "~") in
     modify (set_promptInfo
               (PromptInfo.mk username hostname isRoot (Js.lit "~"))) ;;
     updateCurrentDirFromPath fullPath)
    (fun error =>
       modify (set_promptInfo
                 (PromptInfo.mk
                    (Js.or (Server.username (Props.server props))
                       (Js.lit "user"))
                    (Js.or (Server.host (Props.server props))
                       (Js.lit "localhost"))
                    false (Js.lit "~"))) ;;
       updatePrompt).

Definition executeCommand (command : jsstring) : M unit :=
  try_catch
    (st <- get ;;
     result <- callExecute (dispatchParams props st command) ;;
     if interactiveSignal result then
       forEach (ExecResult.outputLines result) (fun line =>
         push_line
           (Line.mk
              (if Js.startsWith line (Js.lit "警告:")
               then Line.Error else Line.Output)
              line []))
     else if directoryChangeSignal result then
       updateCurrentDirFromPath (default [] (ExecResult.newDir result)) ;;
       push_line (Line.mk Line.Output [] [])
     else
       when (Props.isRecording props)
         (emit_record RecOutput (ExecResult.output result)) ;;
       forEach (ExecResult.outputLines result) (fun line =>
         push_line
           (Line.mk
              (if strict_eq_zero
                    (prop (ExecResult.properties result) "exit_code")
               then Line.Output else Line.Error)
              line [])))
    (fun error =>
       let serverName := serverName (Some (Props.server props)) in
       let errorLines := Js.split (dispatchErrorMessage error) 10 in
       forEach errorLines (fun line =>
         push_line
           (Line.mk Line.Error
              (if Js.truthy line then serverName ++ Js.lit ": " ++ line
               else [])
              []))).

Definition handleCommand : M unit :=
  st <- get ;;
  let command := Js.trim (currentInput st) in
  if negb (Js.truthy command) then
    push_line (Line.mk Line.Input [] (currentPrompt st)) ;;
    modify (set_currentInput [])
  else
    when (Props.isRecording props) (emit_record RecInput command) ;;
    modify (fun st => set_commandHistory (commandHistory st ++ [command]) st) ;;
    modify (fun st =>
      set_historyIndex (Z.of_nat (length (commandHistory st))) st) ;;
    push_line (Line.mk Line.Input command (currentPrompt st)) ;;
    modify (set_currentInput []) ;;
    executeCommand command.

(* `commandHistory.value[i]`; the index is within the array wherever the
   two history handlers read it (see history_read_in_range). *)
Definition historyEntry (st : State) (i : Z) : jsstring :=
  default [] (commandHistory st !! Z.to_nat i).

Definition handleHistoryUp : M unit :=
  st <- get ;;
  if (length (commandHistory st) =? 0)%nat then ret tt
  else if (historyIndex st >? 0)%Z then
    modify (fun st => set_historyIndex (historyIndex st - 1)%Z st) ;;
    modify (fun st => set_currentInput (historyEntry st (historyIndex st)) st)
  else ret tt.

Definition handleHistoryDown : M unit :=
  st <- get ;;
  if (historyIndex st <? Z.of_nat (length (commandHistory st)) - 1)%Z then
    modify (fun st => set_historyIndex (historyIndex st + 1)%Z st) ;;
    modify (fun st => set_currentInput (historyEntry st (historyIndex st)) st)
  else
    modify (fun st =>
      set_historyIndex (Z.of_nat (length (commandHistory st))) st) ;;
    modify (set_currentInput []).

Definition handleTabComplete : M unit :=
  st <- get ;;
  let input := Js.trim (currentInput st) in
  if negb (Js.truthy input) then ret tt
  else
    try_catch
      (result <- callComplete (completionParams props st input) ;;
       if Js.truthy_opt (Completion.completedInput result) then
         modify (set_currentInput
                   (default [] (Completion.completedInput result)))
       else if Completion.shouldShowMatches result
               && (0 <? length (Completion.matches result))%nat
       then
         push_line
           (Line.mk Line.Output
              (Js.join (Completion.matches result) (Js.lit "  ")) [])
       else ret tt)
      (fun error => ret tt).

Definition clear : M unit := modify (set_outputLines []).

(* watch(() => props.server.connected, async (connected) => ...) *)
Definition watchConnected (connected : bool) : M unit :=
  if connected then
    push_line
      (Line.mk Line.Output
         (Js.lit "已连接到 " ++ Server.host (Props.server props)
            ++ Js.lit ":" ++ Js.numberToString (Server.port (Props.server props)))
         []) ;;
    fetchPromptInfo
  else
    modify (set_currentPrompt (Js.lit "$ ")) ;;
    modify (set_promptInfo (PromptInfo.mk [] [] false (Js.lit "~"))).

Definition onMounted : M unit :=
  when (Server.connected (Props.server props)) fetchPromptInfo.

End Component.

(* The events the component reacts to. *)
Inductive event :=
| Typed (text : jsstring)          (* v-model="currentInput" *)
| KeyEnter                         (* @keydown.enter *)
| KeyUp                            (* @keydown.up *)
| KeyDown                          (* @keydown.down *)
| KeyTab                           (* @keydown.tab *)
| ConnectedChanged (connected : bool)
| Mounted
| ClearCalled.                     (* defineExpose({ clear }) *)

Definition handler (api : Api) (props : Props.t) (ev : event) : M unit :=
  match ev with
  | Typed text => modify (set_currentInput text)
  | KeyEnter => handleCommand api props
  | KeyUp => handleHistoryUp
  | KeyDown => handleHistoryDown
  | KeyTab => handleTabComplete api props
  | ConnectedChanged connected => watchConnected api props connected
  | Mounted => onMounted api props
  | ClearCalled => clear
  end.

(* A handler runs to its end on the event that starts it: what it awaits
   is answered by the API at once.  The dynamic import of the API, the
   scrolling and the console have no part in the state. *)
Definition run {A} (c : M A) (st : State) : State := snd (c st).

(* The states the component can be in: the API answers and the props may
   differ from one event to the next. *)
Inductive reachable : State -> Prop :=
| reachable_initial : reachable initial
| reachable_step st api props ev :
    reachable st -> reachable (run (handler api props ev) st).

(* --------------------------------------------------------------------- *)
(* The specification's wording                                           *)
(* --------------------------------------------------------------------- *)
(* These follow the specification, not the source; the theorems compare
   them with the handlers above. *)
Module Spec.

(* "native error object message, else string error as-is, else generic
 message" (4.4, step 5) *)
Definition errorMessage (e : thrown) : jsstring :=
match e with
| ThrownValue _ (Some (c :: m)) _ => c :: m
| ThrownString s => s
| _ => Js.lit "执行命令失败"
end.

(* "the session's display name (`name` or `host:port`)" *)
Definition displayName (s : Server.t) : jsstring :=
match Server.name s with
| Some (c :: n) => c :: n
| _ => Server.host s ++ Js.lit ":" ++ Js.numberToString (Server.port s)
end.

(* "one Error OutputLine per segment, each prefixed with the session's
 display name; empty segments render as blank lines without the
 prefix" *)
Definition errorLine (display segment : jsstring) : Line.t :=
match segment with
| [] => Line.mk Line.Error [] []
| _ :: _ => Line.mk Line.Error (display ++ Js.lit ": " ++ segment) []
end.

Definition errorLines (display message : jsstring) : list Line.t :=
map (errorLine display) (Js.split message 10).

(* "append each line of outputLines as Error if it textually starts
 with a warning marker, else Output" (4.4, step 4a) *)
Definition interactiveLine (line : jsstring) : Line.t :=
Line.mk
  (if Js.startsWith line (Js.lit "警告:") then Line.Error
   else Line.Output)
  line [].

(* "append each line of outputLines as Error if exitCode != 0 else
 Output" (4.4, step 4c) *)
Definition resultLine (exitCode : Z) (line : jsstring) : Line.t :=
Line.mk (if (exitCode =? 0)%Z then Line.Output else Line.Error) line [].

(* "context defaults (context.username, context.host, false)" (4.2), with
 the second fallback the source has for an empty context field. *)
Definition contextDefaults (s : Server.t) : PromptInfo.t :=
PromptInfo.mk (Js.or (Server.username s) (Js.lit "user"))
  (Js.or (Server.host s) (Js.lit "localhost")) false (Js.lit "~").

End Spec.

(* --------------------------------------------------------------------- *)
(* Frames and the history invariant                                      *)
(* --------------------------------------------------------------------- *)

(* A computation leaves an observation `f` of the state as it was,
   whether it returns or throws. *)
Definition keeps {A T} (f : State -> T) (c : M A) : Prop :=
  forall st, f (snd (c st)) = f st.

(* The history navigator: entries and cursor. *)
Definition history (st : State) : list jsstring * Z :=
  (commandHistory st, historyIndex st).

Definition historyInvariant (st : State) : Prop :=
  (-1 <= historyIndex st <= Z.of_nat (length (commandHistory st)))%Z
  /\ (historyIndex st = (-1)%Z -> commandHistory st = [])
  /\ Forall (fun entry => Js.blank entry = false) (commandHistory st).

(* The commands fetchPromptInfo sends, in order. *)
Definition probeCommands : list string :=
  ["whoami"; "hostname"; "id -u"; "pwd"].

(* Some call of fetchPromptInfo is answered by a rejection. *)
Definition refreshFails (api : Api) (props : Props.t) : Prop :=
  exists command e,
    In command probeCommands
    /\ executeSshCommand api (probe props command) = Throw e.

(* --------------------------------------------------------------------- *)
(* Sample sessions                                                       *)
(* --------------------------------------------------------------------- *)
Module Sample.

Definition server : Server.t :=
Server.mk (Js.lit "srv-1") (Some (Js.lit "prod-1")) (Js.lit "10.0.0.5")
  22 (Js.lit "bob") true.

Definition props : Props.t := Props.mk server false.

Definition noCompletion : outcome Completion.t :=
Ok (Completion.mk None [] false).

Definition answer (out : string) : outcome ExecResult.t :=
Ok (ExecResult.mk (Js.lit out) 0 false None None [Js.lit out]).

(* `echo ok` succeeding on the remote host. *)
Definition echoOk : ExecResult.t :=
ExecResult.mk (Js.lit "ok") 0 false None None [Js.lit "ok"].

(* A command the backend reports as interactive. *)
Definition interactiveVim : ExecResult.t :=
ExecResult.mk [] 0 true (Some (Js.lit "vim")) None
  [Js.lit "警告: vim"; Js.lit "use the editor"].

(* `cd /tmp` *)
Definition cdTmp : ExecResult.t :=
ExecResult.mk (Js.lit "/tmp") 0 false None (Some (Js.lit "/tmp"))
  [Js.lit "/tmp"].

Definition timeout : thrown := newError (Js.lit "timeout").

(* A completion result with both an input and matches. *)
Definition completionBoth : Completion.t :=
Completion.mk (Some (Js.lit "ls -la")) [Js.lit "ls"; Js.lit "lsblk"] true.

(* An API whose execution call settles the same way for every command. *)
Definition always (o : outcome ExecResult.t) : Api :=
mkApi (fun _ => o) (fun _ => noCompletion).

Definition echoing : Api := always (Ok echoOk).
Definition refusingVim : Api := always (Ok interactiveVim).
Definition changingDir : Api := always (Ok cdTmp).
Definition timingOut : Api := always (Throw timeout).

Definition completing : Api :=
mkApi (fun _ => Ok echoOk) (fun _ => Ok completionBoth).

(* A remote host for user alice on which `hostname` settles as given. *)
Definition remote (hostnameOutcome : outcome ExecResult.t) : Api :=
mkApi
  (fun params =>
     let command := ExecParams.command params in
     if Js.eqb command (Js.lit "whoami") then answer "alice"
     else if Js.eqb command (Js.lit "hostname") then hostnameOutcome
     else if Js.eqb command (Js.lit "id -u") then answer "1000"
     else if Js.eqb command (Js.lit "pwd") then answer "/home/alice"
     else if Js.eqb command (Js.lit "cd /var/log") then
       Ok (ExecResult.mk (Js.lit "/var/log") 0 false None
             (Some (Js.lit "/var/log")) [Js.lit "/var/log"])
     else Ok echoOk)
  (fun _ => noCompletion).

Definition healthy : Api := remote (answer "web").
Definition noHostname : Api := remote (Throw timeout).

Definition press (ev : event) : State -> State :=
run (handler healthy props ev).

(* The edit buffer holding the given text, nothing else having happened. *)
Definition typed (text : string) : State := press (Typed (Js.lit text)) initial.

(* After `a` was submitted, the up key pressed, the edit buffer emptied
 and the empty line submitted. *)
Definition afterBlankSubmission : State :=
press KeyEnter (press (Typed []) (press KeyUp (press KeyEnter (typed "a")))).

(* Connected, then `cd /var/log`. *)
Definition inVarLog : State :=
press KeyEnter
  (press (Typed (Js.lit "cd /var/log")) (press (ConnectedChanged true) initial)).

Definition disconnected : State := press (ConnectedChanged false) inVarLog.

(* Connected again, the prompt information calls succeeding; then `ls`. *)
Definition reconnected : State := press (ConnectedChanged true) disconnected.

Definition firstCommandAfterReconnect : State :=
press KeyEnter (press (Typed (Js.lit "ls")) reconnected).

(* Connected again on a host where `hostname` is rejected. *)
Definition reconnectedBadly : State :=
run (watchConnected noHostname props true)
  (run (watchConnected healthy props false) inVarLog).

End Sample.

(* --------------------------------------------------------------------- *)
(* More of the terminal pane                                             *)
(* --------------------------------------------------------------------- *)

(* updateCurrentDir (the component defines it and does not call it):
     try { const pwdResult = await executeSshCommand({serverId, command: 'pwd'})
           const fullPath = pwdResult.output.trim() || '~'
           updateCurrentDirFromPath(fullPath) }
     catch (error) { console.error(...) } *)
Definition updateCurrentDir (api : Api) (props : Props.t) : M unit :=
  try_catch
    (pwdResult <- callExecute api (probe props "pwd") ;;
     let fullPath :=
       Js.or (Js.trim (ExecResult.output pwdResult)) (Js.lit "~") in
     updateCurrentDirFromPath fullPath)
    (fun error => ret tt).

(* A computation takes every state to one related to it by R, whether it
   returns or throws. *)
Definition steps {A} (R : State -> State -> Prop) (c : M A) : Prop :=
  forall st, R st (snd (c st)).

(* The lines displayed before are still displayed, in front. *)
Definition outputGrows (st st' : State) : Prop :=
  exists added, outputLines st' = outputLines st ++ added.

Definition isEmit (e : effect) : bool :=
  match e with
  | Emit _ _ => true
  | _ => false
  end.

(* The record events emitted so far. *)
Definition emitted (st : State) : list effect :=
  List.filter isEmit (effects st).

(* The prompt is the idle one of a disconnected pane, or the rendering of
   the prompt information. *)
Definition promptConsistent (st : State) : Prop :=
  (currentPrompt st = Js.lit "$ "
   /\ promptInfo st = PromptInfo.mk [] [] false (Js.lit "~"))
  \/ currentPrompt st = renderPrompt (promptInfo st).

(* The up key pressed n times. *)
Definition pressUp (n : nat) (st : State) : State :=
  Nat.iter n (run handleHistoryUp) st.

(* The state in which handleCommand dispatches a command that is not
   blank: recorded, pushed on the history, echoed, the edit buffer
   cleared. *)
Definition dispatching (props : Props.t) (st : State) : State :=
  let command := Js.trim (currentInput st) in
  mkState
    (outputLines st ++ [Line.mk Line.Input command (currentPrompt st)])
    [] (currentPrompt st) (commandHistory st ++ [command])
    (Z.of_nat (length (commandHistory st ++ [command])))
    (promptInfo st) (currentWorkingDir st)
    (effects st
       ++ (if Props.isRecording props then [Emit RecInput command] else [])).

(* The record event of a response: only a normal result is recorded. *)
Definition responseRecord (props : Props.t) (o : outcome ExecResult.t)
    : list effect :=
  match o with
  | Ok r =>
      if Props.isRecording props && negb (interactiveSignal r)
         && negb (directoryChangeSignal r)
      then [Emit RecOutput (ExecResult.output r)]
      else []
  | Throw _ => []
  end.


(* What the prompt line shows. *)
Definition promptView (st : State) : jsstring * PromptInfo.t :=
  (currentPrompt st, promptInfo st).

Module More.

(* `a` and `b` submitted, in this order. *)
Definition twoCommands : State :=
  Sample.press KeyEnter
    (Sample.press (Typed (Js.lit "b"))
       (Sample.press KeyEnter (Sample.typed "a"))).

(* ... and a draft typed after them. *)
Definition drafting : State :=
  Sample.press (Typed (Js.lit "draft")) twoCommands.

(* User admin with uid 0. *)
Definition adminUid0 : Api :=
  mkApi
    (fun params =>
       let command := ExecParams.command params in
       if Js.eqb command (Js.lit "whoami") then Sample.answer "admin"
       else if Js.eqb command (Js.lit "id -u") then Sample.answer "0"
       else if Js.eqb command (Js.lit "pwd") then Sample.answer "/root"
       else Sample.answer "web")
    (fun _ => Sample.noCompletion).

(* A completion service that is down. *)
Definition noCompleting : Api :=
  mkApi (fun _ => Ok Sample.echoOk) (fun _ => Throw Sample.timeout).

End More.

(* --------------------------------------------------------------------- *)
(* More of src/api/ssh.js                                                *)
(* --------------------------------------------------------------------- *)

(* The object executeSshCommand passes to invoke('execute_ssh_command'):
     { server_id: params.serverId, command: params.command,
       current_dir: params.currentDir || null } *)
Definition invokeExecParams (params : ExecParams.t) : InvokeExec.t :=
  InvokeExec.mk (ExecParams.serverId params) (ExecParams.command params)
    (SshApi.or_null (ExecParams.currentDir params)).

(* The parameters of connectSshServer and what it passes to invoke. *)
Module ConnectParams.
Record t := mk {
  serverId : jsstring;
  host : jsstring;
  port : N;
  username : jsstring;
  password : option jsstring;
  keyPath : option jsstring }.
End ConnectParams.

Module InvokeConnect.
Record t := mk {
  server_id : jsstring;
  host : jsstring;
  port : N;
  username : jsstring;
  password : option jsstring;
  key_path : option jsstring }.
End InvokeConnect.

(* The commands of the connection life cycle, as the backend settles
   them; R is what a command resolves to. *)
Record ConnectionBackend (R : Type) := mkConnectionBackend {
  connect_ssh_server : InvokeConnect.t -> outcome R;
  disconnect_ssh_server : jsstring -> outcome R;
  reconnect_terminal : jsstring -> outcome R }.
Arguments connect_ssh_server {R} _ _.
Arguments disconnect_ssh_server {R} _ _.
Arguments reconnect_terminal {R} _ _.

Module SshConnection.

(* try { return await invoke(...) } catch (error) { ...; throw new Error(errorMessage) } *)
Definition rethrow {R} (fallback : string) (o : outcome R) : outcome R :=
  match o with
  | Ok result => Ok result
  | Throw error => Throw (newError (SshApi.errorMessage (Js.lit fallback) error))
  end.

Definition connectSshServer {R} (b : ConnectionBackend R)
    (params : ConnectParams.t) : outcome R :=
  rethrow "连接服务器失败"
    (connect_ssh_server b
       (InvokeConnect.mk (ConnectParams.serverId params)
          (ConnectParams.host params) (ConnectParams.port params)
          (ConnectParams.username params)
          (SshApi.or_null (ConnectParams.password params))
          (SshApi.or_null (ConnectParams.keyPath params)))).

Definition disconnectSshServer {R} (b : ConnectionBackend R)
    (serverId : jsstring) : outcome R :=
  rethrow "断开连接失败" (disconnect_ssh_server b serverId).

Definition reconnectTerminal {R} (b : ConnectionBackend R)
    (serverId : jsstring) : outcome R :=
  rethrow "重连失败" (reconnect_terminal b serverId).

End SshConnection.

(* A thrown value is an Error object with the given message. *)
Definition isErrorWith (message : jsstring) (e : thrown) : Prop :=
  exists str, e = ThrownValue true (Some message) (Some str).

(* A settled call that, when it is a rejection, is one with an Error
   object. *)
Definition rejectsWithError {R} (o : outcome R) : Prop :=
  forall e, o = Throw e -> exists m, isErrorWith m e.

Module Wire.

(* A backend that refuses every command with the given value. *)
Definition refusing (raw : thrown) : Backend :=
  mkBackend (fun _ => Throw raw) (fun _ => Throw raw).

Definition refusingConnection (raw : thrown) : ConnectionBackend unit :=
  mkConnectionBackend unit (fun _ => Throw raw) (fun _ => Throw raw)
    (fun _ => Throw raw).

Definition denied : thrown := ThrownString (Js.lit "denied").

Definition anyCommand : ExecParams.t :=
  ExecParams.mk (Js.lit "srv-1") (Js.lit "ls") None.

End Wire.

(* --------------------------------------------------------------------- *)
(* The toast component                                                   *)
(* --------------------------------------------------------------------- *)

(* arr.findIndex(p): the index of the first element p holds of, -1 when
   there is none. *)
Fixpoint findIndex {A} (p : A -> bool) (arr : list A) : Z :=
  match arr with
  | [] => (-1)%Z
  | x :: rest =>
      if p x then 0%Z
      else let i := findIndex p rest in
           if (i >? -1)%Z then (i + 1)%Z else (-1)%Z
  end.

Module Toast.

(* { id, message, type, duration } *)
Record toast := mkToast {
  id : N;
  message : jsstring;
  type : jsstring;
  duration : Z }.

(* The ref `toasts`, the counter `toastId`, and the removals scheduled
   with setTimeout and not run yet: the id to remove and the delay. *)
Record state := mkState {
  toasts : list toast;
  toastId : N;
  timers : list (N * Z) }.

Definition initial : state := mkState [] 0 [].

Definition removeToast (id' : N) (st : state) : state :=
  let index := findIndex (fun t => id t =? id') (toasts st) in
  if (index >? -1)%Z then
    mkState (delete (Z.to_nat index) (toasts st)) (toastId st) (timers st)
  else st.

(* showToast(message, type = ToastType.INFO, duration = 3000): a missing
   (undefined) argument takes its default. *)
Definition showToast (message' : jsstring) (type' : option jsstring)
    (duration' : option Z) (st : state) : N * state :=
  let type' := default (Js.lit "info") type' in
  let duration' := default 3000%Z duration' in
  let id' := toastId st + 1 in
  let toast := mkToast id' message' type' duration' in
  let toasts' := toasts st ++ [toast] in
  (id',
   if (duration' >? 0)%Z then
     mkState toasts' id' (timers st ++ [(id', duration')])
   else mkState toasts' id' (timers st)).

(* What defineExpose gives the parent. *)
Definition show := showToast.
Definition success (message' : jsstring) (duration' : option Z) :=
  showToast message' (Some (Js.lit "success")) duration'.
Definition error (message' : jsstring) (duration' : option Z) :=
  showToast message' (Some (Js.lit "error")) duration'.
Definition warning (message' : jsstring) (duration' : option Z) :=
  showToast message' (Some (Js.lit "warning")) duration'.
Definition info (message' : jsstring) (duration' : option Z) :=
  showToast message' (Some (Js.lit "info")) duration'.

(* What happens to the component: a call of showToast (the exposed
   methods are calls of it), a click on the close button of a toast, and
   a scheduled removal running (the k-th pending one; which runs first is
   left open). *)
Inductive event :=
| Shown (message' : jsstring) (type' : option jsstring) (duration' : option Z)
| Closed (id' : N)
| TimerFired (k : nat).

Definition step (ev : event) (st : state) : state :=
  match ev with
  | Shown m t d => snd (showToast m t d st)
  | Closed i => removeToast i st
  | TimerFired k =>
      match timers st !! k with
      | Some (i, _) =>
          removeToast i (mkState (toasts st) (toastId st) (delete k (timers st)))
      | None => st
      end
  end.

Inductive reachable : state -> Prop :=
| reachable_initial : reachable initial
| reachable_step st ev : reachable st -> reachable (step ev st).

Definition before (a b : toast) : Prop := id a < id b.

Definition invariant (st : state) : Prop :=
  StronglySorted before (toasts st)
  /\ Forall (fun t => 1 <= id t <= toastId st) (toasts st)
  /\ Forall (fun timer =>
               1 <= fst timer <= toastId st
               /\ (0 < snd timer)%Z
               /\ forall t, In t (toasts st) -> id t = fst timer ->
                            duration t = snd timer)
       (timers st)
  /\ Forall (fun t => (0 < duration t)%Z -> In (id t, duration t) (timers st))
       (toasts st).

(* The toasts other than the one with the given id. *)
Definition without (id' : N) (l : list toast) : list toast :=
  List.filter (fun t => negb (id t =? id')) l.

(* Two toasts shown, the first for 3000 ms, the second until closed. *)
Definition two : state :=
  step (Shown (Js.lit "kept") None (Some 0%Z))
    (step (Shown (Js.lit "saved") (Some (Js.lit "success")) None) initial).

End Toast.

(* --------------------------------------------------------------------- *)
(* The toast functions of the utility module                             *)
(* --------------------------------------------------------------------- *)

(* The object setToastInstance receives: the five methods, over whatever
   state S the object keeps. *)
Module ToastInstance.
Record t (S : Type) := mk {
  show : jsstring -> option jsstring -> option Z -> S -> N * S;
  success : jsstring -> option Z -> S -> N * S;
  error : jsstring -> option Z -> S -> N * S;
  warning : jsstring -> option Z -> S -> N * S;
  info : jsstring -> option Z -> S -> N * S }.
Arguments show {S} _ _ _ _ _.
Arguments success {S} _ _ _ _.
Arguments error {S} _ _ _ _.
Arguments warning {S} _ _ _ _.
Arguments info {S} _ _ _ _.
End ToastInstance.

Module ToastUtil.

(* The module variable `toastInstance`, the state of the instance, and
   what went to alert() and console.warn(). *)
Record world (S : Type) := mkWorld {
  toastInstance : option (ToastInstance.t S);
  held : S;
  alerts : list jsstring;
  warnings : nat }.
Arguments toastInstance {S} _.
Arguments held {S} _.
Arguments alerts {S} _.
Arguments warnings {S} _.

Definition setToastInstance {S} (i : option (ToastInstance.t S)) (w : world S)
    : world S :=
  mkWorld S i (held w) (alerts w) (warnings w).

(* console.warn(...); alert(message) -- the function then returns
   undefined. *)
Definition fallback {S} (message : jsstring) (w : world S)
    : option N * world S :=
  (None,
   mkWorld S (toastInstance w) (held w) (alerts w ++ [message])
     (Datatypes.S (warnings w))).

Definition delegate {S} (call : ToastInstance.t S -> S -> N * S)
    (message : jsstring) (w : world S) : option N * world S :=
  match toastInstance w with
  | Some i =>
      let '(id, s) := call i (held w) in
      (Some id, mkWorld S (toastInstance w) s (alerts w) (warnings w))
  | None => fallback message w
  end.

(* showToast(message, type = 'info', duration = 3000) *)
Definition showToast {S} (message : jsstring) (type : option jsstring)
    (duration : option Z) : world S -> option N * world S :=
  delegate
    (fun i =>
       ToastInstance.show i message (Some (default (Js.lit "info") type))
         (Some (default 3000%Z duration)))
    message.

(* success(message, duration = 3000) and the like *)
Definition success {S} (message : jsstring) (duration : option Z)
    : world S -> option N * world S :=
  delegate (fun i => ToastInstance.success i message (Some (default 3000%Z duration)))
    message.

Definition error {S} (message : jsstring) (duration : option Z)
    : world S -> option N * world S :=
  delegate (fun i => ToastInstance.error i message (Some (default 5000%Z duration)))
    message.

Definition warning {S} (message : jsstring) (duration : option Z)
    : world S -> option N * world S :=
  delegate (fun i => ToastInstance.warning i message (Some (default 4000%Z duration)))
    message.

Definition info {S} (message : jsstring) (duration : option Z)
    : world S -> option N * world S :=
  delegate (fun i => ToastInstance.info i message (Some (default 3000%Z duration)))
    message.

(* The toast component as the instance. *)
Definition component : ToastInstance.t Toast.state :=
  ToastInstance.mk Toast.state Toast.show Toast.success Toast.error Toast.warning
    Toast.info.

Definition mounted : world Toast.state :=
  mkWorld Toast.state (Some component) Toast.initial [] 0.

Definition unmounted : world Toast.state :=
  mkWorld Toast.state None Toast.initial [] 0.

End ToastUtil.

(* --------------------------------------------------------------------- *)
(* The global shortcuts of the utility module                            *)
(* --------------------------------------------------------------------- *)

Module Shortcut.

(* The options of registerShortcut and unregisterShortcut; a property
   that is missing (undefined) takes its default in the destructuring
     { ctrl = false, shift = false, alt = false, meta = false,
       preventDefault = true } = options *)
Record options := mkOptions {
  ctrl : option bool;
  shift : option bool;
  alt : option bool;
  meta : option bool;
  preventDefault : option bool }.

(* What a keyHandler closure holds: the key, the options with their
   defaults filled in, and the handler (a function value, by its
   identity). *)
Record binding := mkBinding {
  key : jsstring;
  withCtrl : bool;
  withShift : bool;
  withAlt : bool;
  withMeta : bool;
  prevents : bool;
  handler : N }.

Definition bind (key' : jsstring) (handler' : N) (o : options) : binding :=
  mkBinding key' (default false (ctrl o)) (default false (shift o))
    (default false (alt o)) (default false (meta o))
    (default true (preventDefault o)) handler'.

(* A keydown event, by what keyHandler reads of it. *)
Record keydown := mkKeydown {
  eventKey : jsstring;
  ctrlKey : bool;
  shiftKey : bool;
  altKey : bool;
  metaKey : bool }.

(* `${b}` for a boolean *)
Definition boolToString (b : bool) : jsstring :=
  if b then Js.lit "true" else Js.lit "false".

(* One more "-<boolean>" at the end of a key. *)
Definition tagged (x : jsstring) (b : bool) : jsstring :=
  x ++ Js.lit "-" ++ boolToString b.

(* `${key}-${ctrl}-${shift}-${alt}-${meta}` *)
Definition mapKey (key' : jsstring) (o : options) : jsstring :=
  key' ++ Js.lit "-" ++ boolToString (default false (ctrl o))
    ++ Js.lit "-" ++ boolToString (default false (shift o))
    ++ Js.lit "-" ++ boolToString (default false (alt o))
    ++ Js.lit "-" ++ boolToString (default false (meta o)).

(* A keyHandler: each call of registerShortcut makes a new function
   value, told from the others by its identity. *)
Record listener := mkListener { identity : nat; bound : binding }.

(* The Map `shortcuts` in insertion order, the keydown listeners of the
   document in the order they were added, and the number of keyHandler
   closures made so far. *)
Record state := mkState {
  shortcuts : list (jsstring * listener);
  listeners : list listener;
  made : nat }.

Definition initial : state := mkState [] [] 0.

(* Map.prototype.get / set / delete *)
Fixpoint mapGet (k : jsstring) (m : list (jsstring * listener))
    : option listener :=
  match m with
  | [] => None
  | (k', v) :: rest => if Js.eqb k' k then Some v else mapGet k rest
  end.

Fixpoint mapSet (k : jsstring) (v : listener)
    (m : list (jsstring * listener)) : list (jsstring * listener) :=
  match m with
  | [] => [(k, v)]
  | (k', v') :: rest =>
      if Js.eqb k' k then (k', v) :: rest else (k', v') :: mapSet k v rest
  end.

Fixpoint mapDelete (k : jsstring) (m : list (jsstring * listener))
    : list (jsstring * listener) :=
  match m with
  | [] => []
  | (k', v) :: rest =>
      if Js.eqb k' k then rest else (k', v) :: mapDelete k rest
  end.

(* document.addEventListener('keydown', f): a listener that is already
   there is not added again. *)
Definition addEventListener (f : listener) (ls : list listener)
    : list listener :=
  if existsb (fun l => Nat.eqb (identity l) (identity f)) ls then ls
  else ls ++ [f].

(* document.removeEventListener('keydown', f) *)
Definition removeEventListener (f : listener) (ls : list listener)
    : list listener :=
  List.filter (fun l => negb (Nat.eqb (identity l) (identity f))) ls.

(* The function registerShortcut returns: it holds its keyHandler and
   its key of the map. *)
Record disposer := mkDisposer { disposed : listener; disposedKey : jsstring }.

Definition registerShortcut (key' : jsstring) (handler' : N) (o : options)
    (st : state) : disposer * state :=
  let keyHandler := mkListener (made st) (bind key' handler' o) in
  (mkDisposer keyHandler (mapKey key' o),
   mkState (mapSet (mapKey key' o) keyHandler (shortcuts st))
     (addEventListener keyHandler (listeners st))
     (S (made st))).

Definition dispose (d : disposer) (st : state) : state :=
  mkState (mapDelete (disposedKey d) (shortcuts st))
    (removeEventListener (disposed d) (listeners st))
    (made st).

Definition unregisterShortcut (key' : jsstring) (o : options) (st : state)
    : state :=
  match mapGet (mapKey key' o) (shortcuts st) with
  | Some keyHandler =>
      mkState (mapDelete (mapKey key' o) (shortcuts st))
        (removeEventListener keyHandler (listeners st))
        (made st)
  | None => st
  end.

(* shortcuts.forEach(handler => document.removeEventListener(...));
   shortcuts.clear() *)
Definition unregisterAllShortcuts (st : state) : state :=
  mkState []
    (fold_left (fun ls entry => removeEventListener (snd entry) ls)
       (shortcuts st) (listeners st))
    (made st).

Section Matching.

(* String.prototype.toLowerCase, left open: the properties hold of any
   function in its place. *)
Context (toLowerCase : jsstring -> jsstring).

(* The condition of keyHandler. *)
Definition matches (b : binding) (event : keydown) : bool :=
  let ctrlPressed := ctrlKey event || metaKey event in
  let shiftPressed := shiftKey event in
  let altPressed := altKey event in
  let metaPressed := metaKey event in
  Bool.eqb (withCtrl b) ctrlPressed
  && Bool.eqb (withShift b) shiftPressed
  && Bool.eqb (withAlt b) altPressed
  && (Bool.eqb (withMeta b) metaPressed
      || (negb (withMeta b) && negb metaPressed))
  && Js.eqb (toLowerCase (eventKey event)) (toLowerCase (key b)).

(* The handlers a keydown event calls, in the order of the listeners
   (a handler is taken not to touch the shortcuts itself). *)
Definition fired (event : keydown) (st : state) : list N :=
  map (fun l => handler (bound l))
    (List.filter (fun l => matches (bound l) event) (listeners st)).

(* Whether event.preventDefault() is called. *)
Definition defaultPrevented (event : keydown) (st : state) : bool :=
  existsb (fun l => matches (bound l) event && prevents (bound l))
    (listeners st).

End Matching.

(* The states the module can be in, with the disposers handed out. *)
Inductive reachable : state -> list disposer -> Prop :=
| reachable_initial : reachable initial []
| reachable_register st ds key' handler' o :
    reachable st ds ->
    reachable (snd (registerShortcut key' handler' o st))
      (ds ++ [fst (registerShortcut key' handler' o st)])
| reachable_dispose st ds d :
    reachable st ds -> In d ds -> reachable (dispose d st) ds
| reachable_unregister st ds key' o :
    reachable st ds -> reachable (unregisterShortcut key' o st) ds
| reachable_unregisterAll st ds :
    reachable st ds -> reachable (unregisterAllShortcuts st) ds.

(* Every keyHandler there is was made before. *)
Definition invariant (st : state) : Prop :=
  Forall (fun l => (identity l < made st)%nat) (listeners st)
  /\ Forall (fun entry => (identity (snd entry) < made st)%nat) (shortcuts st).

(* Ctrl+S bound to handler 7, registered twice. *)
Definition ctrlS : options := mkOptions (Some true) None None None None.

Definition twice : state :=
  snd (registerShortcut (Js.lit "s") 8 ctrlS
         (snd (registerShortcut (Js.lit "s") 7 ctrlS initial))).

Definition pressCtrlS : keydown := mkKeydown (Js.lit "S") true false false false.

Definition pressCmdS : keydown := mkKeydown (Js.lit "s") false false false true.

End Shortcut.


(* ===================================================================== *)
(* Properties                                                            *)
(* ===================================================================== *)

(* The string operations on sample inputs. *)
Example lit_warning : Js.lit "警告:" = [0x8B66; 0x544A; 0x3A].
Proof. reflexivity. Qed.

Example trim_ex : Js.trim (Js.lit "  /tmp ") = Js.lit "/tmp".
Proof. reflexivity. Qed.

Example split_ex :
  Js.split (Js.lit "a" ++ [10] ++ Js.lit "b" ++ [10]) 10
  = [Js.lit "a"; Js.lit "b"; []].
Proof. reflexivity. Qed.

Example replace_ex :
  Js.replace (Js.lit "/home/u/proj") (Js.lit "/home/u") (Js.lit "~")
  = Js.lit "~/proj".
Proof. reflexivity. Qed.

Example parseInt_ex :
  Js.parseInt (Js.lit " 0x1f") = Some 31%Z
  /\ Js.parseInt (Js.lit "-12abc") = Some (-12)%Z
  /\ Js.parseInt (Js.lit "x") = None.
Proof. repeat apply conj; reflexivity. Qed.

Example numberToString_ex : Js.numberToString 22 = Js.lit "22".
Proof. reflexivity. Qed.

(* --------------------------------------------------------------------- *)
(* Strings                                                               *)
(* --------------------------------------------------------------------- *)

Module JsFacts.

Lemma eqb_eq (a b : jsstring) : Js.eqb a b = true <-> a = b.
Proof.
  revert b; induction a as [|x a IH]; intros [|y b]; simpl;
    try (split; [discriminate | discriminate]); try tauto.
  rewrite andb_true_iff, N.eqb_eq, IH.
  split; [intros [-> ->]; reflexivity | intros [= -> ->]; auto].
Qed.

Lemma eqb_refl (a : jsstring) : Js.eqb a a = true.
Proof. apply eqb_eq; reflexivity. Qed.

Lemma eqb_neq (a b : jsstring) : Js.eqb a b = false <-> a <> b.
Proof.
  rewrite <- eqb_eq. destruct (Js.eqb a b); split; congruence.
Qed.

Lemma startsWith_iff (s p : jsstring) :
  Js.startsWith s p = true <-> exists r, s = p ++ r.
Proof.
  revert s; induction p as [|x p IH]; intros s; simpl.
  - split; [intros _; exists s; reflexivity | reflexivity].
  - destruct s as [|y s]; simpl.
    + split; [discriminate | intros [r [=]]].
    + rewrite andb_true_iff, N.eqb_eq, IH. split.
      * intros [-> [r ->]]; eauto.
      * intros [r [= -> ->]]; eauto.
Qed.

Lemma startsWith_app (p r : jsstring) : Js.startsWith (p ++ r) p = true.
Proof. apply startsWith_iff; eauto. Qed.

Lemma replace_prefix (p r rep : jsstring) :
  Js.replace (p ++ r) p rep = rep ++ r.
Proof.
  destruct (p ++ r) as [|c s] eqn:E; simpl; rewrite <- E;
    rewrite startsWith_app, drop_app_length; reflexivity.
Qed.

Lemma trimStart_noLead (s : jsstring) : Js.noLead (Js.trimStart s).
Proof.
  induction s as [|c s IH]; simpl; [exact I|].
  destruct (Js.isWhiteSpace c) eqn:E; [exact IH | exact E].
Qed.

Lemma trimStart_id (s : jsstring) : Js.noLead s -> Js.trimStart s = s.
Proof. destruct s as [|c s]; simpl; [reflexivity | intros ->; reflexivity]. Qed.

Lemma trimStart_split (s : jsstring) :
  exists w, s = w ++ Js.trimStart s /\ forallb Js.isWhiteSpace w = true.
Proof.
  induction s as [|c s [w [E W]]]; simpl.
  - exists []; auto.
  - destruct (Js.isWhiteSpace c) eqn:Ec.
    + exists (c :: w); simpl; rewrite Ec, W; split; [congruence | reflexivity].
    + exists []; auto.
Qed.

Lemma trimEnd_split (s : jsstring) :
  exists w, s = Js.trimEnd s ++ w /\ forallb Js.isWhiteSpace w = true.
Proof.
  unfold Js.trimEnd. destruct (trimStart_split (rev s)) as [w [E W]].
  exists (rev w). split.
  - rewrite <- rev_app_distr, <- E, rev_involutive; reflexivity.
  - rewrite forallb_forall in *. intros x Hx. apply W, in_rev, Hx.
Qed.

Lemma trimEnd_noLead (s : jsstring) : Js.noLead s -> Js.noLead (Js.trimEnd s).
Proof.
  intros H. destruct (trimEnd_split s) as [w [E _]].
  destruct (Js.trimEnd s) as [|c r]; [exact I|].
  rewrite E in H; exact H.
Qed.

Lemma trimEnd_noTrail (s : jsstring) : Js.noLead (rev (Js.trimEnd s)).
Proof. unfold Js.trimEnd. rewrite rev_involutive. apply trimStart_noLead. Qed.

Lemma trim_noLead (s : jsstring) : Js.noLead (Js.trim s).
Proof. apply trimEnd_noLead, trimStart_noLead. Qed.

Lemma trim_fixed (s : jsstring) :
  Js.noLead s -> Js.noLead (rev s) -> Js.trim s = s.
Proof.
  intros H1 H2. unfold Js.trim, Js.trimEnd.
  rewrite (trimStart_id s H1), (trimStart_id _ H2). apply rev_involutive.
Qed.

Lemma trim_idem (s : jsstring) : Js.trim (Js.trim s) = Js.trim s.
Proof. apply trim_fixed; [apply trim_noLead | apply trimEnd_noTrail]. Qed.

Lemma trimStart_blank (s : jsstring) :
  Js.trimStart s = [] <-> Js.blank s = true.
Proof.
  induction s as [|c s IH]; simpl; [tauto|].
  destruct (Js.isWhiteSpace c); simpl; [exact IH | split; discriminate].
Qed.

Lemma blank_app (a b : jsstring) : Js.blank (a ++ b) = Js.blank a && Js.blank b.
Proof. apply forallb_app. Qed.

Lemma trim_blank (s : jsstring) : Js.trim s = [] <-> Js.blank s = true.
Proof.
  unfold Js.trim. destruct (trimStart_split s) as [w [E W]].
  destruct (trimEnd_split (Js.trimStart s)) as [w' [E' W']].
  split.
  - intros H. rewrite H in E'; simpl in E'.
    rewrite E, E', blank_app. unfold Js.blank. rewrite W, W'; reflexivity.
  - intros H. apply trimStart_blank in H. rewrite H. reflexivity.
Qed.

Lemma trim_not_blank (s : jsstring) :
  Js.trim s <> [] -> Js.blank (Js.trim s) = false.
Proof.
  intros H. destruct (Js.blank (Js.trim s)) eqn:E; [|reflexivity].
  apply trim_blank in E. rewrite trim_idem in E. contradiction.
Qed.

Lemma truthy_iff (s : jsstring) : Js.truthy s = true <-> s <> [].
Proof. destruct s; simpl; split; congruence. Qed.

Lemma or_truthy (a b : jsstring) : a <> [] -> Js.or a b = a.
Proof. destruct a; simpl; congruence. Qed.

End JsFacts.

(* --------------------------------------------------------------------- *)
(* Handlers, step by step                                                *)
(* --------------------------------------------------------------------- *)

Ltac unfold_m :=
  unfold try_catch, bind, when, emit_record, perform, await;
  unfold get, modify, ret, raise; cbv beta iota.

Lemma forEach_push {A} (g : A -> Line.t) (arr : list A) (st : State) :
  forEach arr (fun x => push_line (g x)) st
  = (Ok tt, set_outputLines (outputLines st ++ map g arr) st).
Proof.
  revert st; induction arr as [|x arr IH]; intros st; simpl.
  - unfold ret. rewrite app_nil_r. destruct st; reflexivity.
  - unfold bind, push_line at 1, modify. rewrite IH.
    destruct st; unfold set_outputLines; simpl.
    rewrite <- app_assoc; reflexivity.
Qed.

(* The lines of the three result shapes. *)
Lemma exit_code_not_a_property (r : ExecResult.t) :
  prop (ExecResult.properties r) "exit_code" = JUndefined.
Proof.
  unfold prop, ExecResult.properties, ExecResult.optional.
  destruct (ExecResult.interactiveMessage r), (ExecResult.newDir r);
    simplify_map_eq; reflexivity.
Qed.

Lemma exitCode_property (r : ExecResult.t) :
  prop (ExecResult.properties r) "exitCode" = JNumber (ExecResult.exitCode r).
Proof.
  unfold prop, ExecResult.properties, ExecResult.optional.
  destruct (ExecResult.interactiveMessage r), (ExecResult.newDir r);
    simplify_map_eq; reflexivity.
Qed.

Section Dispatch.

Context (api : Api) (props : Props.t).

Lemma updateCurrentDirFromPath_run (fullPath : jsstring) (st : State) :
  updateCurrentDirFromPath fullPath st
  = (Ok tt,
     let info :=
       PromptInfo.mk (PromptInfo.username (promptInfo st))
         (PromptInfo.hostname (promptInfo st))
         (PromptInfo.isRoot (promptInfo st))
         (normalize fullPath (PromptInfo.username (promptInfo st))
            (PromptInfo.isRoot (promptInfo st))) in
     mkState (outputLines st) (currentInput st) (renderPrompt info)
       (commandHistory st) (historyIndex st) info (Js.trim fullPath)
       (effects st)).
Proof. reflexivity. Qed.

Lemma executeCommand_interactive (command : jsstring) (st : State)
    (r : ExecResult.t) :
  executeSshCommand api (dispatchParams props st command) = Ok r ->
  interactiveSignal r = true ->
  executeCommand api props command st
  = (Ok tt,
     mkState
       (outputLines st
          ++ map (fun line =>
                    Line.mk (if Js.startsWith line (Js.lit "警告:")
                             then Line.Error else Line.Output) line [])
               (ExecResult.outputLines r))
       (currentInput st) (currentPrompt st) (commandHistory st)
       (historyIndex st) (promptInfo st) (currentWorkingDir st)
       (effects st ++ [CallExecute (dispatchParams props st command)])).
Proof.
  intros Hcall Hsig.
  unfold executeCommand, callExecute. unfold_m.
  rewrite Hcall. cbv beta iota. rewrite Hsig, forEach_push. reflexivity.
Qed.

Lemma executeCommand_newDir (command : jsstring) (st : State)
    (r : ExecResult.t) :
  executeSshCommand api (dispatchParams props st command) = Ok r ->
  interactiveSignal r = false ->
  directoryChangeSignal r = true ->
  executeCommand api props command st
  = (Ok tt,
     let newDir := default [] (ExecResult.newDir r) in
     let info :=
       PromptInfo.mk (PromptInfo.username (promptInfo st))
         (PromptInfo.hostname (promptInfo st))
         (PromptInfo.isRoot (promptInfo st))
         (normalize newDir (PromptInfo.username (promptInfo st))
            (PromptInfo.isRoot (promptInfo st))) in
     mkState (outputLines st ++ [Line.mk Line.Output [] []])
       (currentInput st) (renderPrompt info) (commandHistory st)
       (historyIndex st) info (Js.trim newDir)
       (effects st ++ [CallExecute (dispatchParams props st command)])).
Proof.
  intros Hcall Hint Hdir.
  unfold executeCommand, callExecute. unfold_m.
  rewrite Hcall. cbv beta iota. rewrite Hint, Hdir. reflexivity.
Qed.

Lemma executeCommand_normal (command : jsstring) (st : State)
    (r : ExecResult.t) :
  executeSshCommand api (dispatchParams props st command) = Ok r ->
  interactiveSignal r = false ->
  directoryChangeSignal r = false ->
  executeCommand api props command st
  = (Ok tt,
     mkState
       (outputLines st
          ++ map (fun line => Line.mk Line.Error line [])
               (ExecResult.outputLines r))
       (currentInput st) (currentPrompt st) (commandHistory st)
       (historyIndex st) (promptInfo st) (currentWorkingDir st)
       (effects st ++ [CallExecute (dispatchParams props st command)]
          ++ (if Props.isRecording props
              then [Emit RecOutput (ExecResult.output r)] else []))).
Proof.
  intros Hcall Hint Hdir.
  unfold executeCommand, callExecute. unfold_m.
  rewrite Hcall. cbv beta iota. rewrite Hint, Hdir.
  destruct (Props.isRecording props); cbv beta iota; rewrite forEach_push; simpl;
    rewrite ?app_nil_r, <- ?app_assoc;
    (erewrite map_ext; [reflexivity|]); intros line;
    rewrite exit_code_not_a_property; reflexivity.
Qed.

Lemma executeCommand_failure (command : jsstring) (st : State)
    (e : thrown) :
  executeSshCommand api (dispatchParams props st command) = Throw e ->
  executeCommand api props command st
  = (Ok tt,
     mkState
       (outputLines st
          ++ map (fun line =>
                    Line.mk Line.Error
                      (if Js.truthy line
                       then serverName (Some (Props.server props))
                              ++ Js.lit ": " ++ line
                       else [])
                      [])
               (Js.split (dispatchErrorMessage e) 10))
       (currentInput st) (currentPrompt st) (commandHistory st)
       (historyIndex st) (promptInfo st) (currentWorkingDir st)
       (effects st ++ [CallExecute (dispatchParams props st command)])).
Proof.
  intros Hcall.
  unfold executeCommand, callExecute. unfold_m.
  rewrite Hcall. cbv beta iota. rewrite forEach_push. reflexivity.
Qed.

End Dispatch.

(* --------------------------------------------------------------------- *)
(* Responses of the execution service                                    *)
(* --------------------------------------------------------------------- *)

(** C1 (the code departs from the claim).  A normal result whose exitCode
    is zero should have its lines appended as Output lines.  The handler
    reads the property `exit_code`, which a result of the declared shape
    {output, exitCode, ...} does not have, so `result.exit_code === 0` is
    false: the line of a successful `echo ok` is appended as an Error
    line. *)
Theorem zero_exitCode_rendered_as_error :
  ExecResult.exitCode Sample.echoOk = 0%Z
  /\ interactiveSignal Sample.echoOk = false
  /\ directoryChangeSignal Sample.echoOk = false
  /\ prop (ExecResult.properties Sample.echoOk) "exit_code" = JUndefined
  /\ outputLines
       (run (executeCommand Sample.echoing Sample.props (Js.lit "echo ok"))
          initial)
     = outputLines initial ++ [Line.mk Line.Error (Js.lit "ok") []]
  /\ Spec.resultLine (ExecResult.exitCode Sample.echoOk) (Js.lit "ok")
     = Line.mk Line.Output (Js.lit "ok") [].
Proof. repeat split; reflexivity. Qed.

(* Whatever its exitCode, a normal result is displayed in Error lines. *)
Lemma normal_result_always_error api props command st r :
  executeSshCommand api (dispatchParams props st command) = Ok r ->
  interactiveSignal r = false ->
  directoryChangeSignal r = false ->
  outputLines (run (executeCommand api props command) st)
  = outputLines st
      ++ map (fun line => Line.mk Line.Error line []) (ExecResult.outputLines r).
Proof.
  intros H1 H2 H3. unfold run.
  rewrite (executeCommand_normal api props command st r H1 H2 H3).
  reflexivity.
Qed.

(** C2.  For a result carrying a directory-change signal (newDir present,
    that is a non-empty string as the source tests it, and no interactive
    signal), the handler sets the tracked full directory and the displayed
    directory from newDir, re-renders the prompt, and appends one blank
    Output line and nothing else: no element of result.outputLines is
    displayed. *)
Theorem directory_change_response api props command st r d :
  executeSshCommand api (dispatchParams props st command) = Ok r ->
  interactiveSignal r = false ->
  ExecResult.newDir r = Some d ->
  d <> [] ->
  let st' := run (executeCommand api props command) st in
  fst (executeCommand api props command st) = Ok tt
  /\ currentWorkingDir st' = Js.trim d
  /\ PromptInfo.currentDir (promptInfo st')
     = normalize d (PromptInfo.username (promptInfo st))
         (PromptInfo.isRoot (promptInfo st))
  /\ currentPrompt st' = renderPrompt (promptInfo st')
  /\ outputLines st' = outputLines st ++ [Line.mk Line.Output [] []].
Proof.
  intros Hcall Hint Hd Hne st'.
  assert (Hsig : directoryChangeSignal r = true).
  { unfold directoryChangeSignal. rewrite Hd. apply JsFacts.truthy_iff, Hne. }
  subst st'. unfold run.
  rewrite (executeCommand_newDir api props command st r Hcall Hint Hsig).
  rewrite Hd. repeat split; reflexivity.
Qed.

Lemma directory_change_response_witness :
  currentWorkingDir
    (run (executeCommand Sample.changingDir Sample.props (Js.lit "cd /tmp"))
       initial)
  = Js.lit "/tmp"
  /\ PromptInfo.currentDir
       (promptInfo
          (run (executeCommand Sample.changingDir Sample.props
                  (Js.lit "cd /tmp")) initial))
     = Js.lit "/tmp"
  /\ outputLines
       (run (executeCommand Sample.changingDir Sample.props
               (Js.lit "cd /tmp")) initial)
     = outputLines initial ++ [Line.mk Line.Output [] []].
Proof.
  destruct (directory_change_response Sample.changingDir Sample.props
              (Js.lit "cd /tmp") initial Sample.cdTmp (Js.lit "/tmp"))
    as (_ & H1 & H2 & _ & H3);
    [reflexivity | reflexivity | reflexivity | discriminate |].
  split; [exact H1 | split; [exact H2 | exact H3]].
Defined.

(** C8.  For a result carrying an interactive-command signal (isInteractive
    true and interactiveMessage a non-empty string), the tracked full
    directory, the prompt information (so the displayed directory) and the
    prompt are left as they were, each element of outputLines is appended
    as an Error line when it starts with the warning marker and as an
    Output line otherwise, and the only effect is the call itself: no
    recording event is emitted. *)
Theorem interactive_response_frame api props command st r :
  executeSshCommand api (dispatchParams props st command) = Ok r ->
  ExecResult.isInteractive r = true ->
  Js.truthy_opt (ExecResult.interactiveMessage r) = true ->
  let st' := run (executeCommand api props command) st in
  currentWorkingDir st' = currentWorkingDir st
  /\ promptInfo st' = promptInfo st
  /\ currentPrompt st' = currentPrompt st
  /\ outputLines st'
     = outputLines st ++ map Spec.interactiveLine (ExecResult.outputLines r)
  /\ effects st'
     = effects st ++ [CallExecute (dispatchParams props st command)].
Proof.
  intros Hcall Hi Hm st'.
  assert (Hsig : interactiveSignal r = true).
  { unfold interactiveSignal. rewrite Hi, Hm. reflexivity. }
  subst st'. unfold run.
  rewrite (executeCommand_interactive api props command st r Hcall Hsig).
  repeat split; reflexivity.
Qed.

Lemma interactive_response_frame_witness :
  currentWorkingDir
    (run (executeCommand Sample.refusingVim Sample.props (Js.lit "vim"))
       initial)
  = currentWorkingDir initial
  /\ promptInfo
       (run (executeCommand Sample.refusingVim Sample.props (Js.lit "vim"))
          initial)
     = promptInfo initial
  /\ outputLines
       (run (executeCommand Sample.refusingVim Sample.props (Js.lit "vim"))
          initial)
     = outputLines initial
         ++ [Line.mk Line.Error (Js.lit "警告: vim") [];
             Line.mk Line.Output (Js.lit "use the editor") []].
Proof.
  destruct (interactive_response_frame Sample.refusingVim Sample.props
              (Js.lit "vim") initial Sample.interactiveVim)
    as (H1 & H2 & _ & H3 & _); [reflexivity | reflexivity | reflexivity |].
  split; [exact H1 | split; [exact H2 | exact H3]].
Defined.

(* The message of the handler is the one the specification describes. *)
Lemma dispatchErrorMessage_spec (e : thrown) :
  dispatchErrorMessage e = Spec.errorMessage e.
Proof.
  destruct e as [s | [] [[|c m]|] t]; reflexivity.
Qed.

Lemma serverName_spec (s : Server.t) :
  serverName (Some s) = Spec.displayName s.
Proof.
  unfold serverName, Spec.displayName.
  destruct (Server.name s) as [[|c n]|]; reflexivity.
Qed.

(** C5.  When the execution service throws during dispatch, the handler
    does not throw; the message is the thrown object's message when it has
    one, else the thrown value itself when it is a string, else the
    generic message; it is split on newline and one Error line per segment
    is appended, a non-empty segment prefixed with the display name of the
    session (name, else host:port) and ": ", an empty segment as a blank
    line.  An error with message "timeout" on the session named "prod-1"
    gives exactly one Error line, "prod-1: timeout". *)
Theorem execution_failure_lines api props command st e :
  executeSshCommand api (dispatchParams props st command) = Throw e ->
  let st' := run (executeCommand api props command) st in
  fst (executeCommand api props command st) = Ok tt
  /\ outputLines st'
     = outputLines st
         ++ Spec.errorLines (Spec.displayName (Props.server props))
              (Spec.errorMessage e)
  /\ (Server.name (Props.server props) = Some (Js.lit "prod-1") ->
      (exists b t, e = ThrownValue b (Some (Js.lit "timeout")) t) ->
      outputLines st'
      = outputLines st
          ++ [Line.mk Line.Error (Js.lit "prod-1: timeout") []]).
Proof.
  intros Hcall st'.
  assert (Hlines :
    outputLines st'
    = outputLines st
        ++ Spec.errorLines (Spec.displayName (Props.server props))
             (Spec.errorMessage e)).
  { subst st'. unfold run.
    rewrite (executeCommand_failure api props command st e Hcall).
    cbn [snd outputLines]. f_equal.
    rewrite dispatchErrorMessage_spec, serverName_spec.
    apply map_ext. intros [|c seg]; reflexivity. }
  split; [|split].
  - rewrite (executeCommand_failure api props command st e Hcall). reflexivity.
  - exact Hlines.
  - intros Hname (b & t & ->). rewrite Hlines.
    unfold Spec.displayName. rewrite Hname. reflexivity.
Qed.

Lemma execution_failure_lines_witness :
  executeSshCommand Sample.timingOut
    (dispatchParams Sample.props initial (Js.lit "ls"))
  = Throw Sample.timeout
  /\ outputLines
       (run (executeCommand Sample.timingOut Sample.props (Js.lit "ls"))
          initial)
     = outputLines initial
         ++ [Line.mk Line.Error (Js.lit "prod-1: timeout") []].
Proof.
  split; [reflexivity|].
  apply (execution_failure_lines Sample.timingOut Sample.props (Js.lit "ls")
           initial Sample.timeout); [reflexivity | reflexivity |].
  exists true, (Some (Js.lit "Error: timeout")). reflexivity.
Defined.

(* --------------------------------------------------------------------- *)
(* Directory display and prompt                                          *)
(* --------------------------------------------------------------------- *)

Lemma normalize_trimmed (p u : jsstring) (root : bool) :
  normalize p u root = normalize (Js.trim p) u root.
Proof. unfold normalize. rewrite JsFacts.trim_idem. reflexivity. Qed.

Lemma normalize_root (p u : jsstring) :
  normalize p u true = Js.or (Js.trim p) (Js.lit "~").
Proof.
  unfold normalize.
  destruct (Js.eqb _ (Js.lit "/root")) eqn:E.
  - apply JsFacts.eqb_eq in E. rewrite E. reflexivity.
  - destruct (Js.startsWith _ _); reflexivity.
Qed.

(** C4 (counterexample).  For a root user the display form is not always
    the path it was given: surrounding white space is trimmed off, and the
    empty path is displayed as "~". *)
Lemma normalize_root_not_identity :
  normalize (Js.lit " /srv") (Js.lit "u") true <> Js.lit " /srv"
  /\ normalize [] (Js.lit "u") true <> [].
Proof. split; discriminate. Qed.

(** C4 (amended).  normalize is a total function of the trimmed path
    t = p.trim(): a blank p gives "~" whether root or not; for root a
    non-blank p gives t, "/root" included; for a non-root user "/home/u"
    gives "~", a t that starts with "/home/u/" gives "~" followed by what
    comes after "/home/u", and any other non-blank t is returned as it
    is. *)
Theorem normalize_cases (p u : jsstring) :
  let t := Js.trim p in
  let home := Js.lit "/home/" ++ u in
  (t = [] -> forall root, normalize p u root = Js.lit "~")
  /\ (t <> [] -> normalize p u true = t)
  /\ normalize (Js.lit "/root") u true = Js.lit "/root"
  /\ (t = home -> normalize p u false = Js.lit "~")
  /\ (forall rest, t = home ++ Js.lit "/" ++ rest ->
      normalize p u false = Js.lit "~" ++ Js.lit "/" ++ rest)
  /\ (t <> [] -> t <> home -> Js.startsWith t (home ++ Js.lit "/") = false ->
      normalize p u false = t).
Proof.
  intros t home. repeat apply conj.
  - intros Ht [|].
    + rewrite normalize_root. fold t. rewrite Ht. reflexivity.
    + unfold normalize. fold t. rewrite Ht. reflexivity.
  - intros Ht. rewrite normalize_root. apply JsFacts.or_truthy, Ht.
  - reflexivity.
  - intros Ht. unfold normalize. fold t. rewrite Ht.
    replace (Js.or home (Js.lit "~")) with home by reflexivity.
    fold home. rewrite JsFacts.eqb_refl. reflexivity.
  - intros rest Ht. unfold normalize. fold t. fold home.
    assert (Hne : t <> []) by (rewrite Ht; discriminate).
    rewrite (JsFacts.or_truthy _ _ Hne).
    assert (Hneq : Js.eqb t home = false).
    { apply JsFacts.eqb_neq. rewrite Ht. intros H.
      apply (f_equal length) in H. rewrite !length_app in H.
      simpl in H. lia. }
    rewrite Hneq.
    replace (Js.lit "/home/" ++ u ++ Js.lit "/") with (home ++ Js.lit "/")
      by (unfold home; rewrite <- app_assoc; reflexivity).
    rewrite Ht at 1. rewrite (app_assoc home), JsFacts.startsWith_app.
    rewrite Ht. apply JsFacts.replace_prefix.
  - intros Hne Hhome Hpre. unfold normalize. fold t. fold home.
    rewrite (JsFacts.or_truthy _ _ Hne).
    apply JsFacts.eqb_neq in Hhome. rewrite Hhome.
    replace (Js.lit "/home/" ++ u ++ Js.lit "/") with (home ++ Js.lit "/")
      by (unfold home; rewrite <- app_assoc; reflexivity).
    rewrite Hpre. reflexivity.
Qed.

Lemma normalize_cases_witness :
  Js.trim (Js.lit " /home/u/proj ")
  = (Js.lit "/home/" ++ Js.lit "u") ++ Js.lit "/" ++ Js.lit "proj"
  /\ normalize (Js.lit " /home/u/proj ") (Js.lit "u") false = Js.lit "~/proj".
Proof.
  split; [reflexivity|].
  apply (normalize_cases (Js.lit " /home/u/proj ") (Js.lit "u")).
  reflexivity.
Defined.

(** C3 (counterexample).  For a blank path the tracked full directory
    becomes the empty string, not "~". *)
Lemma updateLocation_blank_tracks_empty :
  currentWorkingDir (run (updateCurrentDirFromPath (Js.lit "  ")) initial) = []
  /\ currentWorkingDir (run (updateCurrentDirFromPath (Js.lit "  ")) initial)
     <> Js.lit "~"
  /\ currentWorkingDir (run (updateCurrentDirFromPath []) initial) <> Js.lit "~".
Proof. repeat apply conj; [reflexivity | discriminate | discriminate]. Qed.

(** C3 (amended).  updateCurrentDirFromPath(fullPath) sets the tracked
    full directory to fullPath.trim(), the empty string for a blank
    fullPath (a later dispatch sends "~" in place of an empty tracked
    directory); it sets the displayed directory to the normalized path and
    re-renders the prompt as username@hostname:displayDir followed by "#"
    for root and "$" otherwise, and a space. *)
Theorem updateLocation_effect (fullPath : jsstring) (st : State) :
  let st' := run (updateCurrentDirFromPath fullPath) st in
  let info := promptInfo st in
  let displayDir :=
    normalize fullPath (PromptInfo.username info) (PromptInfo.isRoot info) in
  currentWorkingDir st' = Js.trim fullPath
  /\ (forall props command,
        ExecParams.currentDir (dispatchParams props st' command)
        = Some (Js.or (Js.trim fullPath) (Js.lit "~")))
  /\ promptInfo st'
     = PromptInfo.mk (PromptInfo.username info) (PromptInfo.hostname info)
         (PromptInfo.isRoot info) displayDir
  /\ currentPrompt st'
     = PromptInfo.username info ++ Js.lit "@" ++ PromptInfo.hostname info
         ++ Js.lit ":" ++ displayDir
         ++ (if PromptInfo.isRoot info then Js.lit "#" else Js.lit "$")
         ++ Js.lit " ".
Proof. repeat apply conj; reflexivity. Qed.

(* --------------------------------------------------------------------- *)
(* Tab completion                                                        *)
(* --------------------------------------------------------------------- *)

Section Completing.

Context (api : Api) (props : Props.t).

Lemma handleTabComplete_empty (st : State) :
  Js.trim (currentInput st) = [] ->
  handleTabComplete api props st = (Ok tt, st).
Proof.
  intros H. unfold handleTabComplete. unfold_m. rewrite H. reflexivity.
Qed.

Lemma handleTabComplete_result (st : State) (r : Completion.t) :
  Js.trim (currentInput st) <> [] ->
  completeCommand api
    (completionParams props st (Js.trim (currentInput st))) = Ok r ->
  handleTabComplete api props st
  = (Ok tt,
     let st1 :=
       set_effects
         (effects st
            ++ [CallComplete
                  (completionParams props st (Js.trim (currentInput st)))])
         st in
     if Js.truthy_opt (Completion.completedInput r) then
       set_currentInput (default [] (Completion.completedInput r)) st1
     else if Completion.shouldShowMatches r
             && (0 <? length (Completion.matches r))%nat
     then
       set_outputLines
         (outputLines st
            ++ [Line.mk Line.Output
                  (Js.join (Completion.matches r) (Js.lit "  ")) []])
         st1
     else st1).
Proof.
  intros Hin Hcall. apply JsFacts.truthy_iff in Hin.
  unfold handleTabComplete, callComplete. unfold_m.
  rewrite Hin. cbn [negb]. rewrite Hcall. cbv beta iota.
  destruct (Js.truthy_opt (Completion.completedInput r)); [reflexivity|].
  destruct (Completion.shouldShowMatches r && _); reflexivity.
Qed.

Lemma handleTabComplete_failure (st : State) (e : thrown) :
  Js.trim (currentInput st) <> [] ->
  completeCommand api
    (completionParams props st (Js.trim (currentInput st))) = Throw e ->
  handleTabComplete api props st
  = (Ok tt,
     set_effects
       (effects st
          ++ [CallComplete
                (completionParams props st (Js.trim (currentInput st)))])
       st).
Proof.
  intros Hin Hcall. apply JsFacts.truthy_iff in Hin.
  unfold handleTabComplete, callComplete. unfold_m.
  rewrite Hin. cbn [negb]. rewrite Hcall. reflexivity.
Qed.

End Completing.

(** C6.  A completion request on an input that is empty once trimmed makes
    no call and changes nothing.  Otherwise, for the result of the call:
    when completedInput is present (a non-empty string, as the source
    tests it) the edit buffer becomes completedInput and no line is
    appended, whatever matches holds; otherwise, when shouldShowMatches
    holds and matches is not empty, exactly one Output line, the matches
    joined by two spaces, is appended and the edit buffer is kept;
    otherwise neither the buffer nor the lines change. *)
Theorem completion_precedence api props (st : State) :
  let input := Js.trim (currentInput st) in
  let st' := run (handleTabComplete api props) st in
  (input = [] -> st' = st)
  /\ (input <> [] ->
      forall r,
        completeCommand api (completionParams props st input) = Ok r ->
        (forall c, Completion.completedInput r = Some c -> c <> [] ->
           currentInput st' = c /\ outputLines st' = outputLines st)
        /\ (Js.truthy_opt (Completion.completedInput r) = false ->
            Completion.shouldShowMatches r = true ->
            Completion.matches r <> [] ->
            currentInput st' = currentInput st
            /\ outputLines st'
               = outputLines st
                   ++ [Line.mk Line.Output
                         (Js.join (Completion.matches r) (Js.lit "  ")) []])
        /\ (Js.truthy_opt (Completion.completedInput r) = false ->
            Completion.shouldShowMatches r = false
            \/ Completion.matches r = [] ->
            currentInput st' = currentInput st
            /\ outputLines st' = outputLines st)).
Proof.
  intros input st'. split.
  - intros H. subst st'. unfold run.
    rewrite (handleTabComplete_empty api props st H). reflexivity.
  - intros Hin r Hcall. subst st'. unfold run.
    rewrite (handleTabComplete_result api props st r Hin Hcall).
    cbn [snd]. repeat apply conj.
    + intros c Hc Hne. rewrite Hc. cbn [Js.truthy_opt].
      apply JsFacts.truthy_iff in Hne. rewrite Hne. split; reflexivity.
    + intros Hc Hs Hm. rewrite Hc, Hs.
      destruct (Completion.matches r); [congruence | split; reflexivity].
    + intros Hc [Hs | Hm]; rewrite Hc.
      * rewrite Hs. split; reflexivity.
      * rewrite Hm, andb_false_r. split; reflexivity.
Qed.

Lemma completion_precedence_witness :
  Js.trim (currentInput (Sample.typed "ls")) <> []
  /\ Completion.matches Sample.completionBoth <> []
  /\ currentInput
       (run (handleTabComplete Sample.completing Sample.props)
          (Sample.typed "ls"))
     = Js.lit "ls -la"
  /\ outputLines
       (run (handleTabComplete Sample.completing Sample.props)
          (Sample.typed "ls"))
     = outputLines (Sample.typed "ls").
Proof.
  assert (Hin : Js.trim (currentInput (Sample.typed "ls")) <> [])
    by discriminate.
  split; [exact Hin|]. split; [discriminate|].
  destruct (completion_precedence Sample.completing Sample.props
              (Sample.typed "ls")) as [_ H].
  destruct (H Hin Sample.completionBoth eq_refl) as [Hc _].
  apply (Hc (Js.lit "ls -la")); [reflexivity | discriminate].
Defined.

(* --------------------------------------------------------------------- *)
(* Frame rules                                                           *)
(* --------------------------------------------------------------------- *)

Section Keeps.

Context {T : Type} (f : State -> T).

Lemma keeps_ret {A} (a : A) : keeps f (ret a).
Proof. intros st; reflexivity. Qed.

Lemma keeps_get : keeps f get.
Proof. intros st; reflexivity. Qed.

Lemma keeps_raise {A} (e : thrown) : keeps f (@raise A e).
Proof. intros st; reflexivity. Qed.

Lemma keeps_await {A} (o : outcome A) : keeps f (await o).
Proof. destruct o; intros st; reflexivity. Qed.

Lemma keeps_modify (g : State -> State) :
  (forall st, f (g st) = f st) -> keeps f (modify g).
Proof. intros H st; apply H. Qed.

Lemma keeps_bind {A B} (c : M A) (k : A -> M B) :
  keeps f c -> (forall a, keeps f (k a)) -> keeps f (bind c k).
Proof.
  intros Hc Hk st. unfold bind. specialize (Hc st).
  destruct (c st) as [[a|e] st1]; simpl in *; [|exact Hc].
  rewrite (Hk a st1). exact Hc.
Qed.

Lemma keeps_try_catch {A} (body : M A) (h : thrown -> M A) :
  keeps f body -> (forall e, keeps f (h e)) -> keeps f (try_catch body h).
Proof.
  intros Hb Hh st. unfold try_catch. specialize (Hb st).
  destruct (body st) as [[a|e] st1]; simpl in *; [exact Hb|].
  rewrite (Hh e st1). exact Hb.
Qed.

Lemma keeps_forEach {A} (arr : list A) (g : A -> M unit) :
  (forall x, keeps f (g x)) -> keeps f (forEach arr g).
Proof.
  intros H. induction arr as [|x arr IH]; simpl.
  - apply keeps_ret.
  - apply keeps_bind; [apply H | intros _; exact IH].
Qed.

Lemma keeps_when (b : bool) (c : M unit) : keeps f c -> keeps f (when b c).
Proof. intros H. destruct b; [exact H | apply keeps_ret]. Qed.

End Keeps.

Ltac keeps_step :=
  match goal with
  | |- keeps _ (bind _ _) => apply keeps_bind; [|intros ?]
  | |- keeps _ (try_catch _ _) => apply keeps_try_catch; [|intros ?]
  | |- keeps _ (forEach _ _) => apply keeps_forEach; intros ?
  | |- keeps _ (when _ _) => apply keeps_when
  | |- keeps _ (ret _) => apply keeps_ret
  | |- keeps _ get => apply keeps_get
  | |- keeps _ (await _) => apply keeps_await
  | |- keeps _ (modify _) => apply keeps_modify; intros ?; reflexivity
  | |- keeps _ (push_line _) => apply keeps_modify; intros ?; reflexivity
  | |- keeps _ (perform _) => apply keeps_modify; intros ?; reflexivity
  | |- keeps _ (emit_record _ _) => apply keeps_modify; intros ?; reflexivity
  | |- keeps _ (if ?b then _ else _) => destruct b
  end.

Ltac keeps_auto := repeat keeps_step.

Section HistoryFrames.

Context (api : Api) (props : Props.t).

Lemma keeps_history_updatePrompt : keeps history updatePrompt.
Proof. unfold updatePrompt. keeps_auto. Qed.

Lemma keeps_history_updateCurrentDirFromPath fullPath :
  keeps history (updateCurrentDirFromPath fullPath).
Proof. unfold updateCurrentDirFromPath, updatePrompt. keeps_auto. Qed.

Lemma keeps_history_callExecute params :
  keeps history (callExecute api params).
Proof. unfold callExecute. keeps_auto. Qed.

Lemma keeps_history_executeCommand command :
  keeps history (executeCommand api props command).
Proof.
  unfold executeCommand.
  keeps_auto;
    first [apply keeps_history_callExecute
          | apply keeps_history_updateCurrentDirFromPath].
Qed.

Lemma keeps_history_fetchPromptInfo :
  keeps history (fetchPromptInfo api props).
Proof.
  unfold fetchPromptInfo.
  keeps_auto;
    first [apply keeps_history_callExecute
          | apply keeps_history_updateCurrentDirFromPath
          | apply keeps_history_updatePrompt].
Qed.

Lemma keeps_history_handleTabComplete :
  keeps history (handleTabComplete api props).
Proof.
  unfold handleTabComplete, callComplete. keeps_auto.
Qed.

Lemma keeps_history_watchConnected connected :
  keeps history (watchConnected api props connected).
Proof.
  unfold watchConnected. keeps_auto. apply keeps_history_fetchPromptInfo.
Qed.

Lemma keeps_history_onMounted : keeps history (onMounted api props).
Proof. unfold onMounted. keeps_auto. apply keeps_history_fetchPromptInfo. Qed.

(* An empty submission: one Input line with the prompt and no content,
   nothing dispatched, history and cursor untouched. *)
Lemma handleCommand_blank (st : State) :
  Js.trim (currentInput st) = [] ->
  handleCommand api props st
  = (Ok tt,
     set_currentInput []
       (set_outputLines
          (outputLines st ++ [Line.mk Line.Input [] (currentPrompt st)]) st)).
Proof.
  intros H. unfold handleCommand. unfold_m. rewrite H. reflexivity.
Qed.

(* A submission proper: the command is appended and the cursor put
   after it. *)
Lemma handleCommand_submit (st : State) :
  Js.trim (currentInput st) <> [] ->
  history (run (handleCommand api props) st)
  = (commandHistory st ++ [Js.trim (currentInput st)],
     Z.of_nat (length (commandHistory st ++ [Js.trim (currentInput st)]))).
Proof.
  intros H. apply JsFacts.truthy_iff in H.
  unfold run, handleCommand. unfold_m. rewrite H. cbn [negb].
  destruct (Props.isRecording props); cbv beta iota; unfold push_line;
    unfold_m; rewrite keeps_history_executeCommand; reflexivity.
Qed.

End HistoryFrames.

Lemma historyInvariant_initial : historyInvariant initial.
Proof.
  repeat apply conj; simpl; [lia | lia | reflexivity | constructor].
Qed.

Lemma historyInvariant_same (st st' : State) :
  history st' = history st -> historyInvariant st -> historyInvariant st'.
Proof.
  unfold history, historyInvariant. intros [= -> ->]. tauto.
Qed.

Lemma historyInvariant_handleHistoryUp (st : State) :
  historyInvariant st -> historyInvariant (run handleHistoryUp st).
Proof.
  intros Hinv. unfold run, handleHistoryUp. unfold_m.
  destruct (length (commandHistory st) =? 0)%nat; [exact Hinv|].
  destruct (historyIndex st >? 0)%Z eqn:E; [|exact Hinv].
  apply Z.gtb_lt in E. destruct Hinv as (Hr & Hz & Hb).
  repeat apply conj; simpl; auto; try lia.
Qed.

Lemma historyInvariant_handleHistoryDown (st : State) :
  historyInvariant st -> historyInvariant (run handleHistoryDown st).
Proof.
  intros (Hr & Hz & Hb). unfold run, handleHistoryDown. unfold_m.
  destruct (historyIndex st <? Z.of_nat (length (commandHistory st)) - 1)%Z
    eqn:E.
  - apply Z.ltb_lt in E. repeat apply conj; simpl; auto; try lia.
  - repeat apply conj; simpl; auto; lia.
Qed.

Lemma historyInvariant_handleCommand api props (st : State) :
  historyInvariant st -> historyInvariant (run (handleCommand api props) st).
Proof.
  intros Hinv.
  destruct (Js.trim (currentInput st)) as [|c cmd] eqn:E.
  - unfold run. rewrite (handleCommand_blank api props st E).
    eapply historyInvariant_same; [|exact Hinv]. reflexivity.
  - assert (Hne : Js.trim (currentInput st) <> []) by (rewrite E; discriminate).
    pose proof (handleCommand_submit api props st Hne) as H.
    unfold history in H. injection H as Hh Hi.
    destruct Hinv as (Hr & Hz & Hb).
    unfold historyInvariant. rewrite Hi, Hh. repeat apply conj.
    + lia.
    + lia.
    + rewrite length_app. simpl. lia.
    + apply Forall_app. split; [exact Hb|].
      constructor; [|constructor]. apply JsFacts.trim_not_blank, Hne.
Qed.

Lemma historyInvariant_step api props ev (st : State) :
  historyInvariant st -> historyInvariant (run (handler api props ev) st).
Proof.
  intros Hinv. destruct ev; simpl.
  - eapply historyInvariant_same; [|exact Hinv]. reflexivity.
  - apply historyInvariant_handleCommand, Hinv.
  - apply historyInvariant_handleHistoryUp, Hinv.
  - apply historyInvariant_handleHistoryDown, Hinv.
  - eapply historyInvariant_same; [|exact Hinv].
    apply keeps_history_handleTabComplete.
  - eapply historyInvariant_same; [|exact Hinv].
    apply keeps_history_watchConnected.
  - eapply historyInvariant_same; [|exact Hinv].
    apply keeps_history_onMounted.
  - eapply historyInvariant_same; [|exact Hinv]. reflexivity.
Qed.

Lemma historyInvariant_reachable (st : State) :
  reachable st -> historyInvariant st.
Proof.
  induction 1 as [|st api props ev _ IH].
  - apply historyInvariant_initial.
  - apply historyInvariant_step, IH.
Qed.

(* Where the two history handlers read `commandHistory.value[i]`, the
   index is inside the array. *)
Lemma history_read_in_range (st : State) :
  historyInvariant st ->
  ((length (commandHistory st) =? 0)%nat = false ->
   (historyIndex st >? 0)%Z = true ->
   is_Some (commandHistory st !! Z.to_nat (historyIndex st - 1)))
  /\ ((historyIndex st <? Z.of_nat (length (commandHistory st)) - 1)%Z = true ->
      is_Some (commandHistory st !! Z.to_nat (historyIndex st + 1))).
Proof.
  intros (Hr & Hz & _). split.
  - intros _ H. apply lookup_lt_is_Some. lia.
  - intros H. apply lookup_lt_is_Some. lia.
Qed.

(** C7 (counterexample).  The cursor is not within [0, entries.length] at
    every reachable point: it is -1 when the component is set up; and it
    does not equal entries.length after every submission: after `a` was
    submitted, the up key pressed and the edit buffer emptied, submitting
    the empty line leaves the cursor at 0 with one entry in the history. *)
Lemma history_cursor_out_of_range :
  reachable initial
  /\ ~ (0 <= historyIndex initial
        <= Z.of_nat (length (commandHistory initial)))%Z
  /\ reachable Sample.afterBlankSubmission
  /\ historyIndex Sample.afterBlankSubmission = 0%Z
  /\ length (commandHistory Sample.afterBlankSubmission) = 1%nat.
Proof.
  repeat apply conj.
  - constructor.
  - simpl. lia.
  - unfold Sample.afterBlankSubmission, Sample.typed, Sample.press.
    repeat constructor.
  - reflexivity.
  - reflexivity.
Qed.

(** C7 (amended).  At every reachable state the cursor is an integer in
    [-1, entries.length], and -1 only while the history is empty; no entry
    is empty or made of white space only; immediately after the
    submission of a command that is not blank the cursor equals
    entries.length, the command, trimmed, being the last entry; and the
    submission of a blank line leaves entries and cursor as they were. *)
Theorem history_invariant (st : State) :
  reachable st ->
  (-1 <= historyIndex st <= Z.of_nat (length (commandHistory st)))%Z
  /\ (historyIndex st = (-1)%Z -> commandHistory st = [])
  /\ Forall (fun entry => Js.blank entry = false) (commandHistory st)
  /\ (forall api props,
        Js.trim (currentInput st) <> [] ->
        let st' := run (handleCommand api props) st in
        commandHistory st' = commandHistory st ++ [Js.trim (currentInput st)]
        /\ historyIndex st' = Z.of_nat (length (commandHistory st')))
  /\ (forall api props,
        Js.trim (currentInput st) = [] ->
        history (run (handleCommand api props) st) = history st).
Proof.
  intros Hreach.
  destruct (historyInvariant_reachable st Hreach) as (Hr & Hz & Hb).
  split; [exact Hr | split; [exact Hz | split; [exact Hb | split]]].
  - intros api props Hne st'.
    pose proof (handleCommand_submit api props st Hne) as H.
    unfold history in H. injection H as Hh Hi.
    subst st'. rewrite Hi, Hh. split; reflexivity.
  - intros api props Hblank. unfold run.
    rewrite (handleCommand_blank api props st Hblank). reflexivity.
Qed.

Lemma history_invariant_witness :
  reachable (Sample.typed " ls ")
  /\ commandHistory
       (run (handleCommand Sample.echoing Sample.props) (Sample.typed " ls "))
     = [Js.lit "ls"]
  /\ historyIndex
       (run (handleCommand Sample.echoing Sample.props) (Sample.typed " ls "))
     = 1%Z.
Proof.
  assert (Hreach : reachable (Sample.typed " ls "))
    by (unfold Sample.typed, Sample.press; repeat constructor).
  split; [exact Hreach|].
  destruct (history_invariant (Sample.typed " ls ") Hreach)
    as (_ & _ & _ & H & _).
  destruct (H Sample.echoing Sample.props) as [H1 H2]; [discriminate|].
  split; [exact H1 | exact H2].
Defined.

(* --------------------------------------------------------------------- *)
(* Prompt information                                                    *)
(* --------------------------------------------------------------------- *)

Section Refresh.

Context (api : Api) (props : Props.t).

Ltac run_probes :=
  unfold fetchPromptInfo, callExecute; unfold_m;
  repeat match goal with
    | H : executeSshCommand api _ = _ |- _ =>
        rewrite H; clear H; cbv beta iota
    end.

Lemma fetchPromptInfo_returns (st : State) :
  fst (fetchPromptInfo api props st) = Ok tt.
Proof.
  destruct (executeSshCommand api (probe props "whoami")) eqn:E1;
    [destruct (executeSshCommand api (probe props "hostname")) eqn:E2;
      [destruct (executeSshCommand api (probe props "id -u")) eqn:E3;
        [destruct (executeSshCommand api (probe props "pwd")) eqn:E4|]|]|];
    run_probes; reflexivity.
Qed.

(* `(parseInt(...) || 1000) === 0` never holds. *)
Lemma userId_not_zero (x : option Z) : (Js.or_number x 1000 =? 0)%Z = false.
Proof.
  destruct x as [z|]; simpl; [|reflexivity].
  destruct (Z.eqb_spec z 0); [reflexivity | apply Z.eqb_neq; assumption].
Qed.

(* Every call answered: the prompt information is what the calls gave
   and the tracked directory is the output of `pwd`. *)
Lemma fetchPromptInfo_success (st : State) (r1 r2 r3 r4 : ExecResult.t) :
  executeSshCommand api (probe props "whoami") = Ok r1 ->
  executeSshCommand api (probe props "hostname") = Ok r2 ->
  executeSshCommand api (probe props "id -u") = Ok r3 ->
  executeSshCommand api (probe props "pwd") = Ok r4 ->
  let st' := run (fetchPromptInfo api props) st in
  let username :=
    Js.or (Js.or (Js.trim (ExecResult.output r1))
             (Server.username (Props.server props))) (Js.lit "user") in
  let fullPath := Js.or (Js.trim (ExecResult.output r4)) (Js.lit "~") in
  PromptInfo.username (promptInfo st') = username
  /\ PromptInfo.hostname (promptInfo st')
     = Js.or (Js.or (Js.trim (ExecResult.output r2))
                (Server.host (Props.server props))) (Js.lit "localhost")
  /\ PromptInfo.isRoot (promptInfo st')
     = Js.eqb (Js.toLowerCase username) (Js.lit "root")
  /\ PromptInfo.currentDir (promptInfo st')
     = normalize fullPath username (PromptInfo.isRoot (promptInfo st'))
  /\ currentWorkingDir st' = fullPath
  /\ currentPrompt st' = renderPrompt (promptInfo st').
Proof.
  intros E1 E2 E3 E4 st' username fullPath.
  assert (Hfull : Js.trim fullPath = fullPath).
  { unfold fullPath.
    destruct (Js.trim (ExecResult.output r4)) as [|c t] eqn:E;
      [reflexivity|].
    change (Js.or (c :: t) (Js.lit "~")) with (c :: t).
    rewrite <- E. apply JsFacts.trim_idem. }
  subst st'. unfold run. run_probes.
  rewrite updateCurrentDirFromPath_run. cbn [snd fst].
  cbn [promptInfo set_promptInfo PromptInfo.username PromptInfo.hostname
       PromptInfo.isRoot PromptInfo.currentDir currentWorkingDir
       currentPrompt].
  rewrite userId_not_zero. cbn [orb]. fold username fullPath.
  repeat apply conj; try reflexivity. exact Hfull.
Qed.

(* One call rejected: every field is the fallback one, whatever the
   earlier calls gave, and the tracked directory is not touched. *)
Lemma fetchPromptInfo_failure (st : State) :
  refreshFails api props ->
  let st' := run (fetchPromptInfo api props) st in
  promptInfo st' = Spec.contextDefaults (Props.server props)
  /\ currentPrompt st'
     = renderPrompt (Spec.contextDefaults (Props.server props))
  /\ currentWorkingDir st' = currentWorkingDir st
  /\ outputLines st' = outputLines st.
Proof.
  intros (command & e & Hin & Hthrow) st'. subst st'. unfold run.
  destruct (executeSshCommand api (probe props "whoami")) eqn:E1;
    [destruct (executeSshCommand api (probe props "hostname")) eqn:E2;
      [destruct (executeSshCommand api (probe props "id -u")) eqn:E3;
        [destruct (executeSshCommand api (probe props "pwd")) eqn:E4|]|]|].
  - exfalso. simpl in Hin.
    destruct Hin as [<- | [<- | [<- | [<- | []]]]]; congruence.
  - clear Hthrow. run_probes. repeat apply conj; reflexivity.
  - clear Hthrow. run_probes. repeat apply conj; reflexivity.
  - clear Hthrow. run_probes. repeat apply conj; reflexivity.
  - clear Hthrow. run_probes. repeat apply conj; reflexivity.
Qed.

End Refresh.

(** C9 (counterexample).  The calls do not fall back one by one: on a
    host where `whoami` answers alice and `hostname` is rejected, the
    user name of the prompt is the one of the session context, bob, not
    the one the first call found. *)
Lemma refresh_falls_back_as_a_whole :
  executeSshCommand Sample.noHostname (probe Sample.props "whoami")
  = Sample.answer "alice"
  /\ executeSshCommand Sample.noHostname (probe Sample.props "hostname")
     = Throw Sample.timeout
  /\ PromptInfo.username
       (promptInfo (run (fetchPromptInfo Sample.noHostname Sample.props) initial))
     = Js.lit "bob"
  /\ PromptInfo.username
       (promptInfo (run (fetchPromptInfo Sample.noHostname Sample.props) initial))
     <> Js.lit "alice".
Proof. repeat apply conj; [reflexivity .. | discriminate]. Qed.

(** C9 (amended).  fetchPromptInfo never throws.  When any of its calls is
    rejected, the prompt information as a whole is reset to the defaults
    of the session context, also the fields whose call had succeeded:
    username is context.username (or "user" when that is empty), hostname
    is context.host (or "localhost" when that is empty), the root status
    is false and the displayed directory is "~"; the prompt is rendered
    from these and the tracked directory is left as it was.  A field
    falls back on its own only when all the calls are answered and the
    output of its call is blank. *)
Theorem refresh_recovers api props (st : State) :
  let st' := run (fetchPromptInfo api props) st in
  let server := Props.server props in
  fst (fetchPromptInfo api props st) = Ok tt
  /\ (refreshFails api props ->
      promptInfo st'
      = PromptInfo.mk (Js.or (Server.username server) (Js.lit "user"))
          (Js.or (Server.host server) (Js.lit "localhost")) false (Js.lit "~")
      /\ currentPrompt st'
         = Js.or (Server.username server) (Js.lit "user") ++ Js.lit "@"
             ++ Js.or (Server.host server) (Js.lit "localhost")
             ++ Js.lit ":~$ "
      /\ currentWorkingDir st' = currentWorkingDir st)
  /\ (forall r1 r2 r3 r4,
        executeSshCommand api (probe props "whoami") = Ok r1 ->
        executeSshCommand api (probe props "hostname") = Ok r2 ->
        executeSshCommand api (probe props "id -u") = Ok r3 ->
        executeSshCommand api (probe props "pwd") = Ok r4 ->
        PromptInfo.username (promptInfo st')
        = Js.or (Js.or (Js.trim (ExecResult.output r1))
                   (Server.username server)) (Js.lit "user")
        /\ PromptInfo.hostname (promptInfo st')
           = Js.or (Js.or (Js.trim (ExecResult.output r2))
                      (Server.host server)) (Js.lit "localhost")).
Proof.
  intros st' server. subst st' server.
  split; [apply fetchPromptInfo_returns|]. split.
  - intros Hfail.
    destruct (fetchPromptInfo_failure api props st Hfail) as (H1 & H2 & H3 & _).
    split; [exact H1 | split; [|exact H3]].
    rewrite H2. unfold renderPrompt. simpl. reflexivity.
  - intros r1 r2 r3 r4 E1 E2 E3 E4.
    destruct (fetchPromptInfo_success api props st r1 r2 r3 r4 E1 E2 E3 E4)
      as (H1 & H2 & _).
    split; [exact H1 | exact H2].
Qed.

Lemma refresh_recovers_witness :
  refreshFails Sample.noHostname Sample.props
  /\ promptInfo (run (fetchPromptInfo Sample.noHostname Sample.props) initial)
     = PromptInfo.mk (Js.lit "bob") (Js.lit "10.0.0.5") false (Js.lit "~")
  /\ currentPrompt (run (fetchPromptInfo Sample.noHostname Sample.props) initial)
     = Js.lit "bob@10.0.0.5:~$ ".
Proof.
  assert (Hfail : refreshFails Sample.noHostname Sample.props).
  { exists "hostname"%string, Sample.timeout.
    split; [right; left; reflexivity | reflexivity]. }
  split; [exact Hfail|].
  destruct (refresh_recovers Sample.noHostname Sample.props initial)
    as (_ & H & _).
  destruct (H Hfail) as (H1 & H2 & _).
  split; [exact H1 | exact H2].
Defined.

(* --------------------------------------------------------------------- *)
(* Disconnecting and connecting again                                    *)
(* --------------------------------------------------------------------- *)

Lemma watchConnected_true_location api props (st : State) :
  currentWorkingDir (run (watchConnected api props true) st)
  = currentWorkingDir
      (run (fetchPromptInfo api props)
         (set_outputLines
            (outputLines st
               ++ [Line.mk Line.Output
                     (Js.lit "已连接到 " ++ Server.host (Props.server props)
                        ++ Js.lit ":"
                        ++ Js.numberToString (Server.port (Props.server props)))
                     []]) st)).
Proof. reflexivity. Qed.

(** C10 (counterexample).  After `cd /var/log`, a disconnect and a
    reconnect whose prompt information calls succeed, the first command,
    `ls`, is sent with the directory `pwd` reported on reconnect,
    /home/alice, not with the directory tracked before the disconnect. *)
Lemma reconnect_refreshes_directory :
  currentWorkingDir Sample.inVarLog = Js.lit "/var/log"
  /\ currentWorkingDir Sample.disconnected = Js.lit "/var/log"
  /\ last (effects Sample.firstCommandAfterReconnect)
     = Some (CallExecute
               (ExecParams.mk (Js.lit "srv-1") (Js.lit "ls")
                  (Some (Js.lit "/home/alice"))))
  /\ Js.lit "/home/alice" <> Js.lit "/var/log".
Proof. repeat apply conj; [reflexivity .. | discriminate]. Qed.

(** C10 (amended).  Disconnecting resets the rendered prompt to "$ " and
    the prompt information (username, hostname, isRoot, displayed
    directory) to its defaults and leaves the tracked full working
    directory as it was, so a command dispatched before the directory is
    tracked anew is sent with the directory of before the disconnect
    ("~" when that is empty).  After a reconnect a command is sent with
    the directory of before the disconnect when a prompt information call
    was rejected, and with the trimmed output of `pwd` ("~" when blank)
    when all the calls succeeded. *)
Theorem disconnect_keeps_directory api props (st : State) :
  let off := run (watchConnected api props false) st in
  currentPrompt off = Js.lit "$ "
  /\ promptInfo off = PromptInfo.mk [] [] false (Js.lit "~")
  /\ currentWorkingDir off = currentWorkingDir st
  /\ (forall props' command,
        ExecParams.currentDir (dispatchParams props' off command)
        = Some (Js.or (currentWorkingDir st) (Js.lit "~")))
  /\ (forall api' props',
        let on := run (watchConnected api' props' true) off in
        (refreshFails api' props' ->
         currentWorkingDir on = currentWorkingDir st
         /\ forall command,
              ExecParams.currentDir (dispatchParams props' on command)
              = Some (Js.or (currentWorkingDir st) (Js.lit "~")))
        /\ (forall r1 r2 r3 r4,
              executeSshCommand api' (probe props' "whoami") = Ok r1 ->
              executeSshCommand api' (probe props' "hostname") = Ok r2 ->
              executeSshCommand api' (probe props' "id -u") = Ok r3 ->
              executeSshCommand api' (probe props' "pwd") = Ok r4 ->
              forall command,
                ExecParams.currentDir (dispatchParams props' on command)
                = Some (Js.or (Js.trim (ExecResult.output r4)) (Js.lit "~")))).
Proof.
  intros off. do 4 (split; [reflexivity|]).
  intros api' props' on. split.
  - intros Hfail.
    assert (Hcwd : currentWorkingDir on = currentWorkingDir st).
    { subst on. rewrite watchConnected_true_location.
      match goal with
      | |- currentWorkingDir (run _ ?s) = _ =>
          destruct (fetchPromptInfo_failure api' props' s Hfail)
            as (_ & _ & H & _)
      end.
      rewrite H. reflexivity. }
    split; [exact Hcwd|].
    intros command. unfold dispatchParams. cbn [ExecParams.currentDir].
    rewrite Hcwd. reflexivity.
  - intros r1 r2 r3 r4 E1 E2 E3 E4 command.
    assert (Hcwd : currentWorkingDir on
                   = Js.or (Js.trim (ExecResult.output r4)) (Js.lit "~")).
    { subst on. rewrite watchConnected_true_location.
      match goal with
      | |- currentWorkingDir (run _ ?s) = _ =>
          destruct (fetchPromptInfo_success api' props' s r1 r2 r3 r4
                      E1 E2 E3 E4) as (_ & _ & _ & _ & H & _)
      end.
      exact H. }
    unfold dispatchParams. cbn [ExecParams.currentDir]. rewrite Hcwd.
    destruct (Js.trim (ExecResult.output r4)); reflexivity.
Qed.

Lemma disconnect_keeps_directory_witness :
  refreshFails Sample.noHostname Sample.props
  /\ currentWorkingDir Sample.reconnectedBadly = Js.lit "/var/log".
Proof.
  assert (Hfail : refreshFails Sample.noHostname Sample.props).
  { exists "hostname"%string, Sample.timeout.
    split; [right; left; reflexivity | reflexivity]. }
  split; [exact Hfail|].
  destruct (disconnect_keeps_directory Sample.healthy Sample.props
              Sample.inVarLog) as (_ & _ & _ & _ & H).
  destruct (H Sample.noHostname Sample.props) as [H1 _].
  exact (proj1 (H1 Hfail)).
Defined.

(* --------------------------------------------------------------------- *)
(* Failures through src/api/ssh.js                                       *)
(* --------------------------------------------------------------------- *)

(* executeSshCommand of ssh.js only throws Error objects, so the handler
   displays the message ssh.js extracted, or the generic one when that is
   empty. *)
Lemma ssh_failure_message (b : Backend) (params : ExecParams.t) (e : thrown) :
  executeSshCommand (SshApi.api b) params = Throw e ->
  exists raw,
    e = newError (SshApi.errorMessage (Js.lit "执行命令失败") raw)
    /\ dispatchErrorMessage e
       = Js.or (SshApi.errorMessage (Js.lit "执行命令失败") raw)
           (Js.lit "执行命令失败").
Proof.
  simpl. unfold SshApi.executeSshCommand.
  destruct (execute_ssh_command b _) as [r|raw]; [discriminate|].
  intros [= <-]. exists raw. split; reflexivity.
Qed.

(* ===================================================================== *)
(* Further properties of the terminal pane                               *)
(* ===================================================================== *)

(* --------------------------------------------------------------------- *)
(* Relational frame rules                                                *)
(* --------------------------------------------------------------------- *)

Section Steps.

Context (R : State -> State -> Prop).
Hypothesis R_refl : forall st, R st st.
Hypothesis R_trans : forall a b c, R a b -> R b c -> R a c.

Lemma steps_ret {A} (a : A) : steps R (ret a).
Proof. intros st; apply R_refl. Qed.

Lemma steps_get : steps R get.
Proof. intros st; apply R_refl. Qed.

Lemma steps_await {A} (o : outcome A) : steps R (await o).
Proof. destruct o; intros st; apply R_refl. Qed.

Lemma steps_modify (g : State -> State) :
  (forall st, R st (g st)) -> steps R (modify g).
Proof. intros H st; apply H. Qed.

Lemma steps_bind {A B} (c : M A) (k : A -> M B) :
  steps R c -> (forall a, steps R (k a)) -> steps R (bind c k).
Proof.
  intros Hc Hk st. unfold bind. specialize (Hc st).
  destruct (c st) as [[a|e] st1]; simpl in *; [|exact Hc].
  eapply R_trans; [exact Hc | apply Hk].
Qed.

Lemma steps_try_catch {A} (body : M A) (h : thrown -> M A) :
  steps R body -> (forall e, steps R (h e)) -> steps R (try_catch body h).
Proof.
  intros Hb Hh st. unfold try_catch. specialize (Hb st).
  destruct (body st) as [[a|e] st1]; simpl in *; [exact Hb|].
  eapply R_trans; [exact Hb | apply Hh].
Qed.

Lemma steps_forEach {A} (arr : list A) (g : A -> M unit) :
  (forall x, steps R (g x)) -> steps R (forEach arr g).
Proof.
  intros H. induction arr as [|x arr IH]; simpl.
  - apply steps_ret.
  - apply steps_bind; [apply H | intros _; exact IH].
Qed.

Lemma steps_when (b : bool) (c : M unit) : steps R c -> steps R (when b c).
Proof. intros H. destruct b; [exact H | apply steps_ret]. Qed.

End Steps.

Lemma outputGrows_refl (st : State) : outputGrows st st.
Proof. exists []. rewrite app_nil_r. reflexivity. Qed.

Lemma outputGrows_trans (a b c : State) :
  outputGrows a b -> outputGrows b c -> outputGrows a c.
Proof.
  intros [x Hx] [y Hy]. exists (x ++ y). rewrite Hy, Hx, app_assoc. reflexivity.
Qed.

(* A write to a ref other than outputLines, or a push. *)
Ltac grows_modify :=
  apply (steps_modify outputGrows); intros ?; unfold outputGrows;
  first [ exists []; simpl; rewrite app_nil_r; reflexivity
        | eexists; reflexivity ].

Ltac grows_step :=
  match goal with
  | |- steps _ (bind _ _) =>
      apply (steps_bind _ outputGrows_trans); [|intros ?]
  | |- steps _ (try_catch _ _) =>
      apply (steps_try_catch _ outputGrows_trans); [|intros ?]
  | |- steps _ (forEach _ _) =>
      apply (steps_forEach _ outputGrows_refl outputGrows_trans); intros ?
  | |- steps _ (when _ _) => apply (steps_when _ outputGrows_refl)
  | |- steps _ (ret _) => apply (steps_ret _ outputGrows_refl)
  | |- steps _ get => apply (steps_get _ outputGrows_refl)
  | |- steps _ (await _) => apply (steps_await _ outputGrows_refl)
  | |- steps _ (modify _) => grows_modify
  | |- steps _ (push_line _) => grows_modify
  | |- steps _ (perform _) => grows_modify
  | |- steps _ (emit_record _ _) => grows_modify
  | |- steps _ (if ?b then _ else _) => destruct b
  end.

Section OutputGrows.

Context (api : Api) (props : Props.t).

Lemma grows_updateCurrentDirFromPath fullPath :
  steps outputGrows (updateCurrentDirFromPath fullPath).
Proof. unfold updateCurrentDirFromPath, updatePrompt. repeat grows_step. Qed.

Lemma grows_callExecute params : steps outputGrows (callExecute api params).
Proof. unfold callExecute. repeat grows_step. Qed.

Lemma grows_executeCommand command :
  steps outputGrows (executeCommand api props command).
Proof.
  unfold executeCommand.
  repeat grows_step;
    first [apply grows_callExecute | apply grows_updateCurrentDirFromPath].
Qed.

Lemma grows_fetchPromptInfo : steps outputGrows (fetchPromptInfo api props).
Proof.
  unfold fetchPromptInfo, updatePrompt.
  repeat grows_step;
    first [apply grows_callExecute | apply grows_updateCurrentDirFromPath].
Qed.

Lemma grows_handleCommand : steps outputGrows (handleCommand api props).
Proof.
  unfold handleCommand. repeat grows_step. apply grows_executeCommand.
Qed.

Lemma grows_handleTabComplete :
  steps outputGrows (handleTabComplete api props).
Proof. unfold handleTabComplete, callComplete. repeat grows_step. Qed.

End OutputGrows.

(** X1.  The lines of the pane are only ever appended to: whatever the
    event, the API's answers and the props, every line displayed before
    the event is still displayed after it, in the same place, unless the
    event is the exposed clear(), which empties the pane. *)
Theorem output_append_only api props (ev : event) (st : State) :
  (ev <> ClearCalled ->
   exists added,
     outputLines (run (handler api props ev) st) = outputLines st ++ added)
  /\ (ev = ClearCalled -> outputLines (run (handler api props ev) st) = []).
Proof.
  split; [|intros ->; reflexivity].
  intros Hev. change (outputGrows st (run (handler api props ev) st)).
  revert st. change (steps outputGrows (handler api props ev)).
  destruct ev; simpl; try congruence.
  - grows_step.
  - apply grows_handleCommand.
  - unfold handleHistoryUp. repeat grows_step.
  - unfold handleHistoryDown. repeat grows_step.
  - apply grows_handleTabComplete.
  - unfold watchConnected. repeat grows_step. apply grows_fetchPromptInfo.
  - unfold onMounted. repeat grows_step. apply grows_fetchPromptInfo.
Qed.

Lemma output_append_only_witness :
  KeyEnter <> ClearCalled
  /\ exists added,
       outputLines (run (handler Sample.echoing Sample.props KeyEnter)
                      (Sample.typed "ls"))
       = outputLines (Sample.typed "ls") ++ added.
Proof.
  assert (H : KeyEnter <> ClearCalled) by discriminate.
  split; [exact H|].
  exact (proj1 (output_append_only Sample.echoing Sample.props KeyEnter
                  (Sample.typed "ls")) H).
Defined.

(* --------------------------------------------------------------------- *)
(* Recording                                                             *)
(* --------------------------------------------------------------------- *)

Lemma emitted_call (st : State) (e : effect) :
  isEmit e = false ->
  emitted (set_effects (effects st ++ [e]) st) = emitted st.
Proof.
  intros H. unfold emitted. simpl. rewrite List.filter_app. simpl.
  rewrite H. apply app_nil_r.
Qed.

Ltac quiet_step :=
  match goal with
  | |- keeps _ (bind _ _) => apply keeps_bind; [|intros ?]
  | |- keeps _ (try_catch _ _) => apply keeps_try_catch; [|intros ?]
  | |- keeps _ (forEach _ _) => apply keeps_forEach; intros ?
  | |- keeps _ (when false _) => apply keeps_ret
  | |- keeps _ (ret _) => apply keeps_ret
  | |- keeps _ get => apply keeps_get
  | |- keeps _ (await _) => apply keeps_await
  | |- keeps _ (perform (CallExecute _)) =>
      apply keeps_modify; intros ?; apply emitted_call; reflexivity
  | |- keeps _ (perform (CallComplete _)) =>
      apply keeps_modify; intros ?; apply emitted_call; reflexivity
  | |- keeps _ (modify _) => apply keeps_modify; intros ?; reflexivity
  | |- keeps _ (push_line _) => apply keeps_modify; intros ?; reflexivity
  | |- keeps _ (if ?b then _ else _) => destruct b
  end.

Section Quiet.

Context (api : Api) (props : Props.t).
Hypothesis recording_off : Props.isRecording props = false.

Lemma quiet_updateCurrentDirFromPath fullPath :
  keeps emitted (updateCurrentDirFromPath fullPath).
Proof. unfold updateCurrentDirFromPath, updatePrompt. repeat quiet_step. Qed.

Lemma quiet_callExecute params : keeps emitted (callExecute api params).
Proof. unfold callExecute. repeat quiet_step. Qed.

Lemma quiet_executeCommand command :
  keeps emitted (executeCommand api props command).
Proof.
  unfold executeCommand. rewrite recording_off.
  repeat quiet_step;
    first [apply quiet_callExecute | apply quiet_updateCurrentDirFromPath].
Qed.

Lemma quiet_fetchPromptInfo : keeps emitted (fetchPromptInfo api props).
Proof.
  unfold fetchPromptInfo, updatePrompt.
  repeat quiet_step;
    first [apply quiet_callExecute | apply quiet_updateCurrentDirFromPath].
Qed.

Lemma quiet_handler (ev : event) : keeps emitted (handler api props ev).
Proof.
  destruct ev; simpl.
  - quiet_step.
  - unfold handleCommand. rewrite recording_off.
    repeat quiet_step. apply quiet_executeCommand.
  - unfold handleHistoryUp. repeat quiet_step.
  - unfold handleHistoryDown. repeat quiet_step.
  - unfold handleTabComplete, callComplete. repeat quiet_step.
  - unfold watchConnected. repeat quiet_step. apply quiet_fetchPromptInfo.
  - unfold onMounted, when.
    destruct (Server.connected (Props.server props));
      [apply quiet_fetchPromptInfo | apply keeps_ret].
  - unfold clear. quiet_step.
Qed.

End Quiet.

(** X2.  While the isRecording prop is false the pane emits no record
    event: whatever the event and the API's answers, the events emitted
    so far are the same after the handler as before. *)
Theorem no_record_event_when_not_recording api props (ev : event)
    (st : State) :
  Props.isRecording props = false ->
  emitted (run (handler api props ev) st) = emitted st.
Proof. intros H. apply (quiet_handler api props H ev). Qed.

Lemma no_record_event_when_not_recording_witness :
  Props.isRecording Sample.props = false
  /\ emitted (run (handler Sample.echoing Sample.props KeyEnter)
                (Sample.typed "ls"))
     = emitted (Sample.typed "ls").
Proof.
  split; [reflexivity|].
  apply (no_record_event_when_not_recording Sample.echoing Sample.props
           KeyEnter (Sample.typed "ls")).
  reflexivity.
Defined.

(* --------------------------------------------------------------------- *)
(* A submitted command, from the echo to the response                    *)
(* --------------------------------------------------------------------- *)

Section Submission.

Context (api : Api) (props : Props.t).

Lemma handleCommand_dispatch (st : State) :
  Js.trim (currentInput st) <> [] ->
  handleCommand api props st
  = executeCommand api props (Js.trim (currentInput st))
      (dispatching props st).
Proof.
  intros H. apply JsFacts.truthy_iff in H.
  unfold handleCommand, dispatching. unfold_m. rewrite H. cbn [negb].
  destruct (Props.isRecording props); cbv beta iota; unfold push_line;
    unfold_m; cbn [commandHistory set_commandHistory set_effects
                   set_historyIndex set_outputLines set_currentInput
                   outputLines currentInput currentPrompt historyIndex
                   promptInfo currentWorkingDir effects];
    rewrite ?app_nil_r; reflexivity.
Qed.

End Submission.

(** X3.  A submitted command that is not blank makes exactly one API
    call, with the server id, the trimmed command and the tracked
    directory ("~" when that is empty).  When recording, the call is
    preceded by one input event carrying the trimmed command and, for a
    normal result only (no interactive signal, no directory change, no
    failure), followed by one output event carrying result.output; when
    not recording the call is the only effect. *)
Theorem dispatch_effects api props (st : State) :
  Js.trim (currentInput st) <> [] ->
  let command := Js.trim (currentInput st) in
  let params :=
    ExecParams.mk (Server.id (Props.server props)) command
      (Some (Js.or (currentWorkingDir st) (Js.lit "~"))) in
  effects (run (handleCommand api props) st)
  = effects st
      ++ (if Props.isRecording props then [Emit RecInput command] else [])
      ++ [CallExecute params]
      ++ responseRecord props (executeSshCommand api params).
Proof.
  intros Hne command params. unfold run.
  rewrite (handleCommand_dispatch api props st Hne). fold command.
  change params with (dispatchParams props (dispatching props st) command).
  destruct (executeSshCommand api
              (dispatchParams props (dispatching props st) command))
    as [r|e] eqn:Hcall.
  - destruct (interactiveSignal r) eqn:Hi;
      [|destruct (directoryChangeSignal r) eqn:Hd].
    + rewrite (executeCommand_interactive _ _ _ _ r Hcall Hi).
      unfold responseRecord. rewrite Hi, andb_false_r.
      cbn [snd effects dispatching]. fold command.
      rewrite app_nil_r, <- app_assoc. reflexivity.
    + rewrite (executeCommand_newDir _ _ _ _ r Hcall Hi Hd).
      unfold responseRecord. rewrite Hd, andb_false_r.
      cbn [snd effects dispatching]. fold command.
      rewrite app_nil_r, <- app_assoc. reflexivity.
    + rewrite (executeCommand_normal _ _ _ _ r Hcall Hi Hd).
      unfold responseRecord. rewrite Hi, Hd.
      cbn [snd effects dispatching negb]. fold command.
      rewrite !andb_true_r, <- !app_assoc. reflexivity.
  - rewrite (executeCommand_failure _ _ _ _ e Hcall).
    cbn [snd effects dispatching responseRecord]. fold command.
    rewrite app_nil_r, <- app_assoc. reflexivity.
Qed.

Lemma dispatch_effects_witness :
  Js.trim (currentInput (Sample.typed " ls ")) <> []
  /\ effects (run (handleCommand Sample.echoing Sample.props)
                (Sample.typed " ls "))
     = [CallExecute
          (ExecParams.mk (Js.lit "srv-1") (Js.lit "ls") (Some (Js.lit "~")))].
Proof.
  assert (H : Js.trim (currentInput (Sample.typed " ls ")) <> [])
    by discriminate.
  split; [exact H|].
  exact (dispatch_effects Sample.echoing Sample.props (Sample.typed " ls ") H).
Defined.

(** X4.  The echo of a submitted command: the handler appends first one
    Input line holding the trimmed command and the prompt as it was when
    the command was submitted, also when the response changes the prompt,
    and only after it the lines of the response; the edit buffer is left
    empty. *)
Theorem submission_echo api props (st : State) :
  Js.trim (currentInput st) <> [] ->
  let st' := run (handleCommand api props) st in
  (exists response,
     outputLines st'
     = outputLines st
         ++ Line.mk Line.Input (Js.trim (currentInput st)) (currentPrompt st)
            :: response)
  /\ currentInput st' = [].
Proof.
  intros Hne st'. subst st'. unfold run.
  rewrite (handleCommand_dispatch api props st Hne).
  split.
  - destruct (grows_executeCommand api props (Js.trim (currentInput st))
                (dispatching props st)) as [added H].
    exists added. rewrite H. cbn [outputLines dispatching].
    rewrite <- app_assoc. reflexivity.
  - assert (K : keeps currentInput
                  (executeCommand api props (Js.trim (currentInput st)))).
    { unfold executeCommand, callExecute, updateCurrentDirFromPath,
        updatePrompt. keeps_auto. }
    rewrite K. reflexivity.
Qed.

Lemma submission_echo_witness :
  Js.trim (currentInput (Sample.typed "cd /tmp")) <> []
  /\ (exists response,
        outputLines (run (handleCommand Sample.changingDir Sample.props)
                       (Sample.typed "cd /tmp"))
        = outputLines (Sample.typed "cd /tmp")
            ++ Line.mk Line.Input (Js.lit "cd /tmp") (Js.lit "$ ") :: response).
Proof.
  assert (H : Js.trim (currentInput (Sample.typed "cd /tmp")) <> [])
    by discriminate.
  split; [exact H|].
  exact (proj1 (submission_echo Sample.changingDir Sample.props
                  (Sample.typed "cd /tmp") H)).
Defined.

(* --------------------------------------------------------------------- *)
(* History navigation                                                    *)
(* --------------------------------------------------------------------- *)

Lemma handleHistoryUp_moves (st : State) :
  commandHistory st <> [] ->
  (0 < historyIndex st)%Z ->
  run handleHistoryUp st
  = set_currentInput (historyEntry st (historyIndex st - 1))
      (set_historyIndex (historyIndex st - 1) st).
Proof.
  intros Hne Hpos. unfold run, handleHistoryUp. unfold_m.
  destruct (commandHistory st) as [|c h] eqn:E; [congruence|].
  cbn [length Nat.eqb]. apply Z.gtb_lt in Hpos. rewrite Hpos.
  unfold historyEntry. simpl. rewrite E. reflexivity.
Qed.

Lemma handleHistoryUp_stays (st : State) :
  commandHistory st = [] \/ (historyIndex st <= 0)%Z ->
  run handleHistoryUp st = st.
Proof.
  intros H. unfold run, handleHistoryUp. unfold_m.
  destruct (length (commandHistory st) =? 0)%nat eqn:E; [reflexivity|].
  destruct H as [H | H].
  - rewrite H in E. discriminate.
  - destruct (historyIndex st >? 0)%Z eqn:G; [|reflexivity].
    apply Z.gtb_lt in G. lia.
Qed.

Lemma handleHistoryDown_moves (st : State) :
  (historyIndex st < Z.of_nat (length (commandHistory st)) - 1)%Z ->
  run handleHistoryDown st
  = set_currentInput (historyEntry st (historyIndex st + 1))
      (set_historyIndex (historyIndex st + 1) st).
Proof.
  intros H. unfold run, handleHistoryDown. unfold_m.
  apply Z.ltb_lt in H. rewrite H. reflexivity.
Qed.

Lemma handleHistoryDown_leaves (st : State) :
  (Z.of_nat (length (commandHistory st)) - 1 <= historyIndex st)%Z ->
  run handleHistoryDown st
  = set_currentInput []
      (set_historyIndex (Z.of_nat (length (commandHistory st))) st).
Proof.
  intros H. unfold run, handleHistoryDown. unfold_m.
  apply Z.ltb_ge in H. rewrite H. reflexivity.
Qed.

Lemma keeps_entries_handleHistoryUp : keeps commandHistory handleHistoryUp.
Proof. unfold handleHistoryUp. keeps_auto. Qed.

Lemma keeps_entries_handleHistoryDown : keeps commandHistory handleHistoryDown.
Proof. unfold handleHistoryDown. keeps_auto. Qed.

(** X5.  At every reachable state the history keys put in the edit buffer
    an entry of the history or the empty string, never a read outside the
    array.  Up does nothing at all when the history is empty or the
    cursor is not above 0, and otherwise moves the cursor one down and
    shows the entry under it.  Down moves the cursor one up and shows the
    entry under it while the cursor is below the last entry, and
    otherwise puts the cursor at entries.length and empties the edit
    buffer. *)
Theorem history_keys (st : State) :
  reachable st ->
  let entries := commandHistory st in
  let up := run handleHistoryUp st in
  let down := run handleHistoryDown st in
  (entries = [] \/ (historyIndex st <= 0)%Z -> up = st)
  /\ (entries <> [] -> (0 < historyIndex st)%Z ->
      historyIndex up = (historyIndex st - 1)%Z
      /\ entries !! Z.to_nat (historyIndex st - 1) = Some (currentInput up))
  /\ ((historyIndex st < Z.of_nat (length entries) - 1)%Z ->
      historyIndex down = (historyIndex st + 1)%Z
      /\ entries !! Z.to_nat (historyIndex st + 1) = Some (currentInput down))
  /\ ((Z.of_nat (length entries) - 1 <= historyIndex st)%Z ->
      historyIndex down = Z.of_nat (length entries)
      /\ currentInput down = [])
  /\ commandHistory up = entries
  /\ commandHistory down = entries.
Proof.
  intros Hreach entries up down.
  destruct (historyInvariant_reachable st Hreach) as (Hr & Hz & _).
  fold entries in Hr, Hz.
  assert (Hlook : forall i, (0 <= i < Z.of_nat (length entries))%Z ->
            entries !! Z.to_nat i = Some (historyEntry st i)).
  { intros i Hi. unfold historyEntry. fold entries.
    destruct (lookup_lt_is_Some_2 entries (Z.to_nat i)) as [x Hx]; [lia|].
    rewrite Hx. reflexivity. }
  repeat apply conj.
  - apply handleHistoryUp_stays.
  - intros Hne Hpos. subst up. rewrite (handleHistoryUp_moves st Hne Hpos).
    split; [reflexivity|]. apply Hlook. lia.
  - intros Hlt. subst down. rewrite (handleHistoryDown_moves st Hlt).
    split; [reflexivity|]. apply Hlook. lia.
  - intros Hge. subst down. rewrite (handleHistoryDown_leaves st Hge).
    split; reflexivity.
  - apply keeps_entries_handleHistoryUp.
  - apply keeps_entries_handleHistoryDown.
Qed.

Lemma history_keys_witness :
  reachable Sample.afterBlankSubmission
  /\ historyIndex (run handleHistoryDown Sample.afterBlankSubmission) = 1%Z
  /\ currentInput (run handleHistoryDown Sample.afterBlankSubmission) = [].
Proof.
  assert (H : reachable Sample.afterBlankSubmission).
  { unfold Sample.afterBlankSubmission, Sample.typed, Sample.press.
    repeat constructor. }
  split; [exact H|].
  destruct (history_keys Sample.afterBlankSubmission H)
    as (_ & _ & _ & Hdown & _).
  apply Hdown. simpl. lia.
Defined.

Lemma pressUp_from (n k : nat) (st : State) :
  historyIndex st = Z.of_nat k ->
  (n <= k <= length (commandHistory st))%nat ->
  historyIndex (pressUp n st) = Z.of_nat (k - n)
  /\ commandHistory (pressUp n st) = commandHistory st
  /\ (1 <= n ->
      commandHistory st !! (k - n)%nat = Some (currentInput (pressUp n st)))%nat.
Proof.
  intros Hk. induction n as [|n IH]; intros Hn.
  - simpl. rewrite Nat.sub_0_r. repeat apply conj; auto. lia.
  - destruct IH as (Hi & Hh & _); [lia|].
    assert (Hstep : pressUp (S n) st = run handleHistoryUp (pressUp n st))
      by reflexivity.
    rewrite Hstep. set (mid := pressUp n st) in *.
    assert (Hne : commandHistory mid <> []).
    { rewrite Hh. destruct (commandHistory st); [simpl in Hn; lia | discriminate]. }
    assert (Hpos : (0 < historyIndex mid)%Z) by (rewrite Hi; lia).
    rewrite (handleHistoryUp_moves mid Hne Hpos).
    cbn [historyIndex set_historyIndex set_currentInput commandHistory
         currentInput].
    rewrite Hi, Hh. repeat apply conj.
    + lia.
    + reflexivity.
    + intros _. unfold historyEntry. rewrite Hh.
      replace (Z.to_nat (Z.of_nat (k - n) - 1)) with (k - S n)%nat by lia.
      destruct (lookup_lt_is_Some_2 (commandHistory st) (k - S n)%nat)
        as [x Hx]; [lia|].
      rewrite Hx. reflexivity.
Qed.

(** X6.  Recalling commands: when the cursor is at entries.length, as it
    is after a submission, pressing the up key n times, for n from 1 to
    the number of entries, shows the n-th most recent entry in the edit
    buffer and leaves the cursor on it; the entries are not changed. *)
Theorem up_recalls_nth_last (n : nat) (st : State) :
  historyIndex st = Z.of_nat (length (commandHistory st)) ->
  (1 <= n <= length (commandHistory st))%nat ->
  let st' := pressUp n st in
  commandHistory st !! (length (commandHistory st) - n)%nat
  = Some (currentInput st')
  /\ historyIndex st' = Z.of_nat (length (commandHistory st) - n)
  /\ commandHistory st' = commandHistory st.
Proof.
  intros Hk Hn st'.
  destruct (pressUp_from n (length (commandHistory st)) st Hk) as (H1 & H2 & H3);
    [lia|].
  repeat apply conj; [apply H3; lia | exact H1 | exact H2].
Qed.

(** X7.  Up followed by Down at a reachable state whose cursor is above
    0 brings the cursor back to where it was, but not the edit buffer:
    it then holds the entry under the cursor, or is empty when the cursor
    is at entries.length, whatever had been typed in it. *)
Theorem up_then_down (st : State) :
  reachable st ->
  (0 < historyIndex st)%Z ->
  let st' := run handleHistoryDown (run handleHistoryUp st) in
  historyIndex st' = historyIndex st
  /\ commandHistory st' = commandHistory st
  /\ ((historyIndex st < Z.of_nat (length (commandHistory st)))%Z ->
      commandHistory st !! Z.to_nat (historyIndex st)
      = Some (currentInput st'))
  /\ (historyIndex st = Z.of_nat (length (commandHistory st)) ->
      currentInput st' = []).
Proof.
  intros Hreach Hpos st'.
  destruct (historyInvariant_reachable st Hreach) as (Hr & Hz & _).
  assert (Hne : commandHistory st <> []).
  { destruct (commandHistory st); [simpl in Hr; lia | discriminate]. }
  subst st'. rewrite (handleHistoryUp_moves st Hne Hpos).
  set (mid := set_currentInput _ _).
  assert (Hmid : historyIndex mid = (historyIndex st - 1)%Z) by reflexivity.
  assert (Hent : commandHistory mid = commandHistory st) by reflexivity.
  destruct (Z.lt_ge_cases (historyIndex st)
              (Z.of_nat (length (commandHistory st)))) as [Hlt | Hge].
  - rewrite handleHistoryDown_moves by (rewrite Hmid, Hent; lia).
    cbn [historyIndex set_historyIndex set_currentInput commandHistory
         currentInput].
    rewrite Hmid, Hent. repeat apply conj.
    + lia.
    + reflexivity.
    + intros _. unfold historyEntry. rewrite Hent.
      replace (historyIndex st - 1 + 1)%Z with (historyIndex st) by lia.
      destruct (lookup_lt_is_Some_2 (commandHistory st)
                  (Z.to_nat (historyIndex st))) as [x Hx]; [lia|].
      rewrite Hx. reflexivity.
    + lia.
  - rewrite handleHistoryDown_leaves by (rewrite Hmid, Hent; lia).
    cbn [historyIndex set_historyIndex set_currentInput commandHistory
         currentInput].
    rewrite Hent. repeat apply conj.
    + lia.
    + reflexivity.
    + lia.
    + reflexivity.
Qed.

Lemma up_recalls_nth_last_witness :
  historyIndex More.twoCommands
  = Z.of_nat (length (commandHistory More.twoCommands))
  /\ (1 <= 2 <= length (commandHistory More.twoCommands))%nat
  /\ currentInput (pressUp 2 More.twoCommands) = Js.lit "a".
Proof.
  assert (H1 : historyIndex More.twoCommands
               = Z.of_nat (length (commandHistory More.twoCommands)))
    by reflexivity.
  assert (H2 : (1 <= 2 <= length (commandHistory More.twoCommands))%nat)
    by (simpl; lia).
  split; [exact H1 | split; [exact H2|]].
  destruct (up_recalls_nth_last 2 More.twoCommands H1 H2) as (H & _).
  change (Some (Js.lit "a") = Some (currentInput (pressUp 2 More.twoCommands)))
    in H.
  symmetry. exact (Some_inj _ _ H).
Defined.

Lemma up_then_down_witness :
  reachable More.drafting
  /\ (0 < historyIndex More.drafting)%Z
  /\ currentInput More.drafting = Js.lit "draft"
  /\ currentInput (run handleHistoryDown (run handleHistoryUp More.drafting))
     = [].
Proof.
  assert (H1 : reachable More.drafting).
  { unfold More.drafting, More.twoCommands, Sample.typed, Sample.press.
    repeat constructor. }
  assert (H2 : (0 < historyIndex More.drafting)%Z) by (simpl; lia).
  split; [exact H1 | split; [exact H2 | split; [reflexivity|]]].
  destruct (up_then_down More.drafting H1 H2) as (_ & _ & _ & H).
  apply H. reflexivity.
Defined.

(* --------------------------------------------------------------------- *)
(* Nothing thrown gets out of a handler                                  *)
(* --------------------------------------------------------------------- *)









(** X9.  A completion that fails changes nothing the user sees: when the
    edit buffer is not blank and completeCommand throws, the lines, the
    edit buffer, the prompt, the history and the tracked directory are
    as before; the call, made with the trimmed input and the tracked
    directory ("~" when empty), is the only effect. *)
Theorem completion_failure_is_silent api props (st : State) (e : thrown) :
  Js.trim (currentInput st) <> [] ->
  completeCommand api
    (CompleteParams.mk (Server.id (Props.server props))
       (Js.trim (currentInput st))
       (Js.or (currentWorkingDir st) (Js.lit "~"))) = Throw e ->
  let st' := run (handleTabComplete api props) st in
  outputLines st' = outputLines st
  /\ currentInput st' = currentInput st
  /\ promptView st' = promptView st
  /\ history st' = history st
  /\ currentWorkingDir st' = currentWorkingDir st
  /\ effects st'
     = effects st
         ++ [CallComplete
               (CompleteParams.mk (Server.id (Props.server props))
                  (Js.trim (currentInput st))
                  (Js.or (currentWorkingDir st) (Js.lit "~")))].
Proof.
  intros Hne Hcall st'. subst st'. unfold run.
  rewrite (handleTabComplete_failure api props st e Hne Hcall).
  repeat apply conj; reflexivity.
Qed.

Lemma completion_failure_is_silent_witness :
  Js.trim (currentInput (Sample.typed "ls")) <> []
  /\ outputLines (run (handleTabComplete More.noCompleting Sample.props)
                    (Sample.typed "ls"))
     = outputLines (Sample.typed "ls")
  /\ currentInput (run (handleTabComplete More.noCompleting Sample.props)
                     (Sample.typed "ls"))
     = Js.lit "ls".
Proof.
  assert (H : Js.trim (currentInput (Sample.typed "ls")) <> [])
    by discriminate.
  split; [exact H|].
  destruct (completion_failure_is_silent More.noCompleting Sample.props
              (Sample.typed "ls") Sample.timeout H eq_refl)
    as (H1 & H2 & _).
  split; [exact H1 | exact H2].
Defined.

(* --------------------------------------------------------------------- *)
(* The prompt                                                            *)
(* --------------------------------------------------------------------- *)

Lemma promptConsistent_same (st st' : State) :
  promptView st' = promptView st ->
  promptConsistent st -> promptConsistent st'.
Proof.
  unfold promptView, promptConsistent. intros [= -> ->]. tauto.
Qed.

Lemma refresh_outcomes api props :
  refreshFails api props
  \/ exists r1 r2 r3 r4,
       executeSshCommand api (probe props "whoami") = Ok r1
       /\ executeSshCommand api (probe props "hostname") = Ok r2
       /\ executeSshCommand api (probe props "id -u") = Ok r3
       /\ executeSshCommand api (probe props "pwd") = Ok r4.
Proof.
  destruct (executeSshCommand api (probe props "whoami")) as [r1|e] eqn:E1;
    [|left; exists "whoami"%string, e; split; [simpl; tauto | exact E1]].
  destruct (executeSshCommand api (probe props "hostname")) as [r2|e] eqn:E2;
    [|left; exists "hostname"%string, e; split; [simpl; tauto | exact E2]].
  destruct (executeSshCommand api (probe props "id -u")) as [r3|e] eqn:E3;
    [|left; exists "id -u"%string, e; split; [simpl; tauto | exact E3]].
  destruct (executeSshCommand api (probe props "pwd")) as [r4|e] eqn:E4;
    [|left; exists "pwd"%string, e; split; [simpl; tauto | exact E4]].
  right. exists r1, r2, r3, r4. auto.
Qed.

Lemma promptConsistent_fetchPromptInfo api props (st : State) :
  promptConsistent (run (fetchPromptInfo api props) st).
Proof.
  right. destruct (refresh_outcomes api props) as [Hfail | (r1 & r2 & r3 & r4 & E1 & E2 & E3 & E4)].
  - destruct (fetchPromptInfo_failure api props st Hfail) as (H1 & H2 & _).
    rewrite H2, H1. reflexivity.
  - destruct (fetchPromptInfo_success api props st r1 r2 r3 r4 E1 E2 E3 E4)
      as (_ & _ & _ & _ & _ & H).
    exact H.
Qed.

Lemma promptConsistent_executeCommand api props command (st : State) :
  promptConsistent st ->
  promptConsistent (run (executeCommand api props command) st).
Proof.
  intros Hst. unfold run.
  destruct (executeSshCommand api (dispatchParams props st command))
    as [r|e] eqn:Hcall.
  - destruct (interactiveSignal r) eqn:Hi;
      [|destruct (directoryChangeSignal r) eqn:Hd].
    + rewrite (executeCommand_interactive _ _ _ _ r Hcall Hi).
      eapply promptConsistent_same; [|exact Hst]. reflexivity.
    + rewrite (executeCommand_newDir _ _ _ _ r Hcall Hi Hd).
      right. reflexivity.
    + rewrite (executeCommand_normal _ _ _ _ r Hcall Hi Hd).
      eapply promptConsistent_same; [|exact Hst]. reflexivity.
  - rewrite (executeCommand_failure _ _ _ _ e Hcall).
    eapply promptConsistent_same; [|exact Hst]. reflexivity.
Qed.

Lemma promptConsistent_step api props (ev : event) (st : State) :
  promptConsistent st -> promptConsistent (run (handler api props ev) st).
Proof.
  intros Hst. destruct ev; simpl.
  - eapply promptConsistent_same; [|exact Hst]. reflexivity.
  - destruct (Js.trim (currentInput st)) as [|c cmd] eqn:E.
    + unfold run. rewrite (handleCommand_blank api props st E).
      eapply promptConsistent_same; [|exact Hst]. reflexivity.
    + assert (Hne : Js.trim (currentInput st) <> [])
        by (rewrite E; discriminate).
      unfold run. rewrite (handleCommand_dispatch api props st Hne).
      apply promptConsistent_executeCommand.
      eapply promptConsistent_same; [|exact Hst]. reflexivity.
  - eapply promptConsistent_same; [|exact Hst].
    assert (K : keeps promptView handleHistoryUp)
      by (unfold handleHistoryUp; keeps_auto).
    apply K.
  - eapply promptConsistent_same; [|exact Hst].
    assert (K : keeps promptView handleHistoryDown)
      by (unfold handleHistoryDown; keeps_auto).
    apply K.
  - eapply promptConsistent_same; [|exact Hst].
    assert (K : keeps promptView (handleTabComplete api props))
      by (unfold handleTabComplete, callComplete; keeps_auto).
    apply K.
  - destruct connected.
    + apply (promptConsistent_fetchPromptInfo api props).
    + left. split; reflexivity.
  - unfold onMounted, when.
    destruct (Server.connected (Props.server props)).
    + apply (promptConsistent_fetchPromptInfo api props).
    + exact Hst.
  - eapply promptConsistent_same; [|exact Hst]. reflexivity.
Qed.

(** X10.  The prompt is never stale: at every reachable state the prompt
    displayed is either the idle "$ " of a pane that was never connected
    or is disconnected, the prompt information then being the default
    one, or the rendering username@hostname:dir followed by # or $ and a
    space of the prompt information the component holds. *)
Theorem prompt_never_stale (st : State) :
  reachable st ->
  (currentPrompt st = Js.lit "$ "
   /\ promptInfo st = PromptInfo.mk [] [] false (Js.lit "~"))
  \/ currentPrompt st
     = PromptInfo.username (promptInfo st) ++ Js.lit "@"
         ++ PromptInfo.hostname (promptInfo st) ++ Js.lit ":"
         ++ PromptInfo.currentDir (promptInfo st)
         ++ (if PromptInfo.isRoot (promptInfo st) then Js.lit "#"
             else Js.lit "$")
         ++ Js.lit " ".
Proof.
  intros H. change (promptConsistent st).
  induction H as [|st api props ev _ IH].
  - left. split; reflexivity.
  - apply promptConsistent_step, IH.
Qed.

Lemma prompt_never_stale_witness :
  reachable Sample.inVarLog
  /\ currentPrompt Sample.inVarLog = Js.lit "alice@web:/var/log$ ".
Proof.
  assert (H : reachable Sample.inVarLog).
  { unfold Sample.inVarLog, Sample.press. repeat constructor. }
  split; [exact H|].
  destruct (prompt_never_stale Sample.inVarLog H) as [[H1 _] | H1].
  - discriminate H1.
  - rewrite H1. reflexivity.
Defined.

(** X11.  Root is recognised by the user name alone.  When all four
    prompt information calls are answered, isRoot holds exactly when the
    user name shown (the trimmed output of whoami, else the user name of
    the session context, else "user") is "root" in any letter case; the
    output of `id -u` has no part in it, since `parseInt(...) || 1000`
    turns a uid of 0 into 1000 before the comparison with 0. *)
Theorem root_by_user_name_only api props (st : State)
    (r1 r2 r3 r4 : ExecResult.t) :
  executeSshCommand api (probe props "whoami") = Ok r1 ->
  executeSshCommand api (probe props "hostname") = Ok r2 ->
  executeSshCommand api (probe props "id -u") = Ok r3 ->
  executeSshCommand api (probe props "pwd") = Ok r4 ->
  let st' := run (fetchPromptInfo api props) st in
  PromptInfo.isRoot (promptInfo st')
  = Js.eqb (Js.toLowerCase (PromptInfo.username (promptInfo st')))
      (Js.lit "root")
  /\ PromptInfo.username (promptInfo st')
     = Js.or (Js.or (Js.trim (ExecResult.output r1))
                (Server.username (Props.server props))) (Js.lit "user").
Proof.
  intros E1 E2 E3 E4 st'.
  destruct (fetchPromptInfo_success api props st r1 r2 r3 r4 E1 E2 E3 E4)
    as (H1 & _ & H3 & _).
  fold st' in H1, H3. rewrite H3, H1. split; reflexivity.
Qed.

Lemma root_by_user_name_only_witness :
  executeSshCommand More.adminUid0 (probe Sample.props "id -u")
  = Sample.answer "0"
  /\ PromptInfo.isRoot
       (promptInfo (run (fetchPromptInfo More.adminUid0 Sample.props) initial))
     = false.
Proof.
  split; [reflexivity|].
  destruct (root_by_user_name_only More.adminUid0 Sample.props initial
              (ExecResult.mk (Js.lit "admin") 0 false None None [Js.lit "admin"])
              (ExecResult.mk (Js.lit "web") 0 false None None [Js.lit "web"])
              (ExecResult.mk (Js.lit "0") 0 false None None [Js.lit "0"])
              (ExecResult.mk (Js.lit "/root") 0 false None None [Js.lit "/root"])
              eq_refl eq_refl eq_refl eq_refl) as [H _].
  rewrite H. reflexivity.
Defined.

(* --------------------------------------------------------------------- *)
(* The displayed directory                                               *)
(* --------------------------------------------------------------------- *)

Lemma trimmed_or_tilde (p : jsstring) :
  let t := Js.or (Js.trim p) (Js.lit "~") in
  t <> [] /\ Js.noLead t /\ Js.noLead (rev t).
Proof.
  destruct (Js.trim p) as [|c s] eqn:E; cbv zeta.
  - repeat apply conj; [discriminate | reflexivity | reflexivity].
  - change (Js.or (c :: s) (Js.lit "~")) with (c :: s).
    rewrite <- E. repeat apply conj.
    + rewrite E. discriminate.
    + apply JsFacts.trim_noLead.
    + apply JsFacts.trimEnd_noTrail.
Qed.

Lemma noLead_rev_suffix (a b : jsstring) :
  b <> [] -> Js.noLead (rev (a ++ b)) -> Js.noLead (rev b).
Proof.
  intros Hb. rewrite rev_app_distr.
  destruct (rev b) as [|c r] eqn:E; [|simpl; auto].
  apply (f_equal (@rev N)) in E. rewrite rev_involutive in E. contradiction.
Qed.

Lemma noLead_rev_prepend (a b : jsstring) :
  b <> [] -> Js.noLead (rev b) -> Js.noLead (rev (a ++ b)).
Proof.
  intros Hb. rewrite rev_app_distr.
  destruct (rev b) as [|c r] eqn:E; [|simpl; auto].
  apply (f_equal (@rev N)) in E. rewrite rev_involutive in E. contradiction.
Qed.

(* The three shapes of a displayed directory. *)
Lemma normalize_shape (p u : jsstring) (root : bool) :
  let t := Js.or (Js.trim p) (Js.lit "~") in
  normalize p u root = t
  \/ normalize p u root = Js.lit "~"
  \/ exists rest,
       t = (Js.lit "/home/" ++ u) ++ Js.lit "/" ++ rest
       /\ normalize p u root = Js.lit "~" ++ Js.lit "/" ++ rest.
Proof.
  intros t. destruct root.
  - left. apply normalize_root.
  - unfold normalize. fold t.
    destruct (Js.eqb t (Js.lit "/home/" ++ u)); [right; left; reflexivity|].
    destruct (Js.startsWith t (Js.lit "/home/" ++ u ++ Js.lit "/")) eqn:E;
      [|left; reflexivity].
    right. right. apply JsFacts.startsWith_iff in E as [rest E].
    exists rest.
    assert (Ht : t = (Js.lit "/home/" ++ u) ++ Js.lit "/" ++ rest).
    { rewrite E. rewrite <- !app_assoc. reflexivity. }
    split; [exact Ht|]. rewrite Ht. apply JsFacts.replace_prefix.
Qed.

Lemma normalize_trimmed_nonempty (p u : jsstring) (root : bool) :
  normalize p u root <> []
  /\ Js.trim (normalize p u root) = normalize p u root.
Proof.
  destruct (trimmed_or_tilde p) as (Hne & Hl & Hr).
  destruct (normalize_shape p u root) as [H | [H | (rest & Ht & H)]];
    rewrite H.
  - split; [exact Hne | apply JsFacts.trim_fixed; assumption].
  - split; [discriminate | reflexivity].
  - split; [discriminate|].
    apply JsFacts.trim_fixed; [exact eq_refl|].
    change (Js.lit "~" ++ Js.lit "/" ++ rest)
      with (Js.lit "~" ++ (Js.lit "/" ++ rest)).
    apply (noLead_rev_prepend (Js.lit "~")); [discriminate|].
    rewrite Ht in Hr.
    apply (noLead_rev_suffix (Js.lit "/home/" ++ u)) in Hr;
      [exact Hr | discriminate].
Qed.

(** X12.  The displayed directory is never empty and carries no white
    space around it: whatever the path, the user name and the root
    status, normalize gives a non-empty string that trim leaves as it
    is, so the prompt always shows a directory. *)
Theorem displayed_directory_trimmed (p u : jsstring) (root : bool) :
  normalize p u root <> []
  /\ Js.trim (normalize p u root) = normalize p u root
  /\ Js.blank (normalize p u root) = false.
Proof.
  destruct (normalize_trimmed_nonempty p u root) as [Hne Htrim].
  split; [exact Hne | split; [exact Htrim|]].
  rewrite <- Htrim. apply JsFacts.trim_not_blank. rewrite Htrim. exact Hne.
Qed.

Lemma normalize_fixed (d u : jsstring) :
  d <> [] -> Js.trim d = d ->
  (forall r, d <> (Js.lit "/" ++ r)) ->
  forall root, normalize d u root = d.
Proof.
  intros Hne Ht Hslash root. destruct root.
  - rewrite normalize_root, Ht. apply JsFacts.or_truthy, Hne.
  - unfold normalize. rewrite Ht, (JsFacts.or_truthy _ _ Hne).
    destruct (Js.eqb d (Js.lit "/home/" ++ u)) eqn:E1.
    + apply JsFacts.eqb_eq in E1. exfalso.
      apply (Hslash (Js.lit "home/" ++ u)). rewrite E1. reflexivity.
    + destruct (Js.startsWith d (Js.lit "/home/" ++ u ++ Js.lit "/")) eqn:E2;
        [|reflexivity].
      apply JsFacts.startsWith_iff in E2 as [rest E2]. exfalso.
      apply (Hslash (Js.lit "home/" ++ u ++ Js.lit "/" ++ rest)).
      rewrite E2. rewrite <- !app_assoc. reflexivity.
Qed.

(** X13.  normalize is idempotent: displaying a directory that is already
    in display form changes nothing, for root and for any other user. *)
Theorem normalize_idempotent (p u : jsstring) (root : bool) :
  normalize (normalize p u root) u root = normalize p u root.
Proof.
  destruct (normalize_trimmed_nonempty p u root) as [Hne Htrim].
  destruct (normalize_shape p u root) as [H | [H | (rest & Ht & H)]].
  - (* the trimmed path itself: not under the home directory, or root *)
    destruct root.
    + rewrite normalize_root, Htrim. apply JsFacts.or_truthy, Hne.
    + rewrite H in *. set (t := Js.or (Js.trim p) (Js.lit "~")) in *.
      unfold normalize at 1. rewrite Htrim, (JsFacts.or_truthy _ _ Hne).
      unfold normalize in H. fold t in H.
      destruct (Js.eqb t (Js.lit "/home/" ++ u)) eqn:E1.
      * apply JsFacts.eqb_eq in E1. rewrite E1 in H. discriminate H.
      * destruct (Js.startsWith t (Js.lit "/home/" ++ u ++ Js.lit "/"))
          eqn:E2; [|reflexivity].
        apply JsFacts.startsWith_iff in E2 as [rest E2].
        rewrite E2 in H. rewrite <- !app_assoc in H.
        change (Js.lit "/home/" ++ u ++ Js.lit "/" ++ rest)
          with ((Js.lit "/home/" ++ u) ++ Js.lit "/" ++ rest) in H.
        rewrite JsFacts.replace_prefix in H. discriminate H.
  - rewrite H. apply normalize_fixed;
      [discriminate | reflexivity | intros r; discriminate].
  - rewrite H in *. apply normalize_fixed;
      [exact Hne | exact Htrim | intros r; discriminate].
Qed.

(* --------------------------------------------------------------------- *)
(* updateCurrentDir                                                      *)
(* --------------------------------------------------------------------- *)

(* A rejected `pwd` is dropped: only the call is left of it. *)
Lemma updateCurrentDir_failure api props (st : State) (e : thrown) :
  executeSshCommand api (probe props "pwd") = Throw e ->
  updateCurrentDir api props st
  = (Ok tt, set_effects (effects st ++ [CallExecute (probe props "pwd")]) st).
Proof.
  intros H. unfold updateCurrentDir, callExecute. unfold_m. rewrite H.
  reflexivity.
Qed.

(* ===================================================================== *)
(* Properties of src/api/ssh.js, alone and under the terminal pane       *)
(* ===================================================================== *)


(* The message ssh.js extracts from an Error object it made itself. *)
Lemma errorMessage_newError (fallback m : jsstring) :
  m <> [] -> SshApi.errorMessage fallback (newError m) = m.
Proof. destruct m; [congruence | reflexivity]. Qed.

(** X14.  Every function of the API rejects with an Error object and
    nothing else: when the backend rejects with a string the Error
    carries that string, when it rejects with a value that has a
    non-empty message it carries that message, and a backend success is
    returned as it is.  So a message survives the wrapping: extracting
    the message of an Error made this way gives it back when it is not
    empty. *)
Theorem api_rejects_with_errors (b : Backend) (c : ConnectionBackend unit)
    (ep : ExecParams.t) (cp : CompleteParams.t) (np : ConnectParams.t)
    (id : jsstring) :
  rejectsWithError (SshApi.executeSshCommand b ep)
  /\ rejectsWithError (SshApi.completeCommand b cp)
  /\ rejectsWithError (SshConnection.connectSshServer c np)
  /\ rejectsWithError (SshConnection.disconnectSshServer c id)
  /\ rejectsWithError (SshConnection.reconnectTerminal c id)
  /\ (forall raw s, raw = ThrownString s ->
        isErrorWith s (newError (SshApi.errorMessage (Js.lit "执行命令失败") raw)))
  /\ (forall fallback m, m <> [] ->
        SshApi.errorMessage fallback (newError m) = m).
Proof.
  assert (Hnew : forall m, isErrorWith m (newError m))
    by (intros m; eexists; reflexivity).
  repeat apply conj.
  - intros e. unfold SshApi.executeSshCommand.
    destruct (execute_ssh_command b _); intros [= <-]. eexists. apply Hnew.
  - intros e. unfold SshApi.completeCommand.
    destruct (complete_command b _); intros [= <-]. eexists. apply Hnew.
  - intros e. unfold SshConnection.connectSshServer, SshConnection.rethrow.
    destruct (connect_ssh_server c _); intros [= <-]. eexists. apply Hnew.
  - intros e. unfold SshConnection.disconnectSshServer, SshConnection.rethrow.
    destruct (disconnect_ssh_server c _); intros [= <-]. eexists. apply Hnew.
  - intros e. unfold SshConnection.reconnectTerminal, SshConnection.rethrow.
    destruct (reconnect_terminal c _); intros [= <-]. eexists. apply Hnew.
  - intros raw s ->. apply Hnew.
  - apply errorMessage_newError.
Qed.

Lemma api_rejects_with_errors_witness :
  SshApi.executeSshCommand (Wire.refusing Wire.denied) Wire.anyCommand
  = Throw (newError (Js.lit "denied"))
  /\ exists m, isErrorWith m (newError (Js.lit "denied")).
Proof.
  split; [reflexivity|].
  destruct (api_rejects_with_errors (Wire.refusing Wire.denied)
              (Wire.refusingConnection Wire.denied) Wire.anyCommand
              (CompleteParams.mk [] [] []) 
              (ConnectParams.mk [] [] 22 [] None None) [])
    as (H & _).
  apply (H (newError (Js.lit "denied"))). reflexivity.
Defined.

(** X15.  A command typed in the pane always reaches the backend with a
    directory: executeSshCommand passes current_dir as the tracked
    directory, or "~" when that is empty, never null; the four prompt
    information calls, which pass no currentDir, reach it with
    current_dir null. *)
Theorem current_dir_sent (props : Props.t) (st : State)
    (command : jsstring) (probeCommand : string) :
  InvokeExec.current_dir (invokeExecParams (dispatchParams props st command))
  = Some (Js.or (currentWorkingDir st) (Js.lit "~"))
  /\ Js.or (currentWorkingDir st) (Js.lit "~") <> []
  /\ InvokeExec.command (invokeExecParams (dispatchParams props st command))
     = command
  /\ InvokeExec.current_dir (invokeExecParams (probe props probeCommand))
     = None.
Proof.
  repeat apply conj; try reflexivity.
  - unfold invokeExecParams, dispatchParams. simpl.
    destruct (currentWorkingDir st); reflexivity.
  - destruct (currentWorkingDir st); discriminate.
Qed.




(* ===================================================================== *)
(* Properties of the toast component and of the toast utilities          *)
(* ===================================================================== *)

Lemma findIndex_lower {A} (p : A -> bool) (arr : list A) :
  (-1 <= findIndex p arr)%Z.
Proof.
  induction arr as [|x rest IH]; simpl; [lia|].
  destruct (p x); [lia|].
  destruct (findIndex p rest >? -1)%Z eqn:E; lia.
Qed.

Module ToastFacts.

Import Toast.

Lemma without_all_after (i : N) (x : toast) (l : list toast) :
  id x = i -> Forall (before x) l -> without i l = l.
Proof.
  intros Hx H. induction H as [|y l Hy _ IH]; [reflexivity|].
  unfold without in *. simpl. unfold before in Hy.
  replace (id y =? i) with false by (symmetry; apply N.eqb_neq; lia).
  simpl. rewrite IH. reflexivity.
Qed.

(* With ids in increasing order, removing the first toast with an id is
   removing every toast with it. *)
Lemma removeToast_without (i : N) (st : state) :
  StronglySorted before (toasts st) ->
  toasts (removeToast i st) = without i (toasts st).
Proof.
  unfold removeToast. destruct st as [l n tm]. simpl.
  induction l as [|x r IH]; intros Hs; [reflexivity|].
  apply StronglySorted_inv in Hs as [Hr Hx]. specialize (IH Hr).
  simpl. unfold without. simpl. fold (without i r).
  destruct (id x =? i) eqn:E.
  - simpl. apply N.eqb_eq in E.
    symmetry. apply (without_all_after i x r E Hx).
  - simpl. set (j := findIndex (fun t => id t =? i) r) in *.
    pose proof (findIndex_lower (fun t => id t =? i) r) as Hlow.
    fold j in Hlow.
    destruct (j >? -1)%Z eqn:F.
    + apply Z.gtb_lt in F.
      replace (j + 1 >? -1)%Z with true by (symmetry; apply Z.gtb_lt; lia).
      simpl in IH. simpl.
      replace (Z.to_nat (j + 1)) with (S (Z.to_nat j)) by lia.
      simpl. rewrite IH. reflexivity.
    + simpl in IH. simpl. rewrite <- IH. reflexivity.
Qed.

Lemma removeToast_rest (i : N) (st : state) :
  toastId (removeToast i st) = toastId st
  /\ timers (removeToast i st) = timers st.
Proof.
  unfold removeToast. destruct (_ >? _)%Z; split; reflexivity.
Qed.

Lemma sorted_without (i : N) (l : list toast) :
  StronglySorted before l -> StronglySorted before (without i l).
Proof.
  induction 1 as [|x l Hs IH Hx]; [constructor|].
  unfold without in *. simpl. destruct (negb (id x =? i)); [|exact IH].
  constructor; [exact IH|].
  apply List.Forall_forall. intros y Hy. apply filter_In in Hy as [Hy _].
  rewrite List.Forall_forall in Hx. apply Hx, Hy.
Qed.

Lemma in_without (i : N) (t : toast) (l : list toast) :
  In t (without i l) <-> In t l /\ id t <> i.
Proof.
  unfold without. rewrite filter_In, negb_true_iff, N.eqb_neq. tauto.
Qed.

Lemma invariant_initial : invariant initial.
Proof. repeat split; constructor. Qed.

Lemma invariant_without (i : N) (l : list toast) (n : N) (tm : list (N * Z)) :
  invariant (mkState l n tm) ->
  (forall t, In t l -> id t <> i -> (0 < duration t)%Z ->
             In (id t, duration t) tm) ->
  invariant (mkState (without i l) n tm).
Proof.
  intros (Hs & Hb & Ht & Hd) Hkeep. unfold invariant in *. simpl in *.
  split; [|split; [|split]].
  - apply sorted_without, Hs.
  - rewrite List.Forall_forall in Hb. apply List.Forall_forall. intros t Ht'.
    apply in_without in Ht' as [Ht' _]. apply Hb, Ht'.
  - rewrite List.Forall_forall in Ht. apply List.Forall_forall.
    intros tmr Hin. destruct (Ht tmr Hin) as (H1 & H2 & H3).
    split; [exact H1 | split; [exact H2|]].
    intros t Hin'. apply in_without in Hin' as [Hin' _]. apply H3, Hin'.
  - apply List.Forall_forall. intros t Hin Hpos.
    apply in_without in Hin as [Hin Hne]. apply Hkeep; assumption.
Qed.

Lemma invariant_removeToast (i : N) (st : state) :
  invariant st -> invariant (removeToast i st).
Proof.
  intros Hinv. pose proof Hinv as (Hs & _ & _ & Hd).
  pose proof (removeToast_without i st Hs) as Ht.
  destruct (removeToast_rest i st) as [Hn Htm].
  destruct (removeToast i st) as [l' n' tm']. simpl in *. subst.
  destruct st as [l n tm]. simpl in *.
  apply invariant_without; [exact Hinv|].
  intros t Hin _ Hpos. rewrite List.Forall_forall in Hd. apply Hd; assumption.
Qed.

Lemma invariant_showToast m ty d (st : state) :
  invariant st -> invariant (snd (showToast m ty d st)).
Proof.
  intros (Hs & Hb & Ht & Hd). unfold showToast.
  set (dur := default 3000%Z d). set (typ := default (Js.lit "info") ty).
  set (new := mkToast (toastId st + 1) m typ dur).
  assert (Hsorted : StronglySorted before (toasts st ++ [new])).
  { clear Ht Hd. induction Hs as [|x l Hs' IH Hx]; simpl.
    - repeat constructor.
    - apply Forall_cons in Hb as [Hbx Hbl]. constructor; [apply IH, Hbl|].
      apply Forall_app. split; [exact Hx|].
      constructor; [|constructor]. unfold before. simpl. lia. }
  assert (Hbound : Forall (fun t => 1 <= id t <= toastId st + 1)
                     (toasts st ++ [new])).
  { apply Forall_app. split.
    - eapply List.Forall_impl; [|exact Hb]. simpl. intros t Ht'. lia.
    - constructor; [simpl; lia | constructor]. }
  assert (Hfresh : forall t, In t (toasts st) -> id t <> toastId st + 1).
  { intros t Hin. rewrite List.Forall_forall in Hb. specialize (Hb t Hin). lia. }
  assert (Hold : Forall (fun timer =>
                   1 <= fst timer <= toastId st + 1
                   /\ (0 < snd timer)%Z
                   /\ forall t, In t (toasts st ++ [new]) ->
                                id t = fst timer -> duration t = snd timer)
                   (timers st)).
  { rewrite List.Forall_forall in *. intros tmr Hin.
    destruct (Ht tmr Hin) as (H1 & H2 & H3).
    repeat apply conj; [lia | lia | exact H2 |].
    intros t Hin' Hid. apply in_app_iff in Hin' as [Hin' | [<- | []]].
    - apply H3; assumption.
    - simpl in Hid. lia. }
  destruct (dur >? 0)%Z eqn:E; unfold invariant; simpl.
  - apply Z.gtb_lt in E. repeat apply conj; try assumption.
    + apply Forall_app. split; [exact Hold|].
      constructor; [|constructor]. simpl. repeat apply conj; try lia.
      intros t Hin Hid. apply in_app_iff in Hin as [Hin | [<- | []]].
      * exfalso. apply (Hfresh t Hin Hid).
      * reflexivity.
    + apply Forall_app. split.
      * rewrite List.Forall_forall in *. intros t Hin Hpos.
        apply in_app_iff. left. apply Hd; assumption.
      * constructor; [|constructor]. intros _. apply in_app_iff.
        right. left. reflexivity.
  - repeat apply conj; try assumption.
    apply Forall_app. split; [exact Hd|].
    constructor; [|constructor]. simpl. intros Hpos.
    destruct (Z.gtb_spec dur 0); [discriminate | lia].
Qed.

Lemma invariant_step (ev : event) (st : state) :
  invariant st -> invariant (step ev st).
Proof.
  intros Hinv. destruct ev as [m ty d | i | k]; simpl.
  - apply invariant_showToast, Hinv.
  - apply invariant_removeToast, Hinv.
  - destruct (timers st !! k) as [[i d]|] eqn:E; [|exact Hinv].
    pose proof Hinv as (Hs & Hb & Ht & Hd).
    set (mid := mkState (toasts st) (toastId st) (delete k (timers st))).
    pose proof (removeToast_without i mid Hs) as Hw.
    destruct (removeToast_rest i mid) as [Hn Htm].
    destruct (removeToast i mid) as [l' n' tm']. simpl in *. subst.
    (* the toast of the timer that ran is gone; the other timers stay *)
    unfold invariant. simpl. split; [|split; [|split]].
    + apply sorted_without, Hs.
    + rewrite List.Forall_forall in Hb. apply List.Forall_forall.
      intros t Hin. apply in_without in Hin as [Hin _]. apply Hb, Hin.
    + rewrite List.Forall_forall in Ht. apply List.Forall_forall.
      intros tmr Hin.
      assert (Hin0 : In tmr (timers st)).
      { apply list_elem_of_In. apply list_elem_of_In in Hin.
        eapply list_elem_of_delete_inv, Hin. }
      destruct (Ht tmr Hin0) as (H1 & H2 & H3).
      split; [exact H1 | split; [exact H2|]].
      intros t Hin'. apply in_without in Hin' as [Hin' _]. apply H3, Hin'.
    + rewrite List.Forall_forall in Hd, Ht. apply List.Forall_forall.
      intros t Hin Hpos. apply in_without in Hin as [Hin Hne].
      specialize (Hd t Hin Hpos).
      apply list_elem_of_In in Hd. apply list_elem_of_lookup in Hd as [j Hj].
      destruct (decide (j = k)) as [-> | Hjk].
      * rewrite E in Hj. injection Hj as Hi Hdur. congruence.
      * apply list_elem_of_In. apply list_elem_of_lookup.
        destruct (decide (j < k)%nat).
        -- exists j. rewrite list_lookup_delete_lt by assumption. exact Hj.
        -- exists (j - 1)%nat. rewrite list_lookup_delete_ge by lia.
           replace (S (j - 1)) with j by lia. exact Hj.
Qed.

Lemma toast_invariant_reachable (st : state) : reachable st -> invariant st.
Proof.
  induction 1 as [|st ev _ IH];
    [apply invariant_initial | apply invariant_step, IH].
Qed.

Lemma reachable_two : reachable two.
Proof. unfold two. repeat constructor. Qed.

End ToastFacts.

Lemma sorted_lookup {A} (R : A -> A -> Prop) (l : list A) :
  StronglySorted R l ->
  forall (i j : nat) (a b : A),
    l !! i = Some a -> l !! j = Some b -> (i < j)%nat -> R a b.
Proof.
  induction 1 as [|x l Hs IH Hx]; intros i j a b Hi Hj Hlt.
  - rewrite lookup_nil in Hi. discriminate.
  - destruct j as [|j]; [lia|]. simpl in Hj. destruct i as [|i].
    + simpl in Hi. injection Hi as <-.
      rewrite List.Forall_forall in Hx. apply Hx.
      apply list_elem_of_In. eapply list_elem_of_lookup_2, Hj.
    + simpl in Hi. apply (IH i j); [assumption | assumption | lia].
Qed.

Lemma findIndex_none {A} (p : A -> bool) (arr : list A) :
  Forall (fun x => p x = false) arr -> findIndex p arr = (-1)%Z.
Proof.
  induction 1 as [|x l Hx _ IH]; simpl; [reflexivity|].
  rewrite Hx, IH. reflexivity.
Qed.

(** X17.  Toast ids are never reused: at every state of the toast
    component the toasts displayed are in the order they were shown, with
    strictly increasing ids, all between 1 and the counter toastId; so no
    two toasts displayed have the same id. *)
Theorem toast_ids_increase (st : Toast.state) :
  Toast.reachable st ->
  (forall (i j : nat) (a b : Toast.toast),
     Toast.toasts st !! i = Some a -> Toast.toasts st !! j = Some b ->
     (i < j)%nat -> Toast.id a < Toast.id b)
  /\ (forall t, In t (Toast.toasts st) ->
        1 <= Toast.id t <= Toast.toastId st).
Proof.
  intros H. destruct (ToastFacts.toast_invariant_reachable st H) as (Hs & Hb & _).
  split.
  - apply (sorted_lookup Toast.before _ Hs).
  - apply List.Forall_forall, Hb.
Qed.

Lemma toast_ids_increase_witness :
  Toast.reachable Toast.two
  /\ map Toast.id (Toast.toasts Toast.two) = [1; 2]
  /\ (forall t, In t (Toast.toasts Toast.two) ->
        1 <= Toast.id t <= Toast.toastId Toast.two).
Proof.
  split; [exact ToastFacts.reachable_two | split; [reflexivity|]].
  apply (toast_ids_increase Toast.two ToastFacts.reachable_two).
Defined.

(** X18.  removeToast(id) removes the toast with that id and no other:
    at every state of the component the toasts left are the ones with
    another id, in the same order, and the counter and the scheduled
    removals are untouched; when no toast has the id, nothing changes at
    all. *)
Theorem removeToast_exact (i : N) (st : Toast.state) :
  Toast.reachable st ->
  Toast.toasts (Toast.removeToast i st) = Toast.without i (Toast.toasts st)
  /\ Toast.toastId (Toast.removeToast i st) = Toast.toastId st
  /\ Toast.timers (Toast.removeToast i st) = Toast.timers st
  /\ ((forall t, In t (Toast.toasts st) -> Toast.id t <> i) ->
      Toast.removeToast i st = st).
Proof.
  intros H. destruct (ToastFacts.toast_invariant_reachable st H) as (Hs & _).
  destruct (ToastFacts.removeToast_rest i st) as [H1 H2].
  repeat apply conj; try assumption.
  - apply ToastFacts.removeToast_without, Hs.
  - intros Hnone. unfold Toast.removeToast.
    rewrite findIndex_none; [reflexivity|].
    apply List.Forall_forall. intros t Hin. apply N.eqb_neq, Hnone, Hin.
Qed.

Lemma removeToast_exact_witness :
  Toast.reachable Toast.two
  /\ map Toast.id (Toast.toasts (Toast.removeToast 1 Toast.two)) = [2].
Proof.
  split; [exact ToastFacts.reachable_two|].
  destruct (removeToast_exact 1 Toast.two ToastFacts.reachable_two) as [H _].
  rewrite H. reflexivity.
Defined.

(** X19.  Showing a toast and removing it by the id showToast returned
    gives back the toasts there were: the id returned is the counter
    plus one, fresh, the toast is appended last with the defaults "info"
    and 3000 for a missing type and duration, and removeToast of that id
    removes it alone. *)
Theorem show_then_remove (m : jsstring) (ty : option jsstring)
    (d : option Z) (st : Toast.state) :
  Toast.reachable st ->
  let shown := Toast.showToast m ty d st in
  fst shown = Toast.toastId st + 1
  /\ Toast.toasts (snd shown)
     = Toast.toasts st
         ++ [Toast.mkToast (fst shown) m (default (Js.lit "info") ty)
               (default 3000%Z d)]
  /\ Toast.toasts (Toast.removeToast (fst shown) (snd shown))
     = Toast.toasts st.
Proof.
  intros H shown.
  assert (H' : Toast.reachable (snd shown))
    by (apply (Toast.reachable_step st (Toast.Shown m ty d)), H).
  destruct (ToastFacts.toast_invariant_reachable st H) as (_ & Hb & _).
  pose proof (ToastFacts.removeToast_without (fst shown) (snd shown)
                (proj1 (ToastFacts.toast_invariant_reachable _ H'))) as Hrm.
  assert (Hts : Toast.toasts (snd shown)
                = Toast.toasts st
                    ++ [Toast.mkToast (Toast.toastId st + 1) m
                          (default (Js.lit "info") ty) (default 3000%Z d)]).
  { subst shown. unfold Toast.showToast.
    destruct (default 3000%Z d >? 0)%Z; reflexivity. }
  repeat apply conj; [reflexivity | exact Hts |].
  rewrite Hrm, Hts. unfold Toast.without.
  rewrite List.filter_app. simpl.
  change (fst shown) with (Toast.toastId st + 1).
  rewrite N.eqb_refl. simpl. rewrite app_nil_r.
  apply forallb_filter_id. apply forallb_forall. intros t Hin.
  rewrite List.Forall_forall in Hb. specialize (Hb t Hin).
  apply negb_true_iff, N.eqb_neq. lia.
Qed.

Lemma show_then_remove_witness :
  Toast.reachable Toast.two
  /\ fst (Toast.showToast (Js.lit "done") None None Toast.two) = 3
  /\ Toast.toasts
       (Toast.removeToast 3
          (snd (Toast.showToast (Js.lit "done") None None Toast.two)))
     = Toast.toasts Toast.two.
Proof.
  split; [exact ToastFacts.reachable_two|].
  destruct (show_then_remove (Js.lit "done") None None Toast.two
              ToastFacts.reachable_two) as (H1 & _ & H3).
  split; [exact H1 | exact H3].
Defined.

(** X20.  A scheduled removal removes its own toast and no other: when
    the k-th pending timer, set for the toast with id i, runs at any
    state of the component, the toasts left are exactly the ones with
    another id, in the same order, and that timer is no longer pending;
    if the toast was closed by hand before, nothing is removed. *)
Theorem timer_removes_its_toast (k : nat) (i : N) (d : Z)
    (st : Toast.state) :
  Toast.reachable st ->
  Toast.timers st !! k = Some (i, d) ->
  let st' := Toast.step (Toast.TimerFired k) st in
  Toast.toasts st' = Toast.without i (Toast.toasts st)
  /\ Toast.timers st' = delete k (Toast.timers st)
  /\ (forall t, In t (Toast.toasts st') -> Toast.id t <> i)
  /\ ((forall t, In t (Toast.toasts st) -> Toast.id t <> i) ->
      Toast.toasts st' = Toast.toasts st).
Proof.
  intros H E st'. subst st'. simpl. rewrite E.
  destruct (ToastFacts.toast_invariant_reachable st H) as (Hs & _).
  set (mid := Toast.mkState (Toast.toasts st) (Toast.toastId st)
                (delete k (Toast.timers st))).
  pose proof (ToastFacts.removeToast_without i mid Hs) as Hw.
  destruct (ToastFacts.removeToast_rest i mid) as [_ Htm].
  split; [exact Hw | split; [exact Htm | split]].
  - intros t Hin. rewrite Hw in Hin.
    apply ToastFacts.in_without in Hin. tauto.
  - intros Hnone. rewrite Hw. unfold Toast.without.
    apply forallb_filter_id. apply forallb_forall. intros t Hin.
    apply negb_true_iff, N.eqb_neq, Hnone, Hin.
Qed.

Lemma timer_removes_its_toast_witness :
  Toast.reachable Toast.two
  /\ Toast.timers Toast.two !! 0%nat = Some (1, 3000%Z)
  /\ map Toast.id (Toast.toasts (Toast.step (Toast.TimerFired 0) Toast.two))
     = [2].
Proof.
  split; [exact ToastFacts.reachable_two | split; [reflexivity|]].
  destruct (timer_removes_its_toast 0 1 3000%Z Toast.two
              ToastFacts.reachable_two eq_refl) as [H _].
  rewrite H. reflexivity.
Defined.

(** X21.  Only a toast with a positive duration goes away by itself.  At
    every state of the component a displayed toast whose duration is
    positive has its removal pending, and a displayed toast whose
    duration is zero or negative has none: it is still displayed after
    any event other than the closing of that very toast. *)
Theorem sticky_toast_stays (t : Toast.toast) (ev : Toast.event)
    (st : Toast.state) :
  Toast.reachable st ->
  In t (Toast.toasts st) ->
  ((0 < Toast.duration t)%Z ->
   In (Toast.id t, Toast.duration t) (Toast.timers st))
  /\ ((Toast.duration t <= 0)%Z ->
      ev <> Toast.Closed (Toast.id t) ->
      In t (Toast.toasts (Toast.step ev st))).
Proof.
  intros H Hin.
  destruct (ToastFacts.toast_invariant_reachable st H) as (Hs & Hb & Ht & Hd).
  split.
  - rewrite List.Forall_forall in Hd. apply Hd, Hin.
  - intros Hdur Hev. destruct ev as [m ty d | i | k]; simpl.
    + unfold Toast.showToast.
      destruct (default 3000%Z d >? 0)%Z; simpl; apply in_app_iff; left;
        exact Hin.
    + rewrite (ToastFacts.removeToast_without i st Hs).
      apply ToastFacts.in_without. split; [exact Hin|]. congruence.
    + destruct (Toast.timers st !! k) as [[i d]|] eqn:E; [|exact Hin].
      set (mid := Toast.mkState (Toast.toasts st) (Toast.toastId st)
                    (delete k (Toast.timers st))).
      rewrite (ToastFacts.removeToast_without i mid Hs).
      apply ToastFacts.in_without. split; [exact Hin|].
      intros Hid. rewrite List.Forall_forall in Ht.
      assert (Htimer : In (i, d) (Toast.timers st)).
      { apply list_elem_of_In. eapply list_elem_of_lookup_2, E. }
      destruct (Ht (i, d) Htimer) as (_ & Hpos & Hsame).
      simpl in Hpos, Hsame. specialize (Hsame t Hin Hid). lia.
Qed.

Lemma sticky_toast_stays_witness :
  Toast.reachable Toast.two
  /\ In (Toast.mkToast 2 (Js.lit "kept") (Js.lit "info") 0%Z)
       (Toast.toasts Toast.two)
  /\ In (Toast.mkToast 2 (Js.lit "kept") (Js.lit "info") 0%Z)
       (Toast.toasts (Toast.step (Toast.TimerFired 0) Toast.two)).
Proof.
  assert (Hin : In (Toast.mkToast 2 (Js.lit "kept") (Js.lit "info") 0%Z)
                  (Toast.toasts Toast.two))
    by (right; left; reflexivity).
  split; [exact ToastFacts.reachable_two | split; [exact Hin|]].
  destruct (sticky_toast_stays _ (Toast.TimerFired 0) Toast.two
              ToastFacts.reachable_two Hin) as [_ H].
  apply H; [simpl; lia | discriminate].
Defined.

(* --------------------------------------------------------------------- *)
(* The toast utilities                                                   *)
(* --------------------------------------------------------------------- *)

(** X22.  Without a toast instance the utilities show nothing: each of
    showToast, success, error, warning and info warns on the console,
    passes the message to alert() once, returns undefined and leaves
    everything else as it was, whatever type and duration it was given. *)
Theorem toast_falls_back_to_alert {S} (w : ToastUtil.world S)
    (m : jsstring) (ty : option jsstring) (d : option Z) :
  ToastUtil.toastInstance w = None ->
  let alerted :=
    (None,
     ToastUtil.mkWorld S None (ToastUtil.held w) (ToastUtil.alerts w ++ [m])
       (Datatypes.S (ToastUtil.warnings w))) in
  ToastUtil.showToast m ty d w = alerted
  /\ ToastUtil.success m d w = alerted
  /\ ToastUtil.error m d w = alerted
  /\ ToastUtil.warning m d w = alerted
  /\ ToastUtil.info m d w = alerted.
Proof.
  intros H alerted. subst alerted.
  unfold ToastUtil.showToast, ToastUtil.success, ToastUtil.error,
    ToastUtil.warning, ToastUtil.info, ToastUtil.delegate,
    ToastUtil.fallback.
  rewrite H. repeat apply conj; reflexivity.
Qed.

Lemma toast_falls_back_to_alert_witness :
  ToastUtil.toastInstance ToastUtil.unmounted = None
  /\ ToastUtil.alerts
       (snd (ToastUtil.error (Js.lit "lost") None ToastUtil.unmounted))
     = [Js.lit "lost"]
  /\ Toast.toasts
       (ToastUtil.held
          (snd (ToastUtil.error (Js.lit "lost") None ToastUtil.unmounted)))
     = [].
Proof.
  split; [reflexivity|].
  destruct (toast_falls_back_to_alert ToastUtil.unmounted (Js.lit "lost")
              None None eq_refl) as (_ & _ & H & _).
  rewrite H. split; reflexivity.
Defined.

(** X23.  With the toast component as the instance, a utility call shows
    one toast of its own kind and returns its id, the counter plus one;
    a missing duration is 5000 for error, 4000 for warning and 3000 for
    success, info and showToast (whose missing type is "info"), and a
    duration that is given is kept; nothing goes to alert(). *)
Theorem toast_utility_defaults (w : ToastUtil.world Toast.state)
    (m : jsstring) (ty : option jsstring) (d : option Z) :
  ToastUtil.toastInstance w = Some ToastUtil.component ->
  let shows (call : ToastUtil.world Toast.state
                    -> option N * ToastUtil.world Toast.state)
            (kind : jsstring) (missing : Z) :=
    let id := Toast.toastId (ToastUtil.held w) + 1 in
    fst (call w) = Some id
    /\ Toast.toasts (ToastUtil.held (snd (call w)))
       = Toast.toasts (ToastUtil.held w)
           ++ [Toast.mkToast id m kind (default missing d)]
    /\ ToastUtil.alerts (snd (call w)) = ToastUtil.alerts w in
  shows (ToastUtil.showToast m ty d) (default (Js.lit "info") ty) 3000%Z
  /\ shows (ToastUtil.success m d) (Js.lit "success") 3000%Z
  /\ shows (ToastUtil.error m d) (Js.lit "error") 5000%Z
  /\ shows (ToastUtil.warning m d) (Js.lit "warning") 4000%Z
  /\ shows (ToastUtil.info m d) (Js.lit "info") 3000%Z.
Proof.
  intros H shows. subst shows.
  unfold ToastUtil.showToast, ToastUtil.success, ToastUtil.error,
    ToastUtil.warning, ToastUtil.info, ToastUtil.delegate.
  rewrite H.
  unfold ToastUtil.component, Toast.show, Toast.success, Toast.error,
    Toast.warning, Toast.info, Toast.showToast.
  cbn [ToastInstance.show ToastInstance.success ToastInstance.error
       ToastInstance.warning ToastInstance.info default].
  repeat apply conj;
    match goal with
    | |- context [(?x >? 0)%Z] => destruct (x >? 0)%Z; reflexivity
    end.
Qed.

Lemma toast_utility_defaults_witness :
  ToastUtil.toastInstance ToastUtil.mounted = Some ToastUtil.component
  /\ Toast.toasts
       (ToastUtil.held
          (snd (ToastUtil.error (Js.lit "lost") None ToastUtil.mounted)))
     = [Toast.mkToast 1 (Js.lit "lost") (Js.lit "error") 5000%Z].
Proof.
  split; [reflexivity|].
  destruct (toast_utility_defaults ToastUtil.mounted (Js.lit "lost") None
              None eq_refl) as (_ & _ & (_ & H & _) & _).
  rewrite H. reflexivity.
Defined.

(* ===================================================================== *)
(* Properties of the global shortcuts                                    *)
(* ===================================================================== *)

Module ShortcutFacts.

Import Shortcut.

Lemma tagged_inj (x y : jsstring) (b c : bool) :
  tagged x b = tagged y c -> x = y /\ b = c.
Proof.
  unfold tagged. intros H.
  destruct b, c.
  - apply app_inv_tail in H. auto.
  - apply (f_equal (@rev N)) in H. rewrite !rev_app_distr in H.
    simpl in H. discriminate H.
  - apply (f_equal (@rev N)) in H. rewrite !rev_app_distr in H.
    simpl in H. discriminate H.
  - apply app_inv_tail in H. auto.
Qed.

Lemma mapKey_tagged (k : jsstring) (o : options) :
  mapKey k o
  = tagged (tagged (tagged (tagged k (default false (ctrl o)))
                      (default false (shift o)))
              (default false (alt o)))
      (default false (meta o)).
Proof. unfold mapKey, tagged. rewrite <- !app_assoc. reflexivity. Qed.

Lemma mapGet_set (k : jsstring) (v : listener) m :
  mapGet k (mapSet k v m) = Some v.
Proof.
  induction m as [|[k' v'] m IH]; simpl.
  - rewrite JsFacts.eqb_refl. reflexivity.
  - destruct (Js.eqb k' k) eqn:E; simpl; rewrite E; [reflexivity | exact IH].
Qed.

Lemma mapDelete_set (k : jsstring) (v : listener) m :
  mapDelete k (mapSet k v m) = mapDelete k m.
Proof.
  induction m as [|[k' v'] m IH]; simpl.
  - rewrite JsFacts.eqb_refl. reflexivity.
  - destruct (Js.eqb k' k) eqn:E; simpl; rewrite E; [reflexivity|].
    rewrite IH. reflexivity.
Qed.

Lemma mapDelete_absent (k : jsstring) m :
  mapGet k m = None -> mapDelete k m = m.
Proof.
  induction m as [|[k' v'] m IH]; simpl; [reflexivity|].
  destruct (Js.eqb k' k); [discriminate|]. intros H. rewrite IH; auto.
Qed.

Lemma in_mapDelete (k : jsstring) (entry : jsstring * listener) m :
  In entry (mapDelete k m) -> In entry m.
Proof.
  induction m as [|[k' v'] m IH]; simpl; [tauto|].
  destruct (Js.eqb k' k); simpl; tauto.
Qed.

Lemma in_mapSet (k : jsstring) (v : listener)
    (entry : jsstring * listener) m :
  In entry (mapSet k v m) -> In entry m \/ snd entry = v.
Proof.
  induction m as [|[k' v'] m IH]; simpl.
  - intros [<- | []]. right. reflexivity.
  - destruct (Js.eqb k' k); simpl.
    + intros [<- | H]; [right; reflexivity | left; right; exact H].
    + intros [<- | H]; [left; left; reflexivity|].
      destruct (IH H); [left; right; assumption | right; assumption].
Qed.

(* Removing a listener that was made later than all those attached. *)
Lemma remove_later (f : listener) (ls : list listener) :
  Forall (fun l => (identity l < identity f)%nat) ls ->
  removeEventListener f ls = ls.
Proof.
  intros H. unfold removeEventListener.
  apply forallb_filter_id. apply forallb_forall. intros l Hin.
  rewrite List.Forall_forall in H. specialize (H l Hin).
  apply negb_true_iff, Nat.eqb_neq. lia.
Qed.

Lemma add_later (f : listener) (ls : list listener) :
  Forall (fun l => (identity l < identity f)%nat) ls ->
  addEventListener f ls = ls ++ [f].
Proof.
  intros H. unfold addEventListener.
  replace (existsb _ ls) with false; [reflexivity|].
  symmetry. apply not_true_is_false. intros E.
  apply existsb_exists in E as (l & Hin & E).
  rewrite List.Forall_forall in H. specialize (H l Hin).
  apply Nat.eqb_eq in E. lia.
Qed.

Lemma remove_self (f : listener) (ls : list listener) :
  removeEventListener f (ls ++ [f]) = removeEventListener f ls.
Proof.
  unfold removeEventListener. rewrite List.filter_app. simpl.
  rewrite Nat.eqb_refl. simpl. apply app_nil_r.
Qed.

Lemma in_removeEventListener (f l : listener) (ls : list listener) :
  In l (removeEventListener f ls) <-> In l ls /\ identity l <> identity f.
Proof.
  unfold removeEventListener.
  rewrite filter_In, negb_true_iff, Nat.eqb_neq. tauto.
Qed.

Lemma in_removeAll (l : listener) (m : list (jsstring * listener))
    (ls : list listener) :
  In l (fold_left (fun ls entry => removeEventListener (snd entry) ls) m ls)
  <-> In l ls /\ forall entry, In entry m -> identity l <> identity (snd entry).
Proof.
  revert ls. induction m as [|e m IH]; intros ls; simpl.
  - split; [intros H; split; [exact H | intros ? []] | tauto].
  - rewrite IH, in_removeEventListener. split.
    + intros [[H1 H2] H3]. split; [exact H1|].
      intros entry [<- | Hin]; [exact H2 | apply H3, Hin].
    + intros [H1 H2]. split; [split; [exact H1 | apply H2; left; reflexivity]|].
      intros entry Hin. apply H2. right. exact Hin.
Qed.

Lemma invariant_removeEventListener (f : listener) (st : state) :
  Forall (fun l => (identity l < made st)%nat) (listeners st) ->
  Forall (fun l => (identity l < made st)%nat)
    (removeEventListener f (listeners st)).
Proof.
  intros H. apply List.Forall_forall. intros l Hin.
  apply in_removeEventListener in Hin as [Hin _].
  rewrite List.Forall_forall in H. apply H, Hin.
Qed.

Lemma invariant_mapDelete (k : jsstring) (n : nat) m :
  Forall (fun entry => (identity (snd entry) < n)%nat) m ->
  Forall (fun entry => (identity (snd entry) < n)%nat) (mapDelete k m).
Proof.
  intros H. apply List.Forall_forall. intros e Hin.
  apply in_mapDelete in Hin. rewrite List.Forall_forall in H. apply H, Hin.
Qed.

Lemma shortcut_invariant_reachable (st : state) (ds : list disposer) :
  reachable st ds -> invariant st.
Proof.
  induction 1 as [| st ds k h o _ [IH1 IH2] | st ds d _ [IH1 IH2] _
                  | st ds k o _ [IH1 IH2] | st ds _ [IH1 IH2]].
  - split; constructor.
  - split; simpl.
    + rewrite add_later by exact IH1.
      apply Forall_app. split.
      * eapply List.Forall_impl; [|exact IH1]. simpl. intros; lia.
      * constructor; [simpl; lia | constructor].
    + apply List.Forall_forall. intros e Hin.
      apply in_mapSet in Hin as [Hin | ->].
      * rewrite List.Forall_forall in IH2. specialize (IH2 e Hin). lia.
      * simpl. lia.
  - split; simpl.
    + apply (invariant_removeEventListener _ st), IH1.
    + apply invariant_mapDelete, IH2.
  - unfold unregisterShortcut.
    destruct (mapGet _ _); [|split; assumption].
    split; simpl.
    + apply (invariant_removeEventListener _ st), IH1.
    + apply invariant_mapDelete, IH2.
  - split; simpl; [|constructor].
    apply List.Forall_forall. intros l Hin.
    apply in_removeAll in Hin as [Hin _].
    rewrite List.Forall_forall in IH1. apply IH1, Hin.
Qed.

End ShortcutFacts.

(** X24.  Two registrations share an entry of the shortcuts map only when
    they have the same key and the same ctrl, shift, alt and meta (a
    missing one counting as false): the text built from them as the key
    of the map determines all five. *)
Theorem shortcut_map_key_injective (k k' : jsstring)
    (o o' : Shortcut.options) :
  Shortcut.mapKey k o = Shortcut.mapKey k' o' ->
  k = k'
  /\ default false (Shortcut.ctrl o) = default false (Shortcut.ctrl o')
  /\ default false (Shortcut.shift o) = default false (Shortcut.shift o')
  /\ default false (Shortcut.alt o) = default false (Shortcut.alt o')
  /\ default false (Shortcut.meta o) = default false (Shortcut.meta o').
Proof.
  rewrite !ShortcutFacts.mapKey_tagged. intros H.
  apply ShortcutFacts.tagged_inj in H as [H H4].
  apply ShortcutFacts.tagged_inj in H as [H H3].
  apply ShortcutFacts.tagged_inj in H as [H H2].
  apply ShortcutFacts.tagged_inj in H as [H H1].
  auto.
Qed.

Lemma shortcut_map_key_injective_witness :
  Shortcut.mapKey (Js.lit "s") Shortcut.ctrlS
  = Shortcut.mapKey (Js.lit "s")
      (Shortcut.mkOptions (Some true) (Some false) None None (Some false))
  /\ Js.lit "s" = Js.lit "s".
Proof.
  assert (H : Shortcut.mapKey (Js.lit "s") Shortcut.ctrlS
              = Shortcut.mapKey (Js.lit "s")
                  (Shortcut.mkOptions (Some true) (Some false) None None
                     (Some false))) by reflexivity.
  split; [exact H|].
  exact (proj1 (shortcut_map_key_injective _ _ _ _ H)).
Defined.

(** X25.  When a shortcut fires.  A keyHandler calls its handler exactly
    when shift, alt and meta of the event equal the options, the keys
    are equal once lower-cased, and ctrl of the options is true if the
    meta key is down and equals ctrlKey otherwise.  So a shortcut
    registered with meta alone (ctrl false) never fires, and the meta
    key never stands for ctrl: a shortcut without meta does not fire
    while the meta key is down. *)
Theorem shortcut_fires_when (toLowerCase : jsstring -> jsstring)
    (b : Shortcut.binding) (event : Shortcut.keydown) :
  (Shortcut.matches toLowerCase b event = true <->
   Shortcut.withShift b = Shortcut.shiftKey event
   /\ Shortcut.withAlt b = Shortcut.altKey event
   /\ Shortcut.withMeta b = Shortcut.metaKey event
   /\ Shortcut.withCtrl b
      = (if Shortcut.metaKey event then true else Shortcut.ctrlKey event)
   /\ toLowerCase (Shortcut.eventKey event) = toLowerCase (Shortcut.key b))
  /\ (Shortcut.withMeta b = true -> Shortcut.withCtrl b = false ->
      Shortcut.matches toLowerCase b event = false)
  /\ (Shortcut.withMeta b = false -> Shortcut.metaKey event = true ->
      Shortcut.matches toLowerCase b event = false).
Proof.
  unfold Shortcut.matches.
  destruct b as [k c s a m p h], event as [ek ec es ea em]. simpl.
  destruct (Js.eqb (toLowerCase ek) (toLowerCase k)) eqn:E.
  - apply JsFacts.eqb_eq in E.
    destruct c, s, a, m, ec, es, ea, em; simpl;
      repeat apply conj; try tauto; try discriminate; try reflexivity;
      intuition discriminate.
  - apply JsFacts.eqb_neq in E. rewrite !andb_false_r.
    repeat apply conj; try reflexivity.
    + intros H. discriminate H.
    + intros (_ & _ & _ & _ & H). contradiction.
Qed.

Lemma shortcut_fires_when_witness :
  Shortcut.withMeta (Shortcut.bind (Js.lit "s") 7 Shortcut.ctrlS) = false
  /\ Shortcut.metaKey Shortcut.pressCmdS = true
  /\ Shortcut.matches Js.toLowerCase
       (Shortcut.bind (Js.lit "s") 7 Shortcut.ctrlS) Shortcut.pressCmdS
     = false.
Proof.
  split; [reflexivity | split; [reflexivity|]].
  destruct (shortcut_fires_when Js.toLowerCase
              (Shortcut.bind (Js.lit "s") 7 Shortcut.ctrlS)
              Shortcut.pressCmdS) as (_ & _ & H).
  apply H; reflexivity.
Defined.

(** X26.  Registering a shortcut under a key of the map that is free and
    then undoing it, by the function registerShortcut returned or by
    unregisterShortcut with the same key and options, gives back the map
    and the keydown listeners there were. *)
Theorem register_then_unregister (k : jsstring) (h : N)
    (o : Shortcut.options) (st : Shortcut.state)
    (ds : list Shortcut.disposer) :
  Shortcut.reachable st ds ->
  Shortcut.mapGet (Shortcut.mapKey k o) (Shortcut.shortcuts st) = None ->
  let registered := Shortcut.registerShortcut k h o st in
  let undone := Shortcut.dispose (fst registered) (snd registered) in
  Shortcut.shortcuts undone = Shortcut.shortcuts st
  /\ Shortcut.listeners undone = Shortcut.listeners st
  /\ Shortcut.unregisterShortcut k o (snd registered) = undone.
Proof.
  intros Hreach Hfree registered undone.
  destruct (ShortcutFacts.shortcut_invariant_reachable st ds Hreach) as [Hl _].
  set (f := Shortcut.mkListener (Shortcut.made st) (Shortcut.bind k h o)).
  assert (Hadd : Shortcut.addEventListener f (Shortcut.listeners st)
                 = Shortcut.listeners st ++ [f])
    by (apply ShortcutFacts.add_later; exact Hl).
  assert (Hmap : Shortcut.mapDelete (Shortcut.mapKey k o)
                   (Shortcut.mapSet (Shortcut.mapKey k o) f
                      (Shortcut.shortcuts st))
                 = Shortcut.shortcuts st).
  { rewrite ShortcutFacts.mapDelete_set.
    apply ShortcutFacts.mapDelete_absent, Hfree. }
  assert (Hls : Shortcut.removeEventListener f
                  (Shortcut.addEventListener f (Shortcut.listeners st))
                = Shortcut.listeners st).
  { rewrite Hadd, ShortcutFacts.remove_self.
    apply ShortcutFacts.remove_later. exact Hl. }
  subst undone registered. unfold Shortcut.registerShortcut. fold f.
  cbn [fst snd Shortcut.dispose Shortcut.disposed Shortcut.disposedKey
       Shortcut.shortcuts Shortcut.listeners Shortcut.made].
  split; [exact Hmap | split; [exact Hls|]].
  unfold Shortcut.unregisterShortcut.
  cbn [Shortcut.shortcuts Shortcut.listeners Shortcut.made].
  rewrite ShortcutFacts.mapGet_set. reflexivity.
Qed.

Lemma register_then_unregister_witness :
  Shortcut.reachable Shortcut.initial []
  /\ Shortcut.listeners
       (Shortcut.dispose
          (fst (Shortcut.registerShortcut (Js.lit "s") 7 Shortcut.ctrlS
                  Shortcut.initial))
          (snd (Shortcut.registerShortcut (Js.lit "s") 7 Shortcut.ctrlS
                  Shortcut.initial)))
     = [].
Proof.
  split; [constructor|].
  destruct (register_then_unregister (Js.lit "s") 7 Shortcut.ctrlS
              Shortcut.initial [] Shortcut.reachable_initial eq_refl)
    as (_ & H & _).
  exact H.
Defined.

(** X27.  A second registration under the same key and options leaves
    the first one out of reach.  After two calls of registerShortcut
    with one key and one set of options, unregisterShortcut detaches the
    second keyHandler only: the first is still a keydown listener, still
    calls its handler on a matching event, and stays attached after
    unregisterAllShortcuts; the map has no entry for the key any more. *)
Theorem second_registration_orphans_first (k : jsstring) (h1 h2 : N)
    (o : Shortcut.options) (st : Shortcut.state)
    (ds : list Shortcut.disposer) :
  Shortcut.reachable st ds ->
  let first := Shortcut.mkListener (Shortcut.made st) (Shortcut.bind k h1 o) in
  let st1 := snd (Shortcut.registerShortcut k h1 o st) in
  let st2 := snd (Shortcut.registerShortcut k h2 o st1) in
  let st3 := Shortcut.unregisterShortcut k o st2 in
  Shortcut.listeners st3 = Shortcut.listeners st ++ [first]
  /\ Shortcut.shortcuts st3
     = Shortcut.mapDelete (Shortcut.mapKey k o) (Shortcut.shortcuts st)
  /\ In first (Shortcut.listeners (Shortcut.unregisterAllShortcuts st3))
  /\ (forall toLowerCase event,
        Shortcut.matches toLowerCase (Shortcut.bind k h1 o) event = true ->
        In h1 (Shortcut.fired toLowerCase event st3)).
Proof.
  intros Hreach first st1 st2 st3.
  destruct (ShortcutFacts.shortcut_invariant_reachable st ds Hreach) as [Hl Hm].
  set (second := Shortcut.mkListener (S (Shortcut.made st))
                   (Shortcut.bind k h2 o)).
  assert (H1 : Shortcut.listeners st1 = Shortcut.listeners st ++ [first]).
  { apply ShortcutFacts.add_later. exact Hl. }
  assert (Hl1 : Forall (fun l => (Shortcut.identity l < S (Shortcut.made st))%nat)
                  (Shortcut.listeners st ++ [first])).
  { apply Forall_app. split.
    - eapply List.Forall_impl; [|exact Hl]. simpl. intros; lia.
    - constructor; [simpl; lia | constructor]. }
  assert (H2 : Shortcut.listeners st2
               = (Shortcut.listeners st ++ [first]) ++ [second]).
  { subst st2. unfold Shortcut.registerShortcut.
    cbn [snd Shortcut.listeners]. rewrite H1.
    apply (ShortcutFacts.add_later second). exact Hl1. }
  assert (H3 : Shortcut.listeners st3 = Shortcut.listeners st ++ [first]).
  { subst st3. unfold Shortcut.unregisterShortcut.
    replace (Shortcut.mapGet (Shortcut.mapKey k o) (Shortcut.shortcuts st2))
      with (Some second) by (symmetry; apply ShortcutFacts.mapGet_set).
    cbn [Shortcut.listeners]. rewrite H2, ShortcutFacts.remove_self.
    apply (ShortcutFacts.remove_later second). exact Hl1. }
  assert (H4 : Shortcut.shortcuts st3
               = Shortcut.mapDelete (Shortcut.mapKey k o)
                   (Shortcut.shortcuts st)).
  { subst st3. unfold Shortcut.unregisterShortcut.
    replace (Shortcut.mapGet (Shortcut.mapKey k o) (Shortcut.shortcuts st2))
      with (Some second) by (symmetry; apply ShortcutFacts.mapGet_set).
    cbn [Shortcut.shortcuts]. subst st2 st1.
    unfold Shortcut.registerShortcut. cbn [snd Shortcut.shortcuts].
    rewrite !ShortcutFacts.mapDelete_set. reflexivity. }
  assert (Hin : In first (Shortcut.listeners st3)).
  { rewrite H3. apply in_app_iff. right. left. reflexivity. }
  split; [exact H3 | split; [exact H4 | split]].
  - unfold Shortcut.unregisterAllShortcuts. cbn [Shortcut.listeners].
    apply ShortcutFacts.in_removeAll. split; [exact Hin|].
    intros entry He. rewrite H4 in He.
    apply ShortcutFacts.in_mapDelete in He.
    rewrite List.Forall_forall in Hm. specialize (Hm entry He).
    simpl. lia.
  - intros lower event Hmatch. unfold Shortcut.fired.
    apply in_map_iff. exists first. split; [reflexivity|].
    apply filter_In. split; [exact Hin | exact Hmatch].
Qed.

Lemma second_registration_orphans_first_witness :
  Shortcut.reachable Shortcut.initial []
  /\ Shortcut.fired Js.toLowerCase Shortcut.pressCtrlS
       (Shortcut.unregisterAllShortcuts
          (Shortcut.unregisterShortcut (Js.lit "s") Shortcut.ctrlS
             Shortcut.twice))
     = [7]
  /\ In 7 (Shortcut.fired Js.toLowerCase Shortcut.pressCtrlS
             (Shortcut.unregisterShortcut (Js.lit "s") Shortcut.ctrlS
                Shortcut.twice)).
Proof.
  split; [constructor | split; [reflexivity|]].
  destruct (second_registration_orphans_first (Js.lit "s") 7 8
              Shortcut.ctrlS Shortcut.initial []
              Shortcut.reachable_initial) as (_ & _ & _ & H).
  apply (H Js.toLowerCase Shortcut.pressCtrlS). reflexivity.
Defined.

(** X28.  unregisterAllShortcuts empties the map and detaches exactly
    the keyHandlers the map held: a keydown listener is still attached
    afterwards if and only if it was attached before and is not a value
    of the map; none is added. *)
Theorem unregisterAll_exact (st : Shortcut.state) (l : Shortcut.listener) :
  Shortcut.shortcuts (Shortcut.unregisterAllShortcuts st) = []
  /\ (In l (Shortcut.listeners (Shortcut.unregisterAllShortcuts st)) <->
      In l (Shortcut.listeners st)
      /\ forall entry, In entry (Shortcut.shortcuts st) ->
           Shortcut.identity l <> Shortcut.identity (snd entry)).
Proof.
  split; [reflexivity|].
  unfold Shortcut.unregisterAllShortcuts. cbn [Shortcut.listeners].
  apply ShortcutFacts.in_removeAll.
Qed.

Lemma unregisterAll_exact_witness :
  In (Shortcut.mkListener 0 (Shortcut.bind (Js.lit "s") 7 Shortcut.ctrlS))
    (Shortcut.listeners Shortcut.twice)
  /\ In (Shortcut.mkListener 0 (Shortcut.bind (Js.lit "s") 7 Shortcut.ctrlS))
       (Shortcut.listeners (Shortcut.unregisterAllShortcuts Shortcut.twice)).
Proof.
  assert (H : In (Shortcut.mkListener 0
                    (Shortcut.bind (Js.lit "s") 7 Shortcut.ctrlS))
                (Shortcut.listeners Shortcut.twice))
    by (left; reflexivity).
  split; [exact H|].
  apply (proj2 (unregisterAll_exact Shortcut.twice _)).
  split; [exact H|].
  intros entry [<- | []]. discriminate.
Defined.
